(** * rtsp-simple-server: the RTSP client handler of [client.go]

    A shallow embedding of [client.go]: the interleaved channel mapping, the
    transport header, the path taken from the request URL, [handleRequest],
    one turn of the loop of [run], the frames a publisher sends over TCP,
    and [close], over an explicit store of client objects and the two
    registry maps of [program]. *)

From Stdlib Require Import ZArith String Ascii List Lia.
From Stdlib.Strings Require Import Byte.
From stdpp Require Import base option gmap sets list strings pretty.

Local Open Scope string_scope.

(** ** Go values *)

(** Go's [int] on a 64-bit target: signed, wrapping around on overflow. *)
Definition int_min : Z := (- 2 ^ 63)%Z.
Definition int_max : Z := (2 ^ 63 - 1)%Z.

Definition is_int (z : Z) : Prop := (int_min ≤ z ≤ int_max)%Z.

Definition wrap (z : Z) : Z := ((z + 2 ^ 63) `mod` 2 ^ 64 - 2 ^ 63)%Z.

Definition int_add (a b : Z) : Z := wrap (a + b).
Definition int_sub (a b : Z) : Z := wrap (a - b).
Definition int_mul (a b : Z) : Z := wrap (a * b).
(** [/] and [%] truncate towards zero. *)
Definition int_div (a b : Z) : Z := wrap (a ÷ b).
Definition int_rem (a b : Z) : Z := Z.rem a b.

(** [len(s)] of a string, [s[n:]] and [s[:n]]; the handler only slices
    within bounds. *)
Definition len (s : string) : nat := String.length s.
Definition slice_from (n : nat) (s : string) : string :=
  String.substring n (len s - n) s.
Definition slice_to (n : nat) (s : string) : string :=
  String.substring 0 n s.

(** [strings.Index(s, sep)]: the first index of [sep] in [s], or [-1]. *)
Definition strings_Index (s sep : string) : Z :=
  match String.index 0 sep s with
  | Some n => Z.of_nat n
  | None => (-1)%Z
  end.

(** [strings.HasPrefix(s, prefix)]. *)
Definition strings_HasPrefix (s prefix : string) : bool := String.prefix prefix s.

(** [strings.Split(s, sep)] for a separator of one byte, the only way the
    handler calls it ([";"] and ["-"]). *)
Fixpoint strings_Split (s : string) (sep : ascii) : list string :=
  match s with
  | EmptyString => [EmptyString]
  | String a s' =>
      if Ascii.eqb a sep then EmptyString :: strings_Split s' sep
      else match strings_Split s' sep with
           | x :: r => String a x :: r
           | [] => [String a EmptyString]
           end
  end.

(** [strings.Join(elems, sep)]. *)
Definition strings_Join (elems : list string) (sep : string) : string :=
  String.concat sep elems.

(** [fmt.Sprintf("%d-%d", a, b)].  The handler formats ports and numbers
    computed from [len(c.streamTracks)], which are far from overflow. *)
Definition sprintf_d_d (a b : Z) : string := pretty a +:+ "-" +:+ pretty b.

(** ** The interleaved channel mapping (client.go, lines 25-37) *)

(** Modelled from the spec: the type [trackFlow] and its constants are
    declared outside [client.go]; a flow is RTP or RTCP. *)
Inductive trackFlow := _TRACK_FLOW_RTP | _TRACK_FLOW_RTCP.

Global Instance trackFlow_eq_dec : EqDecision trackFlow.
Proof. solve_decision. Defined.

Definition interleavedChannelToTrack (channel : Z) : Z * trackFlow :=
  if (int_rem channel 2 =? 0)%Z then (int_div channel 2, _TRACK_FLOW_RTP)
  else (int_div (int_sub channel 1) 2, _TRACK_FLOW_RTCP).

Definition trackToInterleavedChannel (id : Z) (flow : trackFlow) : Z :=
  if decide (flow = _TRACK_FLOW_RTP) then int_mul id 2
  else int_add (int_mul id 2) 1.

(** ** The path of a request (client.go, lines 309-323) *)

(** The closure that computes [path] from [ur.Path]. *)
Definition requestPath (urPath : string) : string :=
  let ret := urPath in
  (* remove leading slash *)
  let ret := if (1 <? len ret)%nat then slice_from 1 ret else ret in
  (* strip any subpath *)
  let n := strings_Index ret "/" in
  if (0 <=? n)%Z then slice_to (Z.to_nat n) ret else ret.

(** The path as the specification words it: one leading ['/'] dropped when
    there is one, then cut at the first ['/'] that remains. *)
Definition dropLeadingSlash (s : string) : string :=
  match s with
  | String "/" s' => s'
  | _ => s
  end.

Fixpoint cutAtSlash (s : string) : string :=
  match s with
  | EmptyString => EmptyString
  | String a s' => if Ascii.eqb a "/" then EmptyString else String a (cutAtSlash s')
  end.

Definition specPath (urPath : string) : string :=
  cutAtSlash (dropLeadingSlash urPath).

(** ** The transport header (client.go, lines 39-81) *)

(** [transportHeader] is a [map[string]struct{}]: a set of tokens. *)
Definition newTransportHeader (in_ : string) : gset string :=
  list_to_set (strings_Split in_ ";").

(** Go ranges over a map in an order it leaves open.  [range] is the order
    the run time picks; it is a parameter of everything that iterates, and
    the theorems hold for every order that enumerates the set. *)
Definition enumerates `{Countable K} (range : gset K → list K) : Prop :=
  ∀ X, range X ≡ₚ elements X.

Fixpoint firstWithPrefix (prefix : string) (ts : list string) : string :=
  match ts with
  | [] => ""
  | t :: ts' =>
      if strings_HasPrefix t prefix then slice_from (len prefix) t
      else firstWithPrefix prefix ts'
  end.

Definition getKeyValue (range : gset string → list string)
    (th : gset string) (key : string) : string :=
  let prefix := key +:+ "=" in
  firstWithPrefix prefix (range th).

(** [strconv.ParseInt(s, 10, 64)]: an optional sign, then one or more
    decimal digits, and the value must fit in 64 bits; [None] is an error. *)
Definition digitValue (a : ascii) : option Z :=
  let n := nat_of_ascii a in
  if ((48 <=? n) && (n <=? 57))%nat then Some (Z.of_nat (n - 48)) else None.

Fixpoint parseDigits (s : string) (acc : Z) : option Z :=
  match s with
  | EmptyString => Some acc
  | String a s' =>
      match digitValue a with
      | Some d => parseDigits s' (acc * 10 + d)%Z
      | None => None
      end
  end.

Definition strconv_ParseInt (s : string) : option Z :=
  let '(neg, digits) :=
    match s with
    | String "+" s' => (false, s')
    | String "-" s' => (true, s')
    | _ => (false, s)
    end in
  match digits with
  | EmptyString => None
  | _ =>
      match parseDigits digits 0 with
      | Some n =>
          if neg then (if (n <=? 2 ^ 63)%Z then Some (- n)%Z else None)
          else (if (n <? 2 ^ 63)%Z then Some n else None)
      | None => None
      end
  end.

Definition getClientPorts (range : gset string → list string)
    (th : gset string) : Z * Z :=
  let val := getKeyValue range th "client_port" in
  if val =? "" then (0, 0)%Z
  else
    match strings_Split val "-" with
    | [s1; s2] =>
        match strconv_ParseInt s1 with
        | None => (0, 0)%Z
        | Some port1 =>
            match strconv_ParseInt s2 with
            | None => (0, 0)%Z
            | Some port2 => (port1, port2)
            end
        end
    | _ => (0, 0)%Z
    end.

(** ** Clients, the program and RTSP messages *)

(** Modelled from the spec: the type [streamProtocol] and its constants are
    declared outside [client.go]; a protocol is UDP or TCP. *)
Inductive streamProtocolKind := _STREAM_PROTOCOL_UDP | _STREAM_PROTOCOL_TCP.

Global Instance streamProtocolKind_eq_dec : EqDecision streamProtocolKind.
Proof. solve_decision. Defined.

(** Modelled from the spec: the struct [track] is declared outside
    [client.go]; it holds the two ports the client announced, as in the
    literals of lines 500-503. *)
Record track := { rtpPort : Z; rtcpPort : Z }.

(** What the server reads of a parsed SDP: its list of medias. *)
Inductive sdp_Media := Media (description : string).
Record sdp_Message := { Medias : list sdp_Media }.
Definition sdp_Session : Type := list string.

(** A [*client] is an address in the store [p_mem]; the fields are those of
    the struct (lines 83-93) that the handler reads or writes, [rconn]
    reduced to whether the socket has been closed. *)
Record client := {
  state : string;
  path : string;
  streamSdpText : list Byte.byte;
  streamSdpParsed : option sdp_Message;
  streamProtocol : streamProtocolKind;
  streamTracks : list track;
  rconnClosed : bool
}.

(** The client of lines 96-100: state STARTING, the other fields zero. *)
Definition newClientValue : client :=
  {| state := "STARTING"; path := ""; streamSdpText := [];
     streamSdpParsed := None; streamProtocol := _STREAM_PROTOCOL_UDP;
     streamTracks := []; rconnClosed := false |}.

(** Modelled from the spec: the struct [program] is declared outside
    [client.go]; these are the fields [client.go] uses ([publishers] from
    path to client, the set [clients], the publishing key and the two server
    ports), with the store of the client objects the pointers refer to. *)
Record program := {
  p_mem : gmap nat client;
  p_clients : gset nat;
  p_publishers : gmap string nat;
  p_publishKey : string;
  p_rtpPort : Z;
  p_rtcpPort : Z
}.

Definition setMem (p : program) (m : gmap nat client) : program :=
  {| p_mem := m; p_clients := p_clients p; p_publishers := p_publishers p;
     p_publishKey := p_publishKey p; p_rtpPort := p_rtpPort p;
     p_rtcpPort := p_rtcpPort p |}.

Definition setClients (p : program) (cs : gset nat) : program :=
  {| p_mem := p_mem p; p_clients := cs; p_publishers := p_publishers p;
     p_publishKey := p_publishKey p; p_rtpPort := p_rtpPort p;
     p_rtcpPort := p_rtcpPort p |}.

Definition setPublishers (p : program) (ps : gmap string nat) : program :=
  {| p_mem := p_mem p; p_clients := p_clients p; p_publishers := ps;
     p_publishKey := p_publishKey p; p_rtpPort := p_rtpPort p;
     p_rtcpPort := p_rtcpPort p |}.

(** [*c = cl]: the object at address [c] becomes [cl]. *)
Definition store (p : program) (c : nat) (cl : client) : program :=
  setMem p (<[c := cl]> (p_mem p)).

Definition withState (cl : client) (s : string) : client :=
  {| state := s; path := path cl; streamSdpText := streamSdpText cl;
     streamSdpParsed := streamSdpParsed cl; streamProtocol := streamProtocol cl;
     streamTracks := streamTracks cl; rconnClosed := rconnClosed cl |}.

Definition withClosed (cl : client) : client :=
  {| state := state cl; path := path cl; streamSdpText := streamSdpText cl;
     streamSdpParsed := streamSdpParsed cl; streamProtocol := streamProtocol cl;
     streamTracks := streamTracks cl; rconnClosed := true |}.

(** Modelled from the spec: the package [rtsp] of the repository is outside
    [client.go]; a request has a method, a URL, headers and a body, a
    response a code, a reason, headers and a body, under the field names
    [client.go] uses.  The connection writes a response or fails to. *)
Module Request.
Record t := mk {
  Method : string;
  Url : string;
  Headers : gmap string string;
  Content : list Byte.byte
}.
End Request.

Module Response.
Record t := mk {
  StatusCode : Z;
  Status : string;
  Headers : gmap string string;
  Content : list Byte.byte
}.
End Response.

(** [net/url]: the two fields of a parsed URL the handler reads. *)
Record URL := { Path : string; RawQuery : string }.

Inductive error :=
  | errTeardown
  | errPlay
  | errRecord
  | errWrongKey
  | errorf (msg : string).

(** A call returns, or panics on a nil pointer. *)
Inductive result (A : Type) :=
  | Ret (a : A)
  | Panic.
Arguments Ret {A} a.
Arguments Panic {A}.

(** The library calls of the handler: [url.Parse] and [url.ParseQuery] of
    net/url ([None] is an error), and the two decoding steps of gortc.io/sdp
    ([inl] carries the text of the error). *)
Record libraries := {
  url_Parse : string → option URL;
  url_ParseQuery : string → option (gmap string (list string));
  sdp_DecodeSession : list Byte.byte → string + sdp_Session;
  sdp_Decode : sdp_Session → string + sdp_Message
}.

(** ** handleRequest (client.go, lines 298-802) *)

(** What a call returns: the response, if any, and the error, if any. *)
Definition reply : Type := option Response.t * option error.

Definition fails (p : program) (msg : string) : result (program * reply) :=
  Ret (p, (None, Some (errorf msg))).

Definition response200 (headers : gmap string string)
    (content : list Byte.byte) : Response.t :=
  Response.mk 200 "OK" headers content.

Definition sessionHeaders (cseq transport : string) : gmap string string :=
  {[ "CSeq" := cseq; "Transport" := transport; "Session" := "12345678" ]}.

Definition udpTransport (p : program) (rtp rtcp : Z) : string :=
  strings_Join
    [ "RTP/AVP"; "unicast";
      "client_port=" +:+ sprintf_d_d rtp rtcp;
      "server_port=" +:+ sprintf_d_d (p_rtpPort p) (p_rtcpPort p);
      "ssrc=1234ABCD" ] ";".

Definition tcpTransport (interleaved : string) : string :=
  strings_Join [ "RTP/AVP/TCP"; "unicast"; "interleaved=" +:+ interleaved ] ";".

Section Handler.
Context (L : libraries) (range : gset string → list string).

(** lines 326-345 *)
Definition caseOptions (p : program) (cseq : string) : result (program * reply) :=
  Ret (p, (Some (response200
    {[ "CSeq" := cseq;
       "Public" := strings_Join
         [ "DESCRIBE"; "ANNOUNCE"; "SETUP"; "PLAY"; "PAUSE"; "RECORD";
           "TEARDOWN" ] ", " ]} []), None)).

(** lines 347-376 *)
Definition caseDescribe (p : program) (cl : client) (req : Request.t)
    (cseq path_ : string) : result (program * reply) :=
  if negb (state cl =? "STARTING") then
    fails p ("client is in state '" +:+ state cl +:+ "'")
  else
    match p_publishers p !! path_ with
    | None => fails p ("no one is streaming on path '" +:+ path_ +:+ "'")
    | Some pub =>
        match p_mem p !! pub with
        | None => Panic
        | Some pcl =>
            Ret (p, (Some (response200
              {[ "CSeq" := cseq;
                 "Content-Base" := Request.Url req;
                 "Content-Type" := "application/sdp" ]}
              (streamSdpText pcl)), None))
        end
    end.

(** lines 392-406 *)
Definition decodeSdp (content : list Byte.byte) : string + sdp_Message :=
  match sdp_DecodeSession L content with
  | inl err => inl err
  | inr s => sdp_Decode L s
  end.

(** lines 411-425: [None] when the key is accepted or none is configured. *)
Definition checkPublishKey (p : program) (ur : URL) : option error :=
  if negb (p_publishKey p =? "") then
    match url_ParseQuery L (RawQuery ur) with
    | None => Some (errorf "unable to parse query")
    | Some q =>
        match q !! "key" with
        | None | Some [] => Some (errorf "key missing")
        | Some (key0 :: _) =>
            if negb (key0 =? p_publishKey p) then Some errWrongKey else None
        end
    end
  else None.

(** lines 378-453 *)
Definition caseAnnounce (p : program) (c : nat) (cl : client)
    (req : Request.t) (cseq : string) (ur : URL) (path_ : string)
    : result (program * reply) :=
  if negb (state cl =? "STARTING") then
    fails p ("client is in state '" +:+ state cl +:+ "'")
  else
    match Request.Headers req !! "Content-Type" with
    | None => fails p "Content-Type header missing"
    | Some ct =>
        if negb (ct =? "application/sdp") then
          fails p ("unsupported Content-Type '" +:+ ct +:+ "'")
        else
          match decodeSdp (Request.Content req) with
          | inl err => fails p ("invalid SDP: " +:+ err)
          | inr sdpParsed =>
              match checkPublishKey p ur with
              | Some err => Ret (p, (None, Some err))
              | None =>
                  match p_publishers p !! path_ with
                  | Some _ =>
                      fails p ("another client is already publishing on path '"
                               +:+ path_ +:+ "'")
                  | None =>
                      let cl' :=
                        {| state := "ANNOUNCE"; path := path_;
                           streamSdpText := Request.Content req;
                           streamSdpParsed := Some sdpParsed;
                           streamProtocol := streamProtocol cl;
                           streamTracks := streamTracks cl;
                           rconnClosed := rconnClosed cl |} in
                      let p' :=
                        setPublishers (store p c cl')
                          (<[path_ := c]> (p_publishers p)) in
                      Ret (p', (Some (response200 {[ "CSeq" := cseq ]} []), None))
                  end
              end
          end
    end.

Definition appendTrack (cl : client) (st path_ : string)
    (proto : streamProtocolKind) (tr : track) : client :=
  {| state := st; path := path_; streamSdpText := streamSdpText cl;
     streamSdpParsed := streamSdpParsed cl; streamProtocol := proto;
     streamTracks := streamTracks cl ++ [tr]; rconnClosed := rconnClosed cl |}.

Definition otherProtocol (cl : client) (proto : streamProtocolKind) : bool :=
  (0 <? length (streamTracks cl))%nat
  && negb (bool_decide (streamProtocol cl = proto)).

(** lines 481-507 and 534-560: the locked part of a reader's SETUP. *)
Definition setupPlayLocked (p : program) (c : nat) (cl : client)
    (path_ : string) (proto : streamProtocolKind) (tr : track)
    : result (program * option error) :=
  match p_publishers p !! path_ with
  | None =>
      Ret (p, Some (errorf ("no one is streaming on path '" +:+ path_ +:+ "'")))
  | Some pub =>
      if otherProtocol cl proto then
        Ret (p, Some (errorf "client want to send tracks with different protocols"))
      else
        match p_mem p !! pub with
        | None => Panic
        | Some pcl =>
            match streamSdpParsed pcl with
            | None => Panic
            | Some m =>
                if (length (Medias m) <=? length (streamTracks cl))%nat then
                  Ret (p, Some (errorf "all the tracks have already been setup"))
                else
                  Ret (store p c (appendTrack cl "PRE_PLAY" path_ proto tr), None)
            end
        end
  end.

(** lines 469-583 *)
Definition caseSetupPlay (p : program) (c : nat) (cl : client)
    (cseq path_ transportstr : string) (th : gset string)
    : result (program * reply) :=
  if bool_decide ("RTP/AVP" ∈ th) then
    (* play via UDP *)
    let '(rtpPort_, rtcpPort_) := getClientPorts range th in
    if ((rtpPort_ =? 0) || (rtcpPort_ =? 0))%Z then
      fails p ("transport header does not have valid client ports ("
               +:+ transportstr +:+ ")")
    else if negb (path cl =? "") && negb (path_ =? path cl) then
      fails p "path has changed"
    else
      match setupPlayLocked p c cl path_ _STREAM_PROTOCOL_UDP
              {| rtpPort := rtpPort_; rtcpPort := rtcpPort_ |} with
      | Panic => Panic
      | Ret (p', Some err) => Ret (p', (None, Some err))
      | Ret (p', None) =>
          Ret (p', (Some (response200
            (sessionHeaders cseq (udpTransport p' rtpPort_ rtcpPort_)) []), None))
      end
  else if bool_decide ("RTP/AVP/TCP" ∈ th) then
    (* play via TCP *)
    if negb (path cl =? "") && negb (path_ =? path cl) then
      fails p "path has changed"
    else
      match setupPlayLocked p c cl path_ _STREAM_PROTOCOL_TCP
              {| rtpPort := 0; rtcpPort := 0 |} with
      | Panic => Panic
      | Ret (p', Some err) => Ret (p', (None, Some err))
      | Ret (p', None) =>
          match p_mem p' !! c with
          | None => Panic
          | Some cl' =>
              let n := Z.of_nat (length (streamTracks cl')) in
              let interleaved :=
                sprintf_d_d ((n - 1) * 2) ((n - 1) * 2 + 1) in
              Ret (p', (Some (response200
                (sessionHeaders cseq (tcpTransport interleaved)) []), None))
          end
      end
  else
    fails p ("transport header does not contain a valid protocol (RTP/AVP or RTP/AVP/TCP) ("
             +:+ transportstr +:+ ")").

(** lines 602-622: the locked part of a publisher's SETUP over UDP. *)
Definition setupRecordUdpLocked (p : program) (c : nat) (cl : client)
    (tr : track) : result (program * option error) :=
  if otherProtocol cl _STREAM_PROTOCOL_UDP then
    Ret (p, Some (errorf "client want to send tracks with different protocols"))
  else
    match streamSdpParsed cl with
    | None => Panic
    | Some m =>
        if (length (Medias m) <=? length (streamTracks cl))%nat then
          Ret (p, Some (errorf "all the tracks have already been setup"))
        else
          Ret (store p c (appendTrack cl "PRE_RECORD" (path cl) _STREAM_PROTOCOL_UDP tr),
               None)
    end.

(** lines 646-676: the locked part of a publisher's SETUP over TCP; it
    also yields the [interleaved] value it read. *)
Definition setupRecordTcpLocked (p : program) (c : nat) (cl : client)
    (th : gset string) : result (program * string * option error) :=
  if otherProtocol cl _STREAM_PROTOCOL_TCP then
    Ret (p, "", Some (errorf "client want to send tracks with different protocols"))
  else
    match streamSdpParsed cl with
    | None => Panic
    | Some m =>
        if (length (Medias m) <=? length (streamTracks cl))%nat then
          Ret (p, "", Some (errorf "all the tracks have already been setup"))
        else
          let interleaved := getKeyValue range th "interleaved" in
          if interleaved =? "" then
            Ret (p, interleaved,
                 Some (errorf "transport header does not contain interleaved field"))
          else
            let n := Z.of_nat (length (streamTracks cl)) in
            let expInterleaved := sprintf_d_d (0 + n * 2) (1 + n * 2) in
            if negb (interleaved =? expInterleaved) then
              Ret (p, interleaved,
                   Some (errorf ("wrong interleaved value, expected '"
                                 +:+ expInterleaved +:+ "', got '"
                                 +:+ interleaved +:+ "'")))
            else
              Ret (store p c
                     (appendTrack cl "PRE_RECORD" (path cl) _STREAM_PROTOCOL_TCP
                        {| rtpPort := 0; rtcpPort := 0 |}),
                   interleaved, None)
    end.

(** lines 586-697 *)
Definition caseSetupRecord (p : program) (c : nat) (cl : client)
    (cseq path_ transportstr : string) (th : gset string)
    : result (program * reply) :=
  if negb (bool_decide ("mode=record" ∈ th)) then
    fails p "transport header does not contain mode=record"
  else if negb (path_ =? path cl) then
    fails p "path has changed"
  else if bool_decide ("RTP/AVP/UDP" ∈ th) then
    (* record via UDP *)
    let '(rtpPort_, rtcpPort_) := getClientPorts range th in
    if ((rtpPort_ =? 0) || (rtcpPort_ =? 0))%Z then
      fails p ("transport header does not have valid client ports ("
               +:+ transportstr +:+ ")")
    else
      match setupRecordUdpLocked p c cl
              {| rtpPort := rtpPort_; rtcpPort := rtcpPort_ |} with
      | Panic => Panic
      | Ret (p', Some err) => Ret (p', (None, Some err))
      | Ret (p', None) =>
          Ret (p', (Some (response200
            (sessionHeaders cseq (udpTransport p' rtpPort_ rtcpPort_)) []), None))
      end
  else if bool_decide ("RTP/AVP/TCP" ∈ th) then
    (* record via TCP *)
    match setupRecordTcpLocked p c cl th with
    | Panic => Panic
    | Ret (p', _, Some err) => Ret (p', (None, Some err))
    | Ret (p', interleaved, None) =>
        Ret (p', (Some (response200
          (sessionHeaders cseq (tcpTransport interleaved)) []), None))
    end
  else
    fails p ("transport header does not contain a valid protocol (RTP/AVP or RTP/AVP/TCP) ("
             +:+ transportstr +:+ ")").

(** lines 455-701 *)
Definition caseSetup (p : program) (c : nat) (cl : client)
    (req : Request.t) (cseq path_ : string) : result (program * reply) :=
  match Request.Headers req !! "Transport" with
  | None => fails p "transport header missing"
  | Some transportstr =>
      let th := newTransportHeader transportstr in
      if negb (bool_decide ("unicast" ∈ th)) then
        fails p "transport header does not contain unicast"
      else if (state cl =? "STARTING") || (state cl =? "PRE_PLAY") then
        caseSetupPlay p c cl cseq path_ transportstr th
      else if (state cl =? "ANNOUNCE") || (state cl =? "PRE_RECORD") then
        caseSetupRecord p c cl cseq path_ transportstr th
      else
        fails p ("client is in state '" +:+ state cl +:+ "'")
  end.

Definition sessionReply (cseq : string) : Response.t :=
  response200 {[ "CSeq" := cseq; "Session" := "12345678" ]} [].

(** lines 703-738 *)
Definition casePlay (p : program) (cl : client) (cseq path_ : string)
    : result (program * reply) :=
  if negb (state cl =? "PRE_PLAY") then
    fails p ("client is in state '" +:+ state cl +:+ "'")
  else if negb (path_ =? path cl) then
    fails p "path has changed"
  else
    match p_publishers p !! path cl with
    | None => fails p ("no one is streaming on path '" +:+ path cl +:+ "'")
    | Some pub =>
        match p_mem p !! pub with
        | None => Panic
        | Some pcl =>
            match streamSdpParsed pcl with
            | None => Panic
            | Some m =>
                if negb (length (streamTracks cl) =? length (Medias m))%nat then
                  fails p "not all tracks have been setup"
                else
                  Ret (p, (Some (sessionReply cseq), Some errPlay))
            end
        end
    end.

(** lines 740-762 *)
Definition casePause (p : program) (c : nat) (cl : client)
    (cseq path_ : string) : result (program * reply) :=
  if negb (state cl =? "PLAY") then
    fails p ("client is in state '" +:+ state cl +:+ "'")
  else if negb (path_ =? path cl) then
    fails p "path has changed"
  else
    Ret (store p c (withState cl "PRE_PLAY"), (Some (sessionReply cseq), None)).

(** lines 764-794 *)
Definition caseRecord (p : program) (cl : client) (cseq path_ : string)
    : result (program * reply) :=
  if negb (state cl =? "PRE_RECORD") then
    fails p ("client is in state '" +:+ state cl +:+ "'")
  else if negb (path_ =? path cl) then
    fails p "path has changed"
  else
    match streamSdpParsed cl with
    | None => Panic
    | Some m =>
        if negb (length (streamTracks cl) =? length (Medias m))%nat then
          fails p "not all tracks have been setup"
        else
          Ret (p, (Some (sessionReply cseq), Some errRecord))
    end.

(** The method [c.handleRequest(req)]; [c] is the address of the client. *)
Definition handleRequest (p : program) (c : nat) (req : Request.t)
    : result (program * reply) :=
  match p_mem p !! c with
  | None => Panic
  | Some cl =>
      match Request.Headers req !! "CSeq" with
      | None => fails p "cseq missing"
      | Some cseq =>
          match url_Parse L (Request.Url req) with
          | None => fails p ("unable to parse path '" +:+ Request.Url req +:+ "'")
          | Some ur =>
              let path_ := requestPath (Path ur) in
              let method := Request.Method req in
              if method =? "OPTIONS" then caseOptions p cseq
              else if method =? "DESCRIBE" then caseDescribe p cl req cseq path_
              else if method =? "ANNOUNCE" then caseAnnounce p c cl req cseq ur path_
              else if method =? "SETUP" then caseSetup p c cl req cseq path_
              else if method =? "PLAY" then casePlay p cl cseq path_
              else if method =? "PAUSE" then casePause p c cl cseq path_
              else if method =? "RECORD" then caseRecord p cl cseq path_
              else if method =? "TEARDOWN" then Ret (p, (None, Some errTeardown))
              else fails p ("unhandled method '" +:+ method +:+ "'")
          end
      end
  end.
End Handler.

(** ** newClient and close (client.go, lines 95-132) *)

(** [newClient]: a fresh client object, in state STARTING, added to
    [p.clients]; the result is the program and the address of the client. *)
Definition newClient (p : program) : program * nat :=
  let c := fresh (dom (p_mem p)) in
  (setClients (store p c newClientValue) ({[c]} ∪ p_clients p), c).

(** [close] calls itself on the clients of the same path, so the embedding
    takes fuel: [None] is out of fuel.  [range] is the order in which the
    loop of line 124 visits [p.clients]; an entry deleted before the loop
    reaches it is not visited. *)
Fixpoint closeFuel (range : gset nat → list nat) (fuel : nat)
    (p : program) (c : nat) : option (result program) :=
  match fuel with
  | O => None
  | S fuel' =>
      (* already deleted *)
      if negb (bool_decide (c ∈ p_clients p)) then Some (Ret p)
      else
        match p_mem p !! c with
        | None => Some Panic
        | Some cl =>
            let p1 := setClients p (p_clients p ∖ {[c]}) in
            let p2 := store p1 c (withClosed cl) in
            if negb (path cl =? "") then
              match p_publishers p2 !! path cl with
              | Some pub =>
                  if (pub =? c)%nat then
                    let p3 := setPublishers p2 (delete (path cl) (p_publishers p2)) in
                    (* if the publisher has disconnected
                       close all other connections that share the same path *)
                    foldl
                      (λ acc oc,
                         match acc with
                         | Some (Ret q) =>
                             if bool_decide (oc ∈ p_clients q) then
                               match p_mem q !! oc with
                               | None => Some Panic
                               | Some ocl =>
                                   if path ocl =? path cl
                                   then closeFuel range fuel' q oc
                                   else Some (Ret q)
                               end
                             else Some (Ret q)
                         | _ => acc
                         end)
                      (Some (Ret p3)) (range (p_clients p3))
                  else Some (Ret p2)
              | None => Some (Ret p2)
              end
            else Some (Ret p2)
        end
  end.

(** A call of [close] nests at most once (see [closeFuel_enough]). *)
Definition close (range : gset nat → list nat) (p : program) (c : nat)
    : result program :=
  match closeFuel range 2 p c with
  | Some r => r
  | None => Panic
  end.

(** ** One turn of the loop of run (client.go, lines 152-295) *)

(** What a turn does that others can see, in the order it does it. *)
Inductive event :=
  | WriteResponse (c : nat) (res : Response.t)
  | SetState (c : nat) (st : string).

(** How the turn ends: the loop reads the next request, [run] returns, or
    the connection turns into a stream of interleaved frames (lines 202-213
    and 236-260), which ends with [run] returning. *)
Inductive control := Continue | Return | ReadLoop | FrameLoop.

Definition response400 (req : Request.t) : Response.t :=
  match Request.Headers req !! "CSeq" with
  | Some cseq => Response.mk 400 "Bad Request" {[ "CSeq" := cseq ]} []
  | None => Response.mk 400 "Bad Request" ∅ []
  end.

Definition response401 (req : Request.t) : Response.t :=
  Response.mk 401 "Unauthorized"
    {[ "CSeq" := default "" (Request.Headers req !! "CSeq") ]} [].

Section Run.
Context (L : libraries) (rangeTokens : gset string → list string)
        (rangeClients : gset nat → list nat).

(** After the response is written: set the state, then stay in the loop
    (UDP) or turn to frames (TCP). *)
Definition enterStream (p : program) (c : nat) (res : option Response.t)
    (writeOk : bool) (st : string) (frames : control)
    : result (program * list event * control) :=
  match res with
  | None => Panic
  | Some r =>
      if negb writeOk then Ret (p, [WriteResponse c r], Return)
      else
        match p_mem p !! c with
        | None => Panic
        | Some cl =>
            let p' := store p c (withState cl st) in
            Ret (p', [WriteResponse c r; SetState c st],
                 if bool_decide (streamProtocol cl = _STREAM_PROTOCOL_TCP)
                 then frames else Continue)
        end
  end.

(** The body of the loop once a request has been read; [writeOk] tells
    whether [WriteResponse] succeeds. *)
Definition serve (p : program) (c : nat) (req : Request.t) (writeOk : bool)
    : result (program * list event * control) :=
  match handleRequest L rangeTokens p c req with
  | Panic => Panic
  | Ret (p1, (res, err)) =>
      match err with
      (* normal response *)
      | None =>
          match res with
          | None => Panic
          | Some r =>
              Ret (p1, [WriteResponse c r], if writeOk then Continue else Return)
          end
      (* TEARDOWN: close connection silently *)
      | Some errTeardown => Ret (p1, [], Return)
      (* PLAY: first write response, then set state *)
      | Some errPlay => enterStream p1 c res writeOk "PLAY" ReadLoop
      (* RECORD: switch to RTP if TCP *)
      | Some errRecord => enterStream p1 c res writeOk "RECORD" FrameLoop
      (* wrong key: reply with 401 and exit *)
      | Some errWrongKey => Ret (p1, [WriteResponse c (response401 req)], Return)
      (* generic error: reply with code 400 and exit *)
      | Some (errorf _) => Ret (p1, [WriteResponse c (response400 req)], Return)
      end
  end.

(** A turn, with the deferred [c.close()] when [run] returns. *)
Definition turn (p : program) (c : nat) (req : Request.t) (writeOk : bool)
    : result (program * list event * control) :=
  match serve p c req writeOk with
  | Panic => Panic
  | Ret (p1, evs, Return) =>
      match close rangeClients p1 c with
      | Panic => Panic
      | Ret p2 => Ret (p2, evs, Return)
      end
  | Ret r => Ret r
  end.
End Run.

(** ** The frames of a publisher over TCP (client.go, lines 236-260) *)

(** What [c.rconn.ReadInterleavedFrame(buf)] gives an iteration of the loop:
    an error, or the channel of a frame and its payload [buf[:n]]. *)
Inductive frameRead :=
  | ReadError
  | ReadFrame (channel : Z) (payload : list Byte.byte).

(** How the iteration ends: [run] returns, or the payload goes to
    [c.p.forwardTrack(c.path, trackId, trackFlow, buf[:n])] and the loop reads
    the next frame. *)
Inductive frameOutcome :=
  | FrameReturn
  | ForwardTrack (path_ : string) (trackId : Z) (flow : trackFlow)
      (payload : list Byte.byte).

(** lines 239-258, for the client object [cl] of the publisher *)
Definition frameTurn (cl : client) (r : frameRead) : frameOutcome :=
  match r with
  | ReadError => FrameReturn
  | ReadFrame channel payload =>
      let '(trackId, flow) := interleavedChannelToTrack channel in
      if (Z.of_nat (length (streamTracks cl)) <=? trackId)%Z then FrameReturn
      else ForwardTrack (path cl) trackId flow payload
  end.

(** ** The server as a transition system *)

Definition initial (key : string) (rtp rtcp : Z) : program :=
  {| p_mem := ∅; p_clients := ∅; p_publishers := ∅; p_publishKey := key;
     p_rtpPort := rtp; p_rtcpPort := rtcp |}.

(** A connection is accepted, a client serves one request, or a client's
    [run] returns because its socket failed or was closed.  A turn is one
    step: the handler reads and writes the registry inside one region locked
    by [c.p.mutex], and outside it touches the fields of its own client
    only. *)
Inductive step (L : libraries) : program → program → Prop :=
  | step_accept p :
      step L p (newClient p).1
  | step_turn p c req writeOk rangeTokens rangeClients p' evs ctl :
      enumerates rangeTokens →
      enumerates rangeClients →
      turn L rangeTokens rangeClients p c req writeOk = Ret (p', evs, ctl) →
      step L p p'
  | step_return p c rangeClients p' :
      enumerates rangeClients →
      is_Some (p_mem p !! c) →
      close rangeClients p c = Ret p' →
      step L p p'.

Definition reachable (L : libraries) (p : program) : Prop :=
  ∃ key rtp rtcp, rtc (step L) (initial key rtp rtcp) p.

(** ** Predicates of the proofs *)

(** [close] of a client that is not the publisher of a non-empty path. *)
Definition closeOne (p : program) (c : nat) (cl : client) : program :=
  store (setClients p (p_clients p ∖ {[c]})) c (withClosed cl).

Definition pathIs (p : program) (x : nat) (pth : string) : Prop :=
  path <$> p_mem p !! x = Some pth.

(** [q'] is [q] with the clients of [D] out of [clients] and their sockets
    closed. *)
Record closedBy (D : gset nat) (q q' : program) : Prop := {
  closed_clients : p_clients q' = p_clients q ∖ D;
  closed_in : ∀ x, x ∈ D → p_mem q' !! x = withClosed <$> p_mem q !! x;
  closed_out : ∀ x, x ∉ D → p_mem q' !! x = p_mem q !! x;
  closed_publishers : p_publishers q' = p_publishers q;
  closed_key : p_publishKey q' = p_publishKey q;
  closed_rtp : p_rtpPort q' = p_rtpPort q;
  closed_rtcp : p_rtcpPort q' = p_rtcpPort q
}.

(** The body of the loop of line 124, once per client visited. *)
Definition visit (range : gset nat → list nat) (pth : string) (fuel : nat)
    (acc : option (result program)) (oc : nat) : option (result program) :=
  match acc with
  | Some (Ret q) =>
      if bool_decide (oc ∈ p_clients q) then
        match p_mem q !! oc with
        | None => Some Panic
        | Some ocl =>
            if path ocl =? pth then closeFuel range (S fuel) q oc
            else Some (Ret q)
        end
      else Some (Ret q)
  | _ => acc
  end.

Definition isPublisher (p : program) (c : nat) (cl : client) : Prop :=
  path cl ≠ "" ∧ p_publishers p !! path cl = Some c.

Global Instance isPublisher_dec p c cl : Decision (isPublisher p c cl).
Proof. unfold isPublisher. apply _. Defined.

(** The states of a publisher, and what holds of every reachable program. *)
Definition publishing (st : string) : Prop :=
  st = "ANNOUNCE" ∨ st = "PRE_RECORD" ∨ st = "RECORD".

Record Inv (p : program) : Prop := {
  inv_clients : ∀ c, c ∈ p_clients p → is_Some (p_mem p !! c);
  inv_closed : ∀ c cl, p_mem p !! c = Some cl → c ∉ p_clients p → rconnClosed cl = true;
  inv_publishers : ∀ pth c, p_publishers p !! pth = Some c →
    ∃ cl, p_mem p !! c = Some cl ∧ path cl = pth ∧
          is_Some (streamSdpParsed cl) ∧ publishing (state cl);
  inv_publishing : ∀ c cl, p_mem p !! c = Some cl → publishing (state cl) →
    is_Some (streamSdpParsed cl) ∧
    (c ∈ p_clients p → p_publishers p !! path cl = Some c)
}.

(** What a request can do to the program: nothing, a change of the client
    that keeps its role, or the ANNOUNCE that installs it as a publisher. *)
Definition localStep (cl cl' : client) : Prop :=
  rconnClosed cl' = rconnClosed cl ∧
  streamSdpParsed cl' = streamSdpParsed cl ∧
  (publishing (state cl') ↔ publishing (state cl)) ∧
  (publishing (state cl) → path cl' = path cl).

Inductive effect (p : program) (c : nat) : program → Prop :=
  | effect_none : effect p c p
  | effect_local cl cl' :
      p_mem p !! c = Some cl → localStep cl cl' → effect p c (store p c cl')
  | effect_announce cl cl' pth :
      p_mem p !! c = Some cl → ¬ publishing (state cl) →
      p_publishers p !! pth = None →
      rconnClosed cl' = rconnClosed cl → state cl' = "ANNOUNCE" →
      path cl' = pth → is_Some (streamSdpParsed cl') →
      effect p c (setPublishers (store p c cl') (<[pth := c]> (p_publishers p))).


(** The tokens [key=...] of a transport header. *)
Definition proposals (th : gset string) (key : string) : list string :=
  filter (λ t, strings_HasPrefix t (key +:+ "=") = true) (elements th).

(** The three conditions of PLAY. *)
Definition playReady (L : libraries) (p : program) (cl : client) (req : Request.t) : Prop :=
  state cl = "PRE_PLAY" ∧
  (∃ ur, url_Parse L (Request.Url req) = Some ur ∧ requestPath (Path ur) = path cl) ∧
  (∃ pub pcl m, p_publishers p !! path cl = Some pub ∧ p_mem p !! pub = Some pcl ∧
                streamSdpParsed pcl = Some m ∧
                length (streamTracks cl) = length (Medias m)).

(** ** Predicates of the further properties *)

(** Whether the byte [a] occurs in [s]. *)
Fixpoint hasByte (a : ascii) (s : string) : bool :=
  match s with
  | EmptyString => false
  | String b s' => Ascii.eqb b a || hasByte a s'
  end.

(** The track a SETUP appends: over UDP the two ports the client gave, both
    set; over TCP no ports. *)
Definition trackFor (proto : streamProtocolKind) (tr : track) : Prop :=
  match proto with
  | _STREAM_PROTOCOL_UDP => (0 < rtpPort tr < 2 ^ 63)%Z ∧ (0 < rtcpPort tr < 2 ^ 63)%Z
  | _STREAM_PROTOCOL_TCP => rtpPort tr = 0%Z ∧ rtcpPort tr = 0%Z
  end.

(** [pth] has a publisher, which announced the session description [m]. *)
Definition streamOn (p : program) (pth : string) (m : sdp_Message) : Prop :=
  ∃ pub pcl, p_publishers p !! pth = Some pub ∧ p_mem p !! pub = Some pcl ∧
             streamSdpParsed pcl = Some m.

(** The moves of a client [c], whose object is [cl], in one turn of [run]
    before the deferred [close]: nothing, ANNOUNCE, the SETUP of a reader and
    of a publisher, PLAY, PAUSE and RECORD. *)
Inductive move (p : program) (c : nat) (cl : client) : program → Prop :=
  | move_none : move p c cl p
  | move_announce pth text m :
      state cl = "STARTING" → p_publishers p !! pth = None →
      move p c cl
        (setPublishers
           (store p c
              {| state := "ANNOUNCE"; path := pth; streamSdpText := text;
                 streamSdpParsed := Some m; streamProtocol := streamProtocol cl;
                 streamTracks := streamTracks cl; rconnClosed := rconnClosed cl |})
           (<[pth := c]> (p_publishers p)))
  | move_setup_play pth proto tr m :
      state cl = "STARTING" ∨ state cl = "PRE_PLAY" →
      path cl = "" ∨ pth = path cl →
      streamOn p pth m →
      (length (streamTracks cl) < length (Medias m))%nat →
      streamTracks cl = [] ∨ streamProtocol cl = proto →
      trackFor proto tr →
      move p c cl (store p c (appendTrack cl "PRE_PLAY" pth proto tr))
  | move_setup_record proto tr m :
      state cl = "ANNOUNCE" ∨ state cl = "PRE_RECORD" →
      streamSdpParsed cl = Some m →
      (length (streamTracks cl) < length (Medias m))%nat →
      streamTracks cl = [] ∨ streamProtocol cl = proto →
      trackFor proto tr →
      move p c cl (store p c (appendTrack cl "PRE_RECORD" (path cl) proto tr))
  | move_play m :
      state cl = "PRE_PLAY" → streamOn p (path cl) m →
      length (streamTracks cl) = length (Medias m) →
      move p c cl (store p c (withState cl "PLAY"))
  | move_pause :
      state cl = "PLAY" →
      move p c cl (store p c (withState cl "PRE_PLAY"))
  | move_record m :
      state cl = "PRE_RECORD" → streamSdpParsed cl = Some m →
      length (streamTracks cl) = length (Medias m) →
      move p c cl (store p c (withState cl "RECORD")).

(** The states of a reader. *)
Definition reading (st : string) : Prop := st = "PRE_PLAY" ∨ st = "PLAY".

(** What the checks of SETUP, PLAY and RECORD keep true of the tracks of
    every client, and [close] of the sockets of [clients]. *)
Record Streams (p : program) : Prop := {
  st_states : ∀ c cl, p_mem p !! c = Some cl →
    state cl = "STARTING" ∨ publishing (state cl) ∨ reading (state cl);
  st_starting : ∀ c cl, p_mem p !! c = Some cl → state cl = "STARTING" →
    path cl = "" ∧ streamTracks cl = [] ∧ streamSdpParsed cl = None ∧
    streamSdpText cl = [];
  st_publisher : ∀ c cl, p_mem p !! c = Some cl → publishing (state cl) →
    ∃ m, streamSdpParsed cl = Some m ∧
         (length (streamTracks cl) ≤ length (Medias m))%nat ∧
         (state cl = "ANNOUNCE" → streamTracks cl = []) ∧
         (state cl = "PRE_RECORD" → streamTracks cl ≠ []) ∧
         (state cl = "RECORD" → length (streamTracks cl) = length (Medias m));
  st_reader : ∀ c cl, c ∈ p_clients p → p_mem p !! c = Some cl →
    reading (state cl) →
    ∃ m, streamOn p (path cl) m ∧ streamTracks cl ≠ [] ∧
         (length (streamTracks cl) ≤ length (Medias m))%nat ∧
         (state cl = "PLAY" → length (streamTracks cl) = length (Medias m));
  st_tracks : ∀ c cl tr, p_mem p !! c = Some cl → tr ∈ streamTracks cl →
    trackFor (streamProtocol cl) tr;
  st_open : ∀ c cl, c ∈ p_clients p → p_mem p !! c = Some cl →
    rconnClosed cl = false
}.

(** The answer to a DESCRIBE: the session description of the publisher. *)
Definition describeReply (req : Request.t) (cseq : string)
    (sdp : list Byte.byte) : Response.t :=
  Response.mk 200 "OK"
    {[ "CSeq" := cseq; "Content-Base" := Request.Url req;
       "Content-Type" := "application/sdp" ]} sdp.

(** The conditions of RECORD. *)
Definition recordReady (cl : client) (pth : string) : Prop :=
  state cl = "PRE_RECORD" ∧ pth = path cl ∧
  ∃ m, streamSdpParsed cl = Some m ∧ length (streamTracks cl) = length (Medias m).

(** The conditions under which the SETUP of a reader for the path [pth] over
    [proto] adds a track: the client has no path yet or [pth] is its path,
    its tracks if any are over [proto], and [pth] has a publisher, which
    announced more medias than the client has tracks. *)
Definition readerReady (p : program) (cl : client) (pth : string)
    (proto : streamProtocolKind) : Prop :=
  (path cl = "" ∨ pth = path cl) ∧
  (streamTracks cl = [] ∨ streamProtocol cl = proto) ∧
  ∃ m, streamOn p pth m ∧ (length (streamTracks cl) < length (Medias m))%nat.

(** The conditions under which the SETUP of a publisher for the path [pth]
    over [proto] adds a track: [pth] is the path of the client, its tracks if
    any are over [proto], and it announced more medias than it has tracks. *)
Definition publisherReady (cl : client) (pth : string)
    (proto : streamProtocolKind) : Prop :=
  pth = path cl ∧
  (streamTracks cl = [] ∨ streamProtocol cl = proto) ∧
  ∃ m, streamSdpParsed cl = Some m ∧
       (length (streamTracks cl) < length (Medias m))%nat.


(** ** Concrete libraries, requests and programs *)

(** The libraries on the inputs of the examples: they agree with net/url and
    gortc.io/sdp on URLs of the form [scheme://authority/path?query] without
    escapes, and on the two session descriptions used below. *)
Module Sample.

Definition cutAt (sep s : string) : string * option string :=
  match String.index 0 sep s with
  | Some n => (slice_to n s, Some (slice_from (n + len sep) s))
  | None => (s, None)
  end.

(** [url.Parse] on [scheme://authority/path?query] and on a plain
    relative path, without escapes or fragment. *)
Definition parseURL (u : string) : option URL :=
  let '(front, query) := cutAt "?" u in
  let path_ :=
    match cutAt "://" front with
    | (_, Some rest) =>
        match String.index 0 "/" rest with
        | Some n => slice_from n rest
        | None => ""
        end
    | (_, None) => front
    end in
  Some {| Path := path_; RawQuery := default "" query |}.

(** [url.ParseQuery] on [k=v&k=v] without escapes. *)
Definition parseQuery (q : string) : option (gmap string (list string)) :=
  Some (foldl
    (λ (m : gmap string (list string)) kv,
       if kv =? "" then m
       else
         let '(k, v) := cutAt "=" kv in
         <[k := app (default [] (m !! k)) [default "" v]]> m)
    ∅ (strings_Split q "&")).

Definition crlf : string := String "013" (String "010" "").

Definition dropCr (s : string) : string :=
  match cutAt (String "013" "") s with (front, _) => front end.

(** The two steps of the SDP decoder on well-formed text: the lines
    [x=value], of which the first is [v=], and a media per [m=] line. *)
Definition decodeSession (content : list Byte.byte) : string + sdp_Session :=
  let lines := filter (λ l, l ≠ "")
                 (dropCr <$> strings_Split (string_of_list_byte content) "010") in
  if forallb (λ l, String.prefix "=" (slice_from 1 l)) lines
  then inr lines else inl "sdp: bad line".

Definition decodeMessage (s : sdp_Session) : string + sdp_Message :=
  match s with
  | l :: _ =>
      if String.prefix "v=" l
      then inr {| Medias := Media <$> filter (λ l, String.prefix "m=" l = true) s |}
      else inl "sdp: no version"
  | [] => inl "sdp: empty session"
  end.

Definition libs : libraries :=
  {| url_Parse := parseURL; url_ParseQuery := parseQuery;
     sdp_DecodeSession := decodeSession; sdp_Decode := decodeMessage |}.

(** The order of [elements] for the loops over maps. *)
Definition inOrder `{Countable K} (X : gset K) : list K := elements X.

Definition oneMedia : list Byte.byte :=
  list_byte_of_string
    ("v=0" +:+ crlf +:+ "o=- 0 0 IN IP4 127.0.0.1" +:+ crlf +:+ "s=-" +:+ crlf
     +:+ "t=0 0" +:+ crlf +:+ "m=video 0 RTP/AVP 96" +:+ crlf).

Definition twoMedias : list Byte.byte :=
  list_byte_of_string
    ("v=0" +:+ crlf +:+ "o=- 0 0 IN IP4 127.0.0.1" +:+ crlf +:+ "s=-" +:+ crlf
     +:+ "t=0 0" +:+ crlf +:+ "m=video 0 RTP/AVP 96" +:+ crlf
     +:+ "m=audio 0 RTP/AVP 97" +:+ crlf).

Definition request (method url : string) (headers : list (string * string))
    (content : list Byte.byte) : Request.t :=
  Request.mk method url (list_to_map headers) content.

Definition announce (url : string) (content : list Byte.byte) : Request.t :=
  request "ANNOUNCE" url [("CSeq", "2"); ("Content-Type", "application/sdp")] content.

Definition setup (url transport : string) : Request.t :=
  request "SETUP" url [("CSeq", "3"); ("Transport", transport)] [].

(** One client connected, no publishing key. *)
Definition started : program := (newClient (initial "" 8000 8001)).1.

Definition programOf (r : result (program * list event * control)) : program :=
  match r with
  | Ret (p, _, _) => p
  | Panic => initial "" 0 0
  end.

(** The program after client [c] has served [req] and written its answer. *)
Definition after (p : program) (c : nat) (req : Request.t) : program :=
  programOf (turn libs inOrder inOrder p c req true).

Definition clientAt (p : program) (c : nat) : client :=
  default newClientValue (p_mem p !! c).

Definition camUrl : string := "rtsp://localhost:8554/cam".

(** Client 0 publishing on [cam], with one media and with two. *)
Definition announced : program := after started 0 (announce camUrl oneMedia).
Definition announcedTwo : program := after started 0 (announce camUrl twoMedias).

(** The publisher of two medias with its first track set up over TCP. *)
Definition firstTrack : program :=
  after announcedTwo 0
    (setup camUrl "RTP/AVP/TCP;unicast;mode=record;interleaved=0-1").

(** Two clients connected, the first publishing on [cam]. *)
Definition second : program := (newClient announced).1.


(** A publisher on the URL of the root, then a reader of the same URL. *)
Definition rootUrl : string := "rtsp://localhost:8554/".
Definition rootAnnounced : program := after started 0 (announce rootUrl oneMedia).
Definition rootRead : program :=
  after (newClient rootAnnounced).1 1
    (setup rootUrl "RTP/AVP;unicast;client_port=6000-6001").

(** A publisher of two medias on [cam] and a reader with one track set up,
    then with both. *)
Definition oneOfTwo : program :=
  after (newClient announcedTwo).1 1
    (setup camUrl "RTP/AVP;unicast;client_port=6000-6001").
Definition twoOfTwo : program :=
  after oneOfTwo 1 (setup camUrl "RTP/AVP;unicast;client_port=6002-6003").
Definition play : Request.t := request "PLAY" camUrl [("CSeq", "5")] [].
End Sample.

(** More requests and programs: a publisher that records over TCP, a reader
    that plays, and a reader over TCP. *)
Module Stream.

Definition camPath : URL := {| Path := "/cam"; RawQuery := "" |}.

Definition describe : Request.t :=
  Sample.request "DESCRIBE" Sample.camUrl [("CSeq", "2")] [].
Definition record : Request.t :=
  Sample.request "RECORD" Sample.camUrl [("CSeq", "4")] [].
Definition pause : Request.t :=
  Sample.request "PAUSE" Sample.camUrl [("CSeq", "6")] [].
Definition udpSetup : Request.t :=
  Sample.setup Sample.camUrl "RTP/AVP;unicast;client_port=6000-6001".
Definition udpRecordSetup : Request.t :=
  Sample.setup Sample.camUrl "RTP/AVP/UDP;unicast;mode=record;client_port=5000-5001".
Definition tcpSetup : Request.t :=
  Sample.setup Sample.camUrl "RTP/AVP/TCP;unicast;interleaved=0-1".
Definition noCSeq : Request.t := Sample.request "PLAY" Sample.camUrl [] [].

(** Two clients connected, none has asked anything. *)
Definition pair : program := (newClient Sample.started).1.
Definition pairAnnounced : program :=
  Sample.after pair 0 (Sample.announce Sample.camUrl Sample.oneMedia).

(** The publisher of one media with its track set up over TCP, then
    recording. *)
Definition tracked : program :=
  Sample.after Sample.announced 0
    (Sample.setup Sample.camUrl "RTP/AVP/TCP;unicast;mode=record;interleaved=0-1").
Definition recording : program := Sample.after tracked 0 record.

(** The publisher of two medias and a reader about to set up, and the reader
    with both tracks playing. *)
Definition joined : program := (newClient Sample.announcedTwo).1.
Definition playing : program := Sample.after Sample.twoOfTwo 1 Sample.play.

(** The session description the client [c] announced. *)
Definition mediasOf (p : program) (c : nat) : sdp_Message :=
  default {| Medias := [] |} (streamSdpParsed (Sample.clientAt p c)).

(** The program after [close] of [c]. *)
Definition closed (p : program) (c : nat) : program :=
  match close Sample.inOrder p c with
  | Ret q => q
  | Panic => p
  end.

(** The order of [elements], backwards. *)
Definition backwards `{Countable K} (X : gset K) : list K := reverse (elements X).
End Stream.

(** * Proofs *)

(** ** Strings and integers *)

Lemma wrap_int z : is_int z → wrap z = z.
Proof.
  unfold is_int, int_min, int_max, wrap. intros H.
  rewrite Z.mod_small; lia.
Qed.

Lemma substring_all s : String.substring 0 (String.length s) s = s.
Proof. induction s as [|a s IH]; simpl; [done | by rewrite IH]. Qed.


Lemma prefix_empty s : String.prefix "" s = true.
Proof. by destruct s. Qed.

Lemma append_cons a s1 s2 : String a s1 +:+ s2 = String a (s1 +:+ s2).
Proof. reflexivity. Qed.

Lemma append_length s1 s2 :
  String.length (s1 +:+ s2) = (String.length s1 + String.length s2)%nat.
Proof.
  induction s1 as [|a s1 IH]; [done|]. rewrite append_cons. simpl. by rewrite IH.
Qed.

Lemma append_assoc s1 s2 s3 : (s1 +:+ s2) +:+ s3 = s1 +:+ s2 +:+ s3.
Proof. induction s1 as [|a s1 IH]; [done|]. rewrite !append_cons. by rewrite IH. Qed.

Lemma substring_skip pre v :
  String.substring (String.length pre) (String.length v) (pre +:+ v) = v.
Proof.
  induction pre as [|a pre IH]; [apply substring_all|].
  rewrite append_cons. exact IH.
Qed.

Lemma slice_from_append pre v : slice_from (len pre) (pre +:+ v) = v.
Proof.
  unfold slice_from, len. rewrite append_length.
  replace (String.length pre + String.length v - String.length pre)%nat
    with (String.length v) by lia.
  apply substring_skip.
Qed.

(** ** The path of a request *)

Lemma cut_index s :
  (let n := strings_Index s "/" in
   if (0 <=? n)%Z then slice_to (Z.to_nat n) s else s) = cutAtSlash s.
Proof.
  induction s as [|a s IH]; [done|].
  unfold strings_Index in *. cbn [String.index cutAtSlash].
  cbn [String.prefix]. rewrite prefix_empty.
  destruct (Ascii.eqb_spec a "/") as [->|Hne].
  - destruct (ascii_dec "/" "/"); [done | congruence].
  - destruct (ascii_dec "/" a) as [Heq|_]; [congruence|].
    destruct (String.index 0 "/" s) as [n|] eqn:Hi.
    + cbn zeta in IH.
      assert (H1 : (0 <=? Z.of_nat n)%Z = true) by (apply Z.leb_le; lia).
      assert (H2 : (0 <=? Z.of_nat (S n))%Z = true) by (apply Z.leb_le; lia).
      rewrite H1 in IH. rewrite H2.
      rewrite Nat2Z.id in *. unfold slice_to in *. simpl. by rewrite IH.
    + cbn in *. by rewrite <- IH.
Qed.


(** Without a leading ['/'] the first byte is dropped all the same. *)
Example first_byte_dropped_without_slash :
  requestPath "cam/x" = "am" ∧ specPath "cam/x" = "cam".
Proof. done. Qed.

(** ** The transport header *)

Lemma firstWithPrefix_filter pre l :
  firstWithPrefix pre l =
    match filter (λ t, strings_HasPrefix t pre = true) l with
    | [] => ""
    | t :: _ => slice_from (len pre) t
    end.
Proof.
  induction l as [|t l IH]; [done|]. cbn [firstWithPrefix].
  rewrite filter_cons. destruct (strings_HasPrefix t pre) eqn:Ht.
  - by rewrite decide_True.
  - by rewrite decide_False.
Qed.

Lemma enumerates_elem `{Countable K} (range : gset K → list K) X x :
  enumerates range → x ∈ range X ↔ x ∈ X.
Proof. intros Hr. rewrite (Hr X). apply elem_of_elements. Qed.

Lemma enumerates_NoDup `{Countable K} (range : gset K → list K) X :
  enumerates range → NoDup (range X).
Proof. intros Hr. rewrite (Hr X). apply NoDup_elements. Qed.


Lemma getKeyValue_proposed range th key v :
  enumerates range → proposals th key = [key +:+ "=" +:+ v] →
  getKeyValue range th key = v.
Proof.
  intros Hr Hp. unfold getKeyValue. rewrite firstWithPrefix_filter.
  assert (Hperm : filter (λ t, strings_HasPrefix t (key +:+ "=") = true) (range th)
                    ≡ₚ [key +:+ "=" +:+ v])
    by (rewrite (Hr th); unfold proposals in Hp; by rewrite Hp).
  apply Permutation_singleton_r in Hperm. rewrite Hperm.
  rewrite <- (slice_from_append (key +:+ "=") v) at 2.
  by rewrite append_assoc.
Qed.

(** ** The interleaved channel mapping *)

Lemma trackTo_spec i f : (0 ≤ i < 2 ^ 62)%Z →
  trackToInterleavedChannel i f = (if decide (f = _TRACK_FLOW_RTP) then 2 * i else 2 * i + 1)%Z.
Proof.
  intros Hi. unfold trackToInterleavedChannel, int_add, int_mul.
  case_decide; rewrite !wrap_int; unfold is_int, int_min, int_max; try lia.
  rewrite wrap_int; unfold is_int, int_min, int_max; lia.
Qed.

Ltac int_range := unfold is_int, int_min, int_max; Z.quot_rem_to_equations; lia.

Lemma channelToTrack_trackToChannel i f : (0 ≤ i < 2 ^ 62)%Z →
  interleavedChannelToTrack (trackToInterleavedChannel i f) = (i, f).
Proof.
  intros Hi. rewrite trackTo_spec by done.
  unfold interleavedChannelToTrack, int_rem, int_div, int_sub.
  destruct f; simpl.
  - destruct (Z.eqb_spec (Z.rem (2 * i) 2) 0) as [_|H]; [|int_range].
    rewrite wrap_int by int_range. f_equal. int_range.
  - destruct (Z.eqb_spec (Z.rem (2 * i + 1) 2) 0) as [H|_]; [int_range|].
    rewrite (wrap_int (2 * i + 1 - 1)) by int_range.
    rewrite wrap_int by int_range. f_equal. int_range.
Qed.

Lemma trackToChannel_channelToTrack c : (0 ≤ c ≤ int_max)%Z →
  (0 ≤ (interleavedChannelToTrack c).1 < 2 ^ 62)%Z ∧
  trackToInterleavedChannel (interleavedChannelToTrack c).1 (interleavedChannelToTrack c).2 = c.
Proof.
  unfold int_max. intros Hc. unfold interleavedChannelToTrack, int_rem, int_div, int_sub.
  destruct (Z.eqb_spec (Z.rem c 2) 0) as [H0|H0]; cbn [fst snd].
  - rewrite wrap_int by int_range.
    split; [int_range|]. rewrite trackTo_spec by int_range. simpl. int_range.
  - rewrite (wrap_int (c - 1)) by int_range.
    rewrite wrap_int by int_range.
    split; [int_range|]. rewrite trackTo_spec by int_range. simpl. int_range.
Qed.

(** C9, within the range of [int]: for a track index [i] with
    [0 <= i < 2^62] and a flow [f], [trackToInterleavedChannel] maps
    [(i, RTP)] to [2i] and [(i, RTCP)] to [2i+1], a channel between [0] and
    the greatest [int], and [interleavedChannelToTrack] applied to that
    channel returns [(i, f)]; for a channel [c] between [0] and the greatest
    [int], decoding gives a track index below [2^62] and encoding the decoded
    pair returns [c]. *)
Theorem channel_mapping_bijection (i c : Z) (f : trackFlow) :
  (0 ≤ i < 2 ^ 62)%Z → (0 ≤ c ≤ int_max)%Z →
  trackToInterleavedChannel i _TRACK_FLOW_RTP = (2 * i)%Z ∧
  trackToInterleavedChannel i _TRACK_FLOW_RTCP = (2 * i + 1)%Z ∧
  (0 ≤ trackToInterleavedChannel i f ≤ int_max)%Z ∧
  interleavedChannelToTrack (trackToInterleavedChannel i f) = (i, f) ∧
  (0 ≤ (interleavedChannelToTrack c).1 < 2 ^ 62)%Z ∧
  trackToInterleavedChannel (interleavedChannelToTrack c).1
    (interleavedChannelToTrack c).2 = c.
Proof.
  intros Hi Hc. split; [by rewrite trackTo_spec|]. split; [by rewrite trackTo_spec|].
  split; [rewrite trackTo_spec by done; unfold int_max; case_decide; lia|].
  split; [by apply channelToTrack_trackToChannel|]. by apply trackToChannel_channelToTrack.
Qed.

Lemma channel_mapping_bijection_witness :
  ((0 ≤ 1 < 2 ^ 62)%Z ∧ (0 ≤ 3 ≤ int_max)%Z) ∧
  trackToInterleavedChannel 1 _TRACK_FLOW_RTCP = 3%Z ∧
  interleavedChannelToTrack 3 = (1%Z, _TRACK_FLOW_RTCP).
Proof.
  assert (H1 : (0 ≤ 1 < 2 ^ 62)%Z) by lia.
  assert (H3 : (0 ≤ 3 ≤ int_max)%Z) by (unfold int_max; lia).
  pose proof (channel_mapping_bijection 1 3 _TRACK_FLOW_RTCP H1 H3) as (_ & He & _ & Hd & _).
  split; [done|]. split; [exact He|]. rewrite He in Hd. exact Hd.
Defined.

(** C9 as stated fails at the track index [2^62], a non-negative [int]:
    [2^62 * 2] wraps around to the least [int], which is not [2 * 2^62] and
    decodes to the track [-2^62]. *)
Lemma channel_mapping_overflow :
  (0 ≤ 2 ^ 62 ≤ int_max)%Z ∧
  trackToInterleavedChannel (2 ^ 62) _TRACK_FLOW_RTP = int_min ∧
  trackToInterleavedChannel (2 ^ 62) _TRACK_FLOW_RTP ≠ (2 * 2 ^ 62)%Z ∧
  interleavedChannelToTrack (trackToInterleavedChannel (2 ^ 62) _TRACK_FLOW_RTP)
    ≠ ((2 ^ 62)%Z, _TRACK_FLOW_RTP).
Proof.
  split; [unfold int_max; lia|]. split; [by vm_compute|].
  split; [by vm_compute|]. by vm_compute.
Qed.

(** ** close *)

Lemma closedBy_empty q : closedBy ∅ q q.
Proof. split; try done. set_solver. Qed.

Lemma closedBy_one p c cl :
  p_mem p !! c = Some cl → closedBy {[c]} p (closeOne p c cl).
Proof.
  intros Hc. split; try done.
  - intros x ->%elem_of_singleton. cbn. by rewrite lookup_insert_eq, Hc.
  - intros x Hx. cbn. rewrite lookup_insert_ne; [done | set_solver].
Qed.

Lemma closedBy_trans D1 D2 q1 q2 q3 :
  D1 ## D2 → closedBy D1 q1 q2 → closedBy D2 q2 q3 → closedBy (D1 ∪ D2) q1 q3.
Proof.
  intros Hd [Hc1 Hi1 Ho1 Hp1 Hk1 Hr1 Hs1] [Hc2 Hi2 Ho2 Hp2 Hk2 Hr2 Hs2].
  split; try congruence.
  - set_solver.
  - intros x [Hx|Hx]%elem_of_union.
    + rewrite Ho2 by set_solver. auto.
    + rewrite Hi2 by done. rewrite Ho1 by set_solver. done.
  - intros x Hx. rewrite Ho2, Ho1; set_solver.
Qed.

Lemma closedBy_lookup D q q' x xl' :
  closedBy D q q' → p_mem q' !! x = Some xl' →
  ∃ xl, p_mem q !! x = Some xl ∧
        state xl' = state xl ∧ path xl' = path xl ∧
        streamSdpParsed xl' = streamSdpParsed xl ∧
        (x ∈ D → rconnClosed xl' = true) ∧ (x ∉ D → xl' = xl).
Proof.
  intros [_ Hi Ho _ _ _ _] Hx. destruct (decide (x ∈ D)) as [Hd|Hd].
  - rewrite Hi in Hx by done. destruct (p_mem q !! x) as [xl|]; [|done].
    cbn in Hx. simplify_eq. exists xl. repeat split; try done.
  - rewrite Ho in Hx by done. exists xl'. repeat split; done.
Qed.

Lemma closedBy_lookup_rev D q q' x xl :
  closedBy D q q' → p_mem q !! x = Some xl →
  ∃ xl', p_mem q' !! x = Some xl' ∧
        state xl' = state xl ∧ path xl' = path xl ∧
        streamSdpParsed xl' = streamSdpParsed xl.
Proof.
  intros [_ Hi Ho _ _ _ _] Hx. destruct (decide (x ∈ D)) as [Hd|Hd].
  - exists (withClosed xl). rewrite Hi, Hx by done. done.
  - exists xl. rewrite Ho, Hx by done. done.
Qed.

Lemma closeFuel_plain range fuel p c cl :
  c ∈ p_clients p → p_mem p !! c = Some cl →
  path cl = "" ∨ p_publishers p !! path cl ≠ Some c →
  closeFuel range (S fuel) p c = Some (Ret (closeOne p c cl)).
Proof.
  intros Hin Hc Hp. cbn [closeFuel].
  rewrite bool_decide_eq_true_2 by done. cbn [negb]. rewrite Hc.
  destruct (String.eqb_spec (path cl) "") as [He|He]; [done|]. cbn [negb].
  destruct Hp as [?|Hp]; [done|]. cbn [store setClients setMem p_publishers].
  destruct (p_publishers p !! path cl) as [pub|] eqn:Hpub; [|done].
  destruct (Nat.eqb_spec pub c) as [->|?]; [done|]. done.
Qed.

Lemma closeFuel_absent range fuel p c :
  c ∉ p_clients p → closeFuel range (S fuel) p c = Some (Ret p).
Proof. intros Hin. cbn [closeFuel]. by rewrite bool_decide_eq_false_2. Qed.

Lemma visit_fuel range pth n q oc :
  pth ≠ "" → p_publishers q !! pth = None →
  visit range pth n (Some (Ret q)) oc = visit range pth 0 (Some (Ret q)) oc ∧
  visit range pth 0 (Some (Ret q)) oc ≠ None ∧
  ∀ q', visit range pth 0 (Some (Ret q)) oc = Some (Ret q') →
        p_publishers q' !! pth = None.
Proof.
  intros Hne Hpub. unfold visit.
  case_bool_decide as Hin; [|by split; [|split; [|intros ? [= <-]]]].
  destruct (p_mem q !! oc) as [ocl|] eqn:Hoc; [|done].
  destruct (String.eqb_spec (path ocl) pth) as [Hp|Hp];
    [|by split; [|split; [|intros ? [= <-]]]].
  rewrite !(closeFuel_plain _ _ _ _ ocl) by (try done; right; congruence).
  split; [done|]. split; [done|]. by intros ? [= <-].
Qed.

Lemma cascade_fuel range pth n l : ∀ acc,
  pth ≠ "" → acc ≠ None →
  (∀ q, acc = Some (Ret q) → p_publishers q !! pth = None) →
  foldl (visit range pth n) acc l = foldl (visit range pth 0) acc l ∧
  foldl (visit range pth 0) acc l ≠ None.
Proof.
  induction l as [|oc l IH]; intros acc Hne Hsome Hacc; [done|]. cbn [foldl].
  destruct acc as [[q|]|]; [| |done].
  - destruct (visit_fuel range pth n q oc Hne (Hacc q eq_refl)) as (-> & Hs & Hnext).
    apply IH; [done..|]. intros q' Hq'. by apply Hnext.
  - apply IH; [done..|]. intros q' Hq'. done.
Qed.

Lemma closeFuel_unfold range k p c :
  closeFuel range (S (S k)) p c =
    if negb (bool_decide (c ∈ p_clients p)) then Some (Ret p)
    else
      match p_mem p !! c with
      | None => Some Panic
      | Some cl =>
          let p2 := closeOne p c cl in
          if negb (path cl =? "") then
            match p_publishers p2 !! path cl with
            | Some pub =>
                if (pub =? c)%nat then
                  foldl (visit range (path cl) k)
                    (Some (Ret (setPublishers p2 (delete (path cl) (p_publishers p2)))))
                    (range (p_clients p2))
                else Some (Ret p2)
            | None => Some (Ret p2)
            end
          else Some (Ret p2)
      end.
Proof. reflexivity. Qed.

(** Fuel 2 is enough on every program: the nested call never nests. *)
Lemma closeFuel_enough range p c n :
  closeFuel range (S (S n)) p c = closeFuel range 2 p c ∧
  closeFuel range 2 p c ≠ None.
Proof.
  rewrite !closeFuel_unfold.
  destruct (bool_decide (c ∈ p_clients p)); [|done]. cbn [negb].
  destruct (p_mem p !! c) as [cl|] eqn:Hc; [|done]. cbn zeta.
  destruct (String.eqb_spec (path cl) "") as [He|He]; [done|]. cbn [negb].
  destruct (p_publishers _ !! path cl) as [pub|]; [|done].
  destruct (pub =? c)%nat; [|done].
  apply cascade_fuel; [done..|].
  intros q [= <-]. cbn. apply lookup_delete_eq.
Qed.

Section Cascade.
Context (range : gset nat → list nat) (pth : string).
Hypothesis pth_set : pth ≠ "".

Lemma cascade_loop l : ∀ q,
  NoDup l →
  p_publishers q !! pth = None →
  (∀ x, x ∈ p_clients q → is_Some (p_mem q !! x)) →
  ∃ q' D, (∀ fuel, foldl (visit range pth fuel) (Some (Ret q)) l = Some (Ret q')) ∧
    closedBy D q q' ∧
    (∀ x, x ∈ D ↔ x ∈ l ∧ x ∈ p_clients q ∧ pathIs q x pth).
Proof.
  induction l as [|a l IH]; intros q Hnd Hpub Hmem.
  - exists q, ∅. split; [done|]. split; [apply closedBy_empty|]. set_solver.
  - apply NoDup_cons in Hnd as [Ha Hnd]. cbn [foldl].
    assert (∃ q1 D1, (∀ fuel, visit range pth fuel (Some (Ret q)) a = Some (Ret q1)) ∧
              closedBy D1 q q1 ∧
              (∀ x, x ∈ D1 ↔ x = a ∧ x ∈ p_clients q ∧ pathIs q x pth))
      as (q1 & D1 & Hv & Hc1 & HD1).
    { unfold visit. case_bool_decide as Hin.
      - destruct (Hmem a Hin) as [ocl Hocl]. rewrite Hocl.
        destruct (String.eqb_spec (path ocl) pth) as [Hp|Hp].
        + exists (closeOne q a ocl), {[a]}.
          split; [intros fuel; apply closeFuel_plain; try done; right; congruence|].
          split; [by apply closedBy_one|].
          intros x. rewrite elem_of_singleton. unfold pathIs. split.
          * intros ->. rewrite Hocl. cbn. by rewrite Hp.
          * tauto.
        + exists q, ∅. split; [done|]. split; [apply closedBy_empty|].
          intros x. split; [set_solver|]. unfold pathIs.
          intros (-> & _ & Hx). rewrite Hocl in Hx. cbn in Hx. congruence.
      - exists q, ∅. split; [done|]. split; [apply closedBy_empty|]. set_solver. }
    destruct (IH q1) as (q' & D & Hf & Hc & HD); [done| | |].
    { destruct Hc1. congruence. }
    { intros x Hx. destruct Hc1 as [Hcl Hi Ho]. rewrite Hcl in Hx.
      destruct (decide (x ∈ D1)).
      - rewrite Hi by done. apply fmap_is_Some, Hmem. set_solver.
      - rewrite Ho by done. apply Hmem. set_solver. }
    assert (Hpath : ∀ x, pathIs q1 x pth ↔ pathIs q x pth).
    { intros x. unfold pathIs. destruct Hc1 as [_ Hi Ho].
      destruct (decide (x ∈ D1)).
      - rewrite Hi by done. by destruct (p_mem q !! x).
      - by rewrite Ho. }
    exists q', (D1 ∪ D). split; [intros fuel; rewrite Hv; apply Hf|]. split.
    + eapply closedBy_trans; [|done..].
      intros x Hx1 Hx. apply HD1 in Hx1 as [-> _]. apply HD in Hx as [Hx _]. done.
    + intros x. rewrite elem_of_union, HD1, HD, Hpath, elem_of_cons.
      destruct Hc1 as [Hcl _ _]. rewrite Hcl. split.
      * intros [(-> & ? & ?)|(? & ? & ?)]; set_solver.
      * intros ([->|?] & ? & ?); [by left|].
        destruct (decide (x = a)) as [->|]; [by left|]. right. set_solver.
Qed.
End Cascade.

Lemma close_total range p c cl :
  enumerates range →
  (∀ x, x ∈ p_clients p → is_Some (p_mem p !! x)) →
  p_mem p !! c = Some cl → c ∈ p_clients p →
  ∃ p' D, (∀ n, closeFuel range (S (S n)) p c = Some (Ret p')) ∧
    closedBy ({[c]} ∪ D) (setPublishers p (p_publishers p')) p' ∧ (c ∉ D) ∧
    (isPublisher p c cl ∧ p_publishers p' = delete (path cl) (p_publishers p) ∧
       (∀ x, x ∈ D ↔ x ∈ p_clients p ∧ x ≠ c ∧ pathIs p x (path cl))
     ∨ (¬ isPublisher p c cl) ∧ p_publishers p' = p_publishers p ∧ D = ∅).
Proof.
  intros Hr Hmem Hc Hin.
  destruct (decide (isPublisher p c cl)) as [[Hne Hpub]|Hno].
  - set (p3 := setPublishers (closeOne p c cl) (delete (path cl) (p_publishers p))).
    destruct (cascade_loop range (path cl) Hne (range (p_clients p3)) p3)
      as (q' & D & Hf & Hcl & HD).
    { by apply enumerates_NoDup. }
    { cbn. apply lookup_delete_eq. }
    { intros x Hx. cbn in Hx. cbn. rewrite lookup_insert_ne by set_solver.
      apply Hmem. set_solver. }
    assert (HD' : ∀ x, x ∈ D ↔ x ∈ p_clients p ∧ x ≠ c ∧ pathIs p x (path cl)).
    { intros x. rewrite HD, (enumerates_elem range) by done. cbn.
      unfold pathIs. cbn. split.
      - intros (H1 & _ & H2). rewrite lookup_insert_ne in H2 by set_solver. set_solver.
      - intros (? & ? & ?). rewrite lookup_insert_ne by done. set_solver. }
    exists q', D. split; [|split; [|split]].
    + intros n. cbn [closeFuel].
      rewrite bool_decide_eq_true_2 by done. cbn [negb]. rewrite Hc.
      destruct (String.eqb_spec (path cl) "") as [He|He]; [done|]. cbn [negb].
      cbn [store setClients setMem p_publishers]. rewrite Hpub, Nat.eqb_refl.
      apply Hf.
    + assert (Hpubs : p_publishers q' = p_publishers p3) by apply Hcl.
      rewrite Hpubs.
      eapply closedBy_trans; [| |exact Hcl].
      * intros x ->%elem_of_singleton Hx. apply HD' in Hx. tauto.
      * apply (closedBy_one (setPublishers p (p_publishers p3)) c cl Hc).
    + intros Hx. apply HD' in Hx. tauto.
    + left. split; [done|]. split; [|done]. by destruct Hcl as [_ _ _ -> _ _ _].
  - exists (closeOne p c cl), ∅. split; [|split; [|split]].
    + intros n. apply closeFuel_plain; [done..|].
      unfold isPublisher in Hno. destruct (decide (path cl = "")); [by left|right].
      intros ?. tauto.
    + rewrite (right_id_L ∅ (∪)). by apply (closedBy_one (setPublishers p _) c cl).
    + set_solver.
    + right. done.
Qed.

(** ** What a request does to the program *)

Ltac unfold_handler :=
  unfold handleRequest, caseOptions, caseDescribe, caseAnnounce, caseSetup,
    caseSetupPlay, caseSetupRecord, casePlay, casePause, caseRecord,
    setupPlayLocked, setupRecordUdpLocked, setupRecordTcpLocked,
    checkPublishKey, fails in *.

Ltac eqb_hyps :=
  repeat match goal with
  | H : (_ =? _)%string = true |- _ => apply String.eqb_eq in H
  | H : (_ =? _)%string = false |- _ => apply String.eqb_neq in H
  | H : negb _ = true |- _ => apply negb_true_iff in H
  | H : negb _ = false |- _ => apply negb_false_iff in H
  | H : (_ || _) = true |- _ => apply orb_true_iff in H
  | H : (_ || _) = false |- _ => apply orb_false_iff in H as [? ?]
  | H : (_ && _) = false |- _ => apply andb_false_iff in H
  | H : (_ && _) = true |- _ => apply andb_true_iff in H as [? ?]
  end.

Lemma not_publishing st :
  st = "STARTING" ∨ st = "PRE_PLAY" ∨ st = "PLAY" → ¬ publishing st.
Proof. unfold publishing. intros [-> | [-> | ->]] [H | [H | H]]; discriminate. Qed.

Lemma handleRequest_error L range p c req p' res e :
  handleRequest L range p c req = Ret (p', (res, Some e)) →
  p' = p ∧ (e = errPlay ∨ e = errRecord ↔ is_Some res).
Proof.
  unfold_handler. intros H.
  repeat case_match; simplify_eq; split; try done.
  all: split; [intros [?|?]; try done; eauto | intros [? ?]; try done; eauto].
Qed.

Lemma handleRequest_sentinel L range p c req p' res e cl :
  handleRequest L range p c req = Ret (p', (res, Some e)) →
  p_mem p !! c = Some cl →
  (e = errPlay → state cl = "PRE_PLAY") ∧ (e = errRecord → state cl = "PRE_RECORD").
Proof.
  unfold_handler. intros H Hc. rewrite Hc in H.
  repeat case_match; simplify_eq; eqb_hyps; done.
Qed.

Lemma handleRequest_effect L range p c req p' r :
  handleRequest L range p c req = Ret (p', r) → effect p c p'.
Proof.
  unfold_handler. intros H.
  repeat case_match; simplify_eq; eqb_hyps; try apply effect_none.
  all: try (eapply effect_announce; eauto using not_publishing; done).
  all: eapply effect_local; [done|].
  all: unfold localStep, appendTrack, withState; cbn.
  all: repeat split; try done.
  all: try (intros HH; exfalso; revert HH; apply not_publishing; eauto; fail).
  all: try (intros HH; exfalso; eapply not_publishing; [|apply HH]; intuition eauto; fail).
  all: unfold publishing; try (intuition eauto; fail).
  all: repeat match goal with H : _ ∨ _ |- _ => destruct H end; eqb_hyps.
  all: intuition (congruence || eauto).
Qed.

Lemma serve_effect L range p c req writeOk p' evs ctl :
  serve L range p c req writeOk = Ret (p', evs, ctl) → effect p c p'.
Proof.
  unfold serve, enterStream. intros H.
  destruct (handleRequest L range p c req) as [[p1 [res err]]|] eqn:Hh; [|done].
  destruct err as [e|].
  - destruct (handleRequest_error _ _ _ _ _ _ _ _ Hh) as [-> _].
    destruct (p_mem p !! c) as [cl|] eqn:Hc.
    2:{ repeat case_match; simplify_eq; apply effect_none. }
    destruct (handleRequest_sentinel _ _ _ _ _ _ _ _ _ Hh Hc) as [Hplay Hrec].
    repeat case_match; simplify_eq; try apply effect_none.
    all: eapply effect_local; [done|]; unfold localStep, publishing; cbn.
    all: first [rewrite Hplay by done | rewrite Hrec by done]; naive_solver.
  - apply handleRequest_effect in Hh. repeat case_match; simplify_eq; done.
Qed.

Lemma serve_generic L range p c req msg writeOk :
  handleRequest L range p c req = fails p msg →
  serve L range p c req writeOk = Ret (p, [WriteResponse c (response400 req)], Return).
Proof. intros H. unfold serve. by rewrite H. Qed.

Section Dispatch.
Context (L : libraries) (range : gset string → list string).
Context (p : program) (c : nat) (cl : client) (req : Request.t).
Context (cseq : string) (ur : URL).
Hypothesis Hc : p_mem p !! c = Some cl.
Hypothesis Hcseq : Request.Headers req !! "CSeq" = Some cseq.
Hypothesis Hur : url_Parse L (Request.Url req) = Some ur.



Lemma handle_SETUP : Request.Method req = "SETUP" →
  handleRequest L range p c req = caseSetup range p c cl req cseq (requestPath (Path ur)).
Proof. intros Hm. unfold handleRequest. by rewrite Hc, Hcseq, Hur, Hm. Qed.

Lemma handle_PLAY : Request.Method req = "PLAY" →
  handleRequest L range p c req = casePlay p cl cseq (requestPath (Path ur)).
Proof. intros Hm. unfold handleRequest. by rewrite Hc, Hcseq, Hur, Hm. Qed.

Lemma handle_TEARDOWN : Request.Method req = "TEARDOWN" →
  handleRequest L range p c req = Ret (p, (None, Some errTeardown)).
Proof. intros Hm. unfold handleRequest. by rewrite Hc, Hcseq, Hur, Hm. Qed.
End Dispatch.

Lemma handle_no_cseq L range p c cl req :
  p_mem p !! c = Some cl → Request.Headers req !! "CSeq" = None →
  handleRequest L range p c req = fails p "cseq missing".
Proof. intros Hc Hn. unfold handleRequest. by rewrite Hc, Hn. Qed.

Lemma handle_no_url L range p c cl req cseq :
  p_mem p !! c = Some cl → Request.Headers req !! "CSeq" = Some cseq →
  url_Parse L (Request.Url req) = None →
  handleRequest L range p c req =
    fails p ("unable to parse path '" +:+ Request.Url req +:+ "'").
Proof. intros Hc Hs Hn. unfold handleRequest. by rewrite Hc, Hs, Hn. Qed.



Lemma casePlay_cases p cl cseq pth :
  Inv p →
  (state cl = "PRE_PLAY" ∧ pth = path cl ∧
   (∃ pub pcl m, p_publishers p !! path cl = Some pub ∧ p_mem p !! pub = Some pcl ∧
                 streamSdpParsed pcl = Some m ∧
                 length (streamTracks cl) = length (Medias m)) ∧
   casePlay p cl cseq pth = Ret (p, (Some (sessionReply cseq), Some errPlay)))
  ∨
  (¬ (state cl = "PRE_PLAY" ∧ pth = path cl ∧
      ∃ pub pcl m, p_publishers p !! path cl = Some pub ∧ p_mem p !! pub = Some pcl ∧
                   streamSdpParsed pcl = Some m ∧
                   length (streamTracks cl) = length (Medias m)) ∧
   ∃ msg, casePlay p cl cseq pth = fails p msg).
Proof.
  intros HI. unfold casePlay.
  destruct (String.eqb_spec (state cl) "PRE_PLAY") as [Hst|Hst]; cbn [negb];
    [|right; split; [tauto | by eexists]].
  destruct (String.eqb_spec pth (path cl)) as [Hp|Hp]; cbn [negb];
    [|right; split; [tauto | by eexists]].
  destruct (p_publishers p !! path cl) as [pub|] eqn:Hpub;
    [|right; split; [by intros (_ & _ & ? & ? & ? & ? & _) | by eexists]].
  destruct (inv_publishers _ HI _ _ Hpub) as (pcl & Hpcl & _ & [m Hm] & _).
  rewrite Hpcl, Hm.
  destruct (Nat.eqb_spec (length (streamTracks cl)) (length (Medias m))) as [Hl|Hl];
    cbn [negb].
  - left. eauto 10.
  - right. split; [|by eexists].
    intros (_ & _ & pub' & pcl' & m' & ? & ? & ? & ?). simplify_eq.
Qed.

(** A publisher's SETUP whose transport header has neither RTP/AVP/UDP nor
    RTP/AVP/TCP is refused, whether it has RTP/AVP or not. *)
Lemma publisher_setup_needs_udp_or_tcp L range p c cl req cseq ur ts :
  p_mem p !! c = Some cl →
  Request.Headers req !! "CSeq" = Some cseq →
  url_Parse L (Request.Url req) = Some ur →
  Request.Method req = "SETUP" →
  Request.Headers req !! "Transport" = Some ts →
  state cl = "ANNOUNCE" ∨ state cl = "PRE_RECORD" →
  "RTP/AVP/UDP" ∉ newTransportHeader ts →
  "RTP/AVP/TCP" ∉ newTransportHeader ts →
  ∃ msg, handleRequest L range p c req = fails p msg.
Proof.
  intros Hc Hs Hur Hm Ht Hst Hudp Htcp.
  rewrite (handle_SETUP L range p c cl req cseq ur) by done.
  unfold caseSetup, caseSetupRecord. rewrite Ht.
  replace ((state cl =? "STARTING") || (state cl =? "PRE_PLAY")) with false
    by (by destruct Hst as [-> | ->]).
  replace ((state cl =? "ANNOUNCE") || (state cl =? "PRE_RECORD")) with true
    by (by destruct Hst as [-> | ->]).
  rewrite (bool_decide_eq_false_2 _ Hudp), (bool_decide_eq_false_2 _ Htcp).
  repeat case_match; by eexists.
Qed.

(** ** The invariant of the reachable programs *)

Lemma Inv_initial key rtp rtcp : Inv (initial key rtp rtcp).
Proof. split; cbn; intros *; try rewrite lookup_empty; try done. Qed.

Lemma newClient_fresh p : p_mem p !! (newClient p).2 = None.
Proof. cbn. apply not_elem_of_dom, is_fresh. Qed.

Lemma Inv_newClient p : Inv p → Inv (newClient p).1.
Proof.
  intros [Hc Hcl Hp Hs]. pose proof (newClient_fresh p) as Hf. cbn in Hf.
  split; cbn.
  - intros c [->%elem_of_singleton|Hin]%elem_of_union.
    + rewrite lookup_insert_eq. eauto.
    + rewrite lookup_insert_ne; [eauto|]. intros <-. apply Hc in Hin.
      rewrite Hf in Hin. by destruct Hin.
  - intros c cl Hl Hn. rewrite lookup_insert_ne in Hl by set_solver.
    apply (Hcl c); [done | set_solver].
  - intros pth c Hpub. destruct (Hp _ _ Hpub) as (cl & Hl & ?).
    exists cl. split; [|done]. rewrite lookup_insert_ne; [done|]. congruence.
  - intros c cl Hl Hpb. destruct (decide (c = fresh (dom (p_mem p)))) as [->|Hne].
    + rewrite lookup_insert_eq in Hl. simplify_eq.
      revert Hpb. unfold publishing. cbn. intros [H | [H | H]]; discriminate.
    + rewrite lookup_insert_ne in Hl by done.
      destruct (Hs _ _ Hl Hpb) as [? Hx]. split; [done|].
      intros Hin. apply Hx. set_solver.
Qed.

Lemma Inv_effect p c p' : Inv p → effect p c p' → Inv p'.
Proof.
  intros [Hc Hcl Hp Hs] [|cl cl' Hl (Hrc & Hsdp & Hpb & Hpath)
                          |cl cl' pth Hl Hnp Hfree Hrc Hst Hpath Hsdp]; [done|..].
  - split; cbn.
    + intros x Hx. destruct (decide (x = c)) as [->|].
      * rewrite lookup_insert_eq. eauto.
      * rewrite lookup_insert_ne by done. eauto.
    + intros x xl Hx Hn. destruct (decide (x = c)) as [->|].
      * rewrite lookup_insert_eq in Hx. simplify_eq. rewrite Hrc. eauto.
      * rewrite lookup_insert_ne in Hx by done. eauto.
    + intros pth x Hx. destruct (Hp _ _ Hx) as (xl & Hxl & Hxp & Hxs & Hxb).
      destruct (decide (x = c)) as [->|].
      * simplify_eq. exists cl'. rewrite lookup_insert_eq.
        split; [done|]. split; [auto|]. split; [congruence|]. by apply Hpb.
      * exists xl. rewrite lookup_insert_ne by done. done.
    + intros x xl Hx Hb. destruct (decide (x = c)) as [->|].
      * rewrite lookup_insert_eq in Hx. simplify_eq. apply Hpb in Hb.
        destruct (Hs _ _ Hl Hb) as [??]. rewrite Hsdp, Hpath by done. done.
      * rewrite lookup_insert_ne in Hx by done. eauto.
  - split; cbn.
    + intros x Hx. destruct (decide (x = c)) as [->|].
      * rewrite lookup_insert_eq. eauto.
      * rewrite lookup_insert_ne by done. eauto.
    + intros x xl Hx Hn. destruct (decide (x = c)) as [->|].
      * rewrite lookup_insert_eq in Hx. simplify_eq. rewrite Hrc. eauto.
      * rewrite lookup_insert_ne in Hx by done. eauto.
    + intros k x Hx. destruct (decide (pth = k)) as [->|Hk].
      * rewrite lookup_insert_eq in Hx. simplify_eq. exists cl'.
        rewrite lookup_insert_eq. unfold publishing. rewrite Hst. eauto 10.
      * rewrite lookup_insert_ne in Hx by done.
        destruct (Hp _ _ Hx) as (xl & Hxl & Hxp & Hxs & Hxb).
        exists xl. rewrite lookup_insert_ne; [done|]. intros <-. by simplify_eq.
    + intros x xl Hx Hb. destruct (decide (x = c)) as [->|].
      * rewrite lookup_insert_eq in Hx. simplify_eq.
        split; [done|]. intros _. apply lookup_insert_eq.
      * rewrite lookup_insert_ne in Hx by done.
        destruct (Hs _ _ Hx Hb) as [? Hin]. split; [done|]. intros Hxin.
        specialize (Hin Hxin). rewrite lookup_insert_ne; [done|].
        intros Heq. rewrite <- Heq in Hin. congruence.
Qed.

Lemma Inv_closedBy p p' D :
  Inv p →
  closedBy D (setPublishers p (p_publishers p')) p' →
  (p_publishers p' = p_publishers p ∨
   ∃ c cl, p_mem p !! c = Some cl ∧ c ∈ D ∧ p_publishers p !! path cl = Some c ∧
           p_publishers p' = delete (path cl) (p_publishers p)) →
  Inv p'.
Proof.
  intros [Hc Hcl Hp Hs] Hby Hpub.
  assert (Hsub : ∀ k x, p_publishers p' !! k = Some x → p_publishers p !! k = Some x).
  { intros k x. destruct Hpub as [->|(c & cl & _ & _ & _ & ->)]; [done|].
    rewrite lookup_delete_Some. tauto. }
  split.
  - intros x Hx. destruct Hby as [Hcs Hi Ho _ _ _ _]. cbn in *. rewrite Hcs in Hx.
    destruct (decide (x ∈ D)); [set_solver|]. rewrite Ho by done. apply Hc. set_solver.
  - intros x xl' Hx Hn.
    destruct (closedBy_lookup _ _ _ _ _ Hby Hx) as (xl & Hxl & _ & _ & _ & Hin & Hout).
    destruct (decide (x ∈ D)); [auto|]. rewrite Hout by done. cbn in Hxl.
    apply (Hcl x); [done|]. destruct Hby as [Hcs _ _ _ _ _ _]. cbn in Hcs. set_solver.
  - intros k x Hx%Hsub. destruct (Hp _ _ Hx) as (xl & Hxl & ? & ? & ?).
    destruct (closedBy_lookup_rev _ _ _ _ _ Hby Hxl) as (xl' & ? & Hst & Hpa & Hsd).
    exists xl'. rewrite Hst, Hpa, Hsd. done.
  - intros x xl' Hx Hb.
    destruct (closedBy_lookup _ _ _ _ _ Hby Hx) as (xl & Hxl & Hst & Hpa & Hsd & _).
    cbn in Hxl. rewrite Hst in Hb. destruct (Hs _ _ Hxl Hb) as [? Hin].
    rewrite Hsd, Hpa. split; [done|]. intros Hxin.
    destruct Hby as [Hcs _ _ _ _ _ _]. cbn in Hcs. rewrite Hcs in Hxin.
    apply elem_of_difference in Hxin as [Hxin HxD]. specialize (Hin Hxin).
    destruct Hpub as [->|(c & cl & Hcl' & HcD & Hcp & ->)]; [done|].
    rewrite lookup_delete_ne; [done|]. intros Heq. rewrite <- Heq in Hin.
    congruence.
Qed.

Lemma close_Inv range p c :
  enumerates range → Inv p → is_Some (p_mem p !! c) →
  ∃ p', (∀ n, closeFuel range (S (S n)) p c = Some (Ret p')) ∧
        close range p c = Ret p' ∧ Inv p'.
Proof.
  intros Hr HI [cl Hc]. destruct (decide (c ∈ p_clients p)) as [Hin|Hin].
  - destruct (close_total range p c cl Hr (inv_clients _ HI) Hc Hin)
      as (p' & D & Hf & Hby & HcD & Hcase).
    exists p'. split; [done|]. split; [unfold close; by rewrite Hf|].
    eapply Inv_closedBy; [done..|].
    destruct Hcase as [([? ?] & ? & ?)|(? & ? & ?)]; [right|by left].
    exists c, cl. split; [done|]. split; [set_solver|]. done.
  - exists p. split; [intros n; by apply closeFuel_absent|].
    split; [|done]. unfold close. by rewrite closeFuel_absent.
Qed.

Lemma turn_Inv L rangeTokens rangeClients p c req writeOk p' evs ctl :
  enumerates rangeClients → Inv p →
  turn L rangeTokens rangeClients p c req writeOk = Ret (p', evs, ctl) → Inv p'.
Proof.
  intros Hr HI. unfold turn.
  destruct (serve L rangeTokens p c req writeOk) as [[[p1 evs1] ctl1]|] eqn:Hs; [|done].
  pose proof (Inv_effect _ _ _ HI (serve_effect _ _ _ _ _ _ _ _ _ Hs)) as HI1.
  destruct ctl1; intros H; simplify_eq; try done.
  destruct (close rangeClients p1 c) as [p2|] eqn:Hcl; [|done]. simplify_eq.
  destruct (p_mem p1 !! c) as [cl|] eqn:Hc.
  - destruct (close_Inv rangeClients p1 c Hr HI1) as (p2 & _ & Hcl2 & ?); [eauto|].
    congruence.
  - assert (c ∉ p_clients p1) as Hn.
    { intros Hin. apply (inv_clients _ HI1) in Hin. rewrite Hc in Hin. by destruct Hin. }
    unfold close in Hcl. rewrite closeFuel_absent in Hcl by done. congruence.
Qed.

Lemma step_Inv L p p' : Inv p → step L p p' → Inv p'.
Proof.
  intros HI Hs. destruct Hs.
  - by apply Inv_newClient.
  - eapply turn_Inv; [| |eassumption]; assumption.
  - edestruct close_Inv as (p2 & _ & Hcl & Hinv); [eassumption..|]. congruence.
Qed.

Lemma reachable_Inv L p : reachable L p → Inv p.
Proof.
  intros (key & rtp & rtcp & Hrtc).
  eapply (rtc_ind_r (λ q, Inv q)); [apply Inv_initial | | exact Hrtc].
  intros y z _ Hs IH. by eapply step_Inv.
Qed.

Lemma handleRequest_success L range p c req p' res :
  handleRequest L range p c req = Ret (p', (res, None)) → is_Some res.
Proof.
  unfold_handler. intros H. repeat case_match; simplify_eq; eauto.
Qed.

(** On a program that satisfies the invariant no pointer of the handler is
    nil. *)
Lemma handleRequest_returns L range p c req :
  Inv p → is_Some (p_mem p !! c) →
  ∃ p' r, handleRequest L range p c req = Ret (p', r).
Proof.
  intros HI [cl Hc].
  destruct (handleRequest L range p c req) as [[p' r]|] eqn:Hh; [eauto|].
  exfalso. revert Hh. unfold_handler. rewrite Hc. intros Hh.
  repeat case_match; simplify_eq; eqb_hyps.
  all: repeat match goal with
       | HI : Inv ?q, H : p_publishers ?q !! _ = Some _ |- _ =>
           destruct (inv_publishers _ HI _ _ H) as (? & ? & ? & [? ?] & ?); clear H
       end; simplify_eq.
  all: try (cbn in *; rewrite lookup_insert_eq in *; done).
  all: repeat match goal with H : _ ∨ _ |- _ => destruct H end; eqb_hyps.
  all: match goal with
       | HI : Inv ?q, Hc : p_mem ?q !! _ = Some ?cl, H : state ?cl = _ |- _ =>
           destruct (inv_publishing _ HI _ _ Hc) as [[? ?] _];
             [unfold publishing; rewrite H; eauto|congruence]
       end.
Qed.

(** So a turn of an allocated client returns: no step of a reachable program
    panics. *)
Lemma turn_returns L rangeT rangeC p c req writeOk :
  enumerates rangeC → Inv p → is_Some (p_mem p !! c) →
  ∃ p' evs ctl, turn L rangeT rangeC p c req writeOk = Ret (p', evs, ctl).
Proof.
  intros Hr HI [cl Hc].
  assert (∃ p1 evs ctl, serve L rangeT p c req writeOk = Ret (p1, evs, ctl))
    as (p1 & evs & ctl & Hs).
  { unfold serve, enterStream.
    destruct (handleRequest_returns L rangeT p c req HI) as (p1 & [res err] & Hh);
      [eauto|]. rewrite Hh. destruct err as [e|].
    - destruct (handleRequest_error _ _ _ _ _ _ _ _ Hh) as [-> Hres]. rewrite Hc.
      destruct e; try (by eauto); destruct Hres as [[r ->] _]; eauto;
        destruct writeOk; cbn; eauto.
    - destruct (handleRequest_success _ _ _ _ _ _ _ Hh) as [r ->]. eauto. }
  unfold turn. rewrite Hs.
  pose proof (Inv_effect _ _ _ HI (serve_effect _ _ _ _ _ _ _ _ _ Hs)) as HI1.
  destruct ctl; eauto.
  assert (is_Some (p_mem p1 !! c)) as Hc1.
  { destruct (serve_effect _ _ _ _ _ _ _ _ _ Hs); cbn; rewrite ?lookup_insert_eq; eauto. }
  destruct (close_Inv rangeC p1 c Hr HI1 Hc1) as (p2 & _ & -> & _). eauto.
Qed.

(** [close] on an allocated client of a state that satisfies the invariant. *)
Lemma close_closes range p c cl :
  enumerates range → Inv p → p_mem p !! c = Some cl →
  ∃ p', close range p c = Ret p' ∧ Inv p' ∧ (c ∉ p_clients p') ∧
        rconnClosed <$> p_mem p' !! c = Some true.
Proof.
  intros Hr HI Hc. destruct (decide (c ∈ p_clients p)) as [Hin|Hin].
  - destruct (close_total range p c cl Hr (inv_clients _ HI) Hc Hin)
      as (p' & D & Hf & Hby & HcD & Hcase).
    destruct (close_Inv range p c Hr HI) as (p2 & _ & Hcl & HI2); [eauto|].
    assert (p2 = p') as -> by (unfold close in Hcl; rewrite (Hf 0) in Hcl; congruence).
    exists p'. split; [unfold close; by rewrite (Hf 0)|]. split; [done|].
    destruct Hby as [Hcs Hi _ _ _ _ _]. cbn in *. split; [set_solver|].
    rewrite Hi, Hc by set_solver. done.
  - exists p. unfold close. rewrite closeFuel_absent by done.
    split; [done|]. split; [done|]. split; [done|].
    rewrite Hc. cbn. f_equal. by eapply inv_closed.
Qed.

Lemma turn_generic L rangeT rangeC p c cl req msg writeOk :
  enumerates rangeC → Inv p → p_mem p !! c = Some cl →
  handleRequest L rangeT p c req = fails p msg →
  ∃ p', turn L rangeT rangeC p c req writeOk
          = Ret (p', [WriteResponse c (response400 req)], Return) ∧
        close rangeC p c = Ret p' ∧ (c ∉ p_clients p') ∧
        rconnClosed <$> p_mem p' !! c = Some true.
Proof.
  intros Hr HI Hc Hh. unfold turn. rewrite (serve_generic _ _ _ _ _ msg) by done.
  destruct (close_closes rangeC p c cl Hr HI Hc) as (p' & Hcl & _ & ? & ?).
  exists p'. by rewrite Hcl.
Qed.


(** ** The programs of the examples are reachable *)

Lemma inOrder_enumerates `{Countable K} : enumerates (Sample.inOrder (K:=K)).
Proof. intros X. reflexivity. Qed.

Lemma reachable_initial L key rtp rtcp : reachable L (initial key rtp rtcp).
Proof. exists key, rtp, rtcp. apply rtc_refl. Qed.

Lemma reachable_step L p p' : reachable L p → step L p p' → reachable L p'.
Proof.
  intros (key & rtp & rtcp & Hr) Hs. exists key, rtp, rtcp.
  eapply rtc_r; eassumption.
Qed.

Lemma reachable_newClient L p : reachable L p → reachable L (newClient p).1.
Proof. intros Hr. eapply reachable_step; [exact Hr | apply step_accept]. Qed.

Lemma reachable_turn L p c req writeOk p' evs ctl :
  reachable L p →
  turn L Sample.inOrder Sample.inOrder p c req writeOk = Ret (p', evs, ctl) →
  reachable L p'.
Proof.
  intros Hr Ht. eapply reachable_step; [exact Hr|].
  eapply step_turn; [| |exact Ht]; apply inOrder_enumerates.
Qed.

Lemma reachable_after L p c req :
  reachable L p →
  (∃ evs ctl, turn L Sample.inOrder Sample.inOrder p c req true
                = Ret (Sample.programOf (turn L Sample.inOrder Sample.inOrder p c req true),
                       evs, ctl)) →
  reachable L (Sample.programOf (turn L Sample.inOrder Sample.inOrder p c req true)).
Proof. intros Hr (evs & ctl & Ht). by eapply reachable_turn. Qed.

Lemma reachable_started : reachable Sample.libs Sample.started.
Proof. apply reachable_newClient, reachable_initial. Qed.

Lemma reachable_announced : reachable Sample.libs Sample.announced.
Proof.
  apply reachable_after; [apply reachable_started|]. do 2 eexists. by vm_compute.
Qed.

Lemma reachable_announcedTwo : reachable Sample.libs Sample.announcedTwo.
Proof.
  apply reachable_after; [apply reachable_started|]. do 2 eexists. by vm_compute.
Qed.

Lemma reachable_second : reachable Sample.libs Sample.second.
Proof. apply reachable_newClient, reachable_announced. Qed.


Lemma reachable_rootRead : reachable Sample.libs Sample.rootRead.
Proof.
  apply reachable_after; [apply reachable_newClient, reachable_after|].
  - apply reachable_started.
  - do 2 eexists. by vm_compute.
  - do 2 eexists. by vm_compute.
Qed.

Lemma reachable_oneOfTwo : reachable Sample.libs Sample.oneOfTwo.
Proof.
  apply reachable_after; [apply reachable_newClient, reachable_announcedTwo|].
  do 2 eexists. by vm_compute.
Qed.

Lemma reachable_twoOfTwo : reachable Sample.libs Sample.twoOfTwo.
Proof.
  apply reachable_after; [apply reachable_oneOfTwo|]. do 2 eexists. by vm_compute.
Qed.

(** ** The second publisher *)




(** ** The close of a publisher *)

(** C2, as the code has it: on a reachable program [close] returns, for any
    fuel from 2 on; the client is then out of [clients] with its socket
    closed, and a second [close] changes nothing; and when the client has a
    non-empty path and is the publisher of it, the entry of the path is
    removed from [publishers] and every client of that path is out of
    [clients] with its socket closed. *)
Theorem close_contract L range p c cl :
  reachable L p → enumerates range → p_mem p !! c = Some cl →
  ∃ p', close range p c = Ret p' ∧
    (∀ n, closeFuel range (S (S n)) p c = Some (Ret p')) ∧
    (c ∉ p_clients p') ∧
    rconnClosed <$> p_mem p' !! c = Some true ∧
    close range p' c = Ret p' ∧
    (c ∈ p_clients p → path cl ≠ "" → p_publishers p !! path cl = Some c →
       p_publishers p' !! path cl = None ∧
       ∀ oc ocl, p_mem p !! oc = Some ocl → path ocl = path cl →
         (oc ∉ p_clients p') ∧ rconnClosed <$> p_mem p' !! oc = Some true).
Proof.
  intros Hre Hr Hc. apply reachable_Inv in Hre as HI.
  destruct (close_closes range p c cl Hr HI Hc) as (p' & Hcl & HI' & Hout & Hclosed).
  destruct (close_Inv range p c Hr HI) as (p2 & Hf & Hcl2 & _); [eauto|].
  assert (p2 = p') as -> by congruence.
  exists p'. split; [done|]. split; [done|]. split; [done|]. split; [done|].
  split; [unfold close; by rewrite closeFuel_absent|].
  intros Hin Hne Hpub.
  destruct (close_total range p c cl Hr (inv_clients _ HI) Hc Hin)
    as (p3 & D & Hf3 & Hby & HcD & Hcase).
  assert (p3 = p') as -> by (specialize (Hf 0); specialize (Hf3 0); congruence).
  destruct Hcase as [(_ & Hp' & HD)|(Hno & _)]; [|by destruct Hno].
  split; [rewrite Hp'; apply lookup_delete_eq|].
  intros oc ocl Hoc Hpath. destruct Hby as [Hcs Hi Ho _ _ _ _]. cbn in *.
  destruct (decide (oc ∈ {[c]} ∪ D)) as [Hd|Hd].
  - split; [set_solver|]. by rewrite Hi, Hoc.
  - assert (oc ∉ p_clients p).
    { intros Hoin. apply Hd, elem_of_union.
      destruct (decide (oc = c)) as [->|]; [left; set_solver|right].
      apply HD. unfold pathIs. rewrite Hoc. cbn. split; [done|]. split; [done|].
      by f_equal. }
    split; [set_solver|]. rewrite Ho, Hoc by done. cbn. f_equal.
    by apply (inv_closed _ HI oc ocl).
Qed.

Lemma close_contract_witness :
  ∃ p', close Sample.inOrder Sample.oneOfTwo 0 = Ret p' ∧
        (0 ∉ p_clients p') ∧ p_publishers p' !! "cam" = None ∧
        (1 ∉ p_clients p') ∧
        rconnClosed <$> p_mem p' !! 1 = Some true.
Proof.
  destruct (close_contract Sample.libs Sample.inOrder Sample.oneOfTwo 0
              (Sample.clientAt Sample.oneOfTwo 0)
              reachable_oneOfTwo inOrder_enumerates)
    as (p' & Hcl & _ & Hout & _ & _ & Hpub); [by vm_compute|].
  destruct Hpub as [Hnone Hothers]; [by vm_compute..|].
  destruct (Hothers 1 (Sample.clientAt Sample.oneOfTwo 1)) as [Hout1 Hclosed1];
    [by vm_compute..|].
  exists p'. split; [exact Hcl|]. split; [exact Hout|].
  split; [exact Hnone|]. split; [exact Hout1 | exact Hclosed1].
Defined.

(** C2 as stated fails on the empty path: a client that announced on
    [rtsp://localhost:8554/] is the publisher of the empty path; closing it
    takes it out of [clients] but leaves it in [publishers], and the reader
    of the same path stays a client with its socket open. *)
Lemma close_keeps_empty_path_publisher :
  reachable Sample.libs Sample.rootRead ∧
  p_publishers Sample.rootRead !! "" = Some 0 ∧
  path (Sample.clientAt Sample.rootRead 0) = "" ∧
  path (Sample.clientAt Sample.rootRead 1) = "" ∧
  0 ∈ p_clients Sample.rootRead ∧ 1 ∈ p_clients Sample.rootRead ∧
  ∃ p', close Sample.inOrder Sample.rootRead 0 = Ret p' ∧
        (0 ∉ p_clients p') ∧
        p_publishers p' !! "" = Some 0 ∧
        1 ∈ p_clients p' ∧
        rconnClosed (Sample.clientAt p' 1) = false.
Proof.
  split; [apply reachable_rootRead|]. do 5 (split; [by vm_compute|]).
  eexists. split; [by vm_compute|]. repeat split; by vm_compute.
Qed.

(** ** PLAY *)

(** C3: for a client of a reachable program and a PLAY request, a response
    is returned only when the client is in state PRE_PLAY, the path of the
    request is the path of the client and the number of tracks equals the
    number of medias of the publisher of that path; it is then 200 with
    [errPlay]. When one of these fails the request is a generic error: the
    turn writes the response 400 Bad Request, with the CSeq of the request if
    it has one, and closes the client. When they hold and CSeq is there, the
    answer is 200 OK with CSeq and Session, and the turn writes it and then
    sets the state of the client to PLAY, leaving every other field of the
    client and of the program as it was; if the write fails the state is not
    set. *)
Theorem play_contract L rangeT rangeC p c cl req :
  reachable L p → enumerates rangeC → p_mem p !! c = Some cl →
  Request.Method req = "PLAY" →
  (∀ p' res err, handleRequest L rangeT p c req = Ret (p', (Some res, err)) →
     playReady L p cl req ∧ Response.StatusCode res = 200%Z ∧
     err = Some errPlay ∧ p' = p) ∧
  (¬ playReady L p cl req →
     (∃ msg, handleRequest L rangeT p c req = Ret (p, (None, Some (errorf msg)))) ∧
     ∀ writeOk, ∃ p',
       turn L rangeT rangeC p c req writeOk
       = Ret (p',
              [WriteResponse c
                 (Response.mk 400 "Bad Request"
                    match Request.Headers req !! "CSeq" with
                    | Some cseq => {[ "CSeq" := cseq ]}
                    | None => ∅
                    end [])],
              Return) ∧
       (c ∉ p_clients p') ∧
       rconnClosed <$> p_mem p' !! c = Some true) ∧
  (playReady L p cl req → ∀ cseq, Request.Headers req !! "CSeq" = Some cseq →
     handleRequest L rangeT p c req
     = Ret (p, (Some (Response.mk 200 "OK"
                        {[ "CSeq" := cseq; "Session" := "12345678" ]} []),
                Some errPlay)) ∧
     (∃ ctl, serve L rangeT p c req true
             = Ret ({| p_mem :=
                         <[c := {| state := "PLAY"; path := path cl;
                                   streamSdpText := streamSdpText cl;
                                   streamSdpParsed := streamSdpParsed cl;
                                   streamProtocol := streamProtocol cl;
                                   streamTracks := streamTracks cl;
                                   rconnClosed := rconnClosed cl |}]> (p_mem p);
                       p_clients := p_clients p;
                       p_publishers := p_publishers p;
                       p_publishKey := p_publishKey p;
                       p_rtpPort := p_rtpPort p;
                       p_rtcpPort := p_rtcpPort p |},
                    [WriteResponse c
                       (Response.mk 200 "OK"
                          {[ "CSeq" := cseq; "Session" := "12345678" ]} []);
                     SetState c "PLAY"], ctl)) ∧
     serve L rangeT p c req false
       = Ret (p, [WriteResponse c
                    (Response.mk 200 "OK"
                       {[ "CSeq" := cseq; "Session" := "12345678" ]} [])], Return)).
Proof.
  intros Hre Hr Hc Hm. apply reachable_Inv in Hre as HI.
  assert (Hcases :
    (∃ cseq, Request.Headers req !! "CSeq" = Some cseq ∧ playReady L p cl req ∧
       handleRequest L rangeT p c req = Ret (p, (Some (sessionReply cseq), Some errPlay)))
    ∨ ((Request.Headers req !! "CSeq" = None ∨ ¬ playReady L p cl req) ∧
       ∃ msg, handleRequest L rangeT p c req = fails p msg)).
  { destruct (Request.Headers req !! "CSeq") as [cseq|] eqn:Hs.
    2:{ right. split; [by left|]. eexists. by eapply handle_no_cseq. }
    destruct (url_Parse L (Request.Url req)) as [ur|] eqn:Hur.
    2:{ right. split; [right; intros (_ & (ur & Hu & _) & _); congruence|].
        eexists. by eapply handle_no_url. }
    rewrite (handle_PLAY L rangeT p c cl req cseq ur) by done.
    destruct (casePlay_cases p cl cseq (requestPath (Path ur)) HI)
      as [(? & ? & ? & ?)|(Hno & ?)].
    - left. exists cseq. unfold playReady. eauto 10.
    - right. split; [|done]. right. intros (? & (ur' & ? & ?) & ?). simplify_eq.
      apply Hno. eauto. }
  split; [|split].
  - intros p' res err Hh. destruct Hcases as [(cseq & _ & Hready & Hok)|(_ & msg & Hf)].
    + rewrite Hok in Hh. by simplify_eq.
    + rewrite Hf in Hh. by unfold fails in Hh.
  - intros Hno. destruct Hcases as [(cseq & _ & Hready & _)|(_ & msg & Hf)]; [done|].
    split; [by exists msg|]. intros w.
    destruct (turn_generic L rangeT rangeC p c cl req msg w Hr HI Hc Hf)
      as (p' & Ht & _ & ? & ?).
    exists p'. split; [|done]. rewrite Ht. unfold response400.
    by destruct (Request.Headers req !! "CSeq").
  - intros Hready cseq Hs.
    destruct Hcases as [(cseq' & Hs' & _ & Hok)|([Hn|Hn] & _)]; [|congruence|done].
    assert (cseq' = cseq) as -> by congruence.
    split; [done|]. unfold serve, enterStream. rewrite Hok, Hc. cbn.
    split; [eexists|]; done.
Qed.

Lemma play_contract_witness :
  handleRequest Sample.libs Sample.inOrder Sample.twoOfTwo 1 Sample.play
  = Ret (Sample.twoOfTwo,
         (Some (Response.mk 200 "OK" {[ "CSeq" := "5"; "Session" := "12345678" ]} []),
          Some errPlay)) ∧
  (∃ p1, serve Sample.libs Sample.inOrder Sample.twoOfTwo 1 Sample.play true
         = Ret (p1,
                [WriteResponse 1
                   (Response.mk 200 "OK" {[ "CSeq" := "5"; "Session" := "12345678" ]} []);
                 SetState 1 "PLAY"], Continue) ∧
         state <$> p_mem Sample.twoOfTwo !! 1 = Some "PRE_PLAY" ∧
         state <$> p_mem p1 !! 1 = Some "PLAY") ∧
  serve Sample.libs Sample.inOrder Sample.twoOfTwo 1 Sample.play false
  = Ret (Sample.twoOfTwo,
         [WriteResponse 1
            (Response.mk 200 "OK" {[ "CSeq" := "5"; "Session" := "12345678" ]} [])],
         Return).
Proof.
  destruct (play_contract Sample.libs Sample.inOrder Sample.inOrder Sample.twoOfTwo 1
              (Sample.clientAt Sample.twoOfTwo 1) Sample.play
              reachable_twoOfTwo inOrder_enumerates) as (_ & _ & H); [by vm_compute..|].
  destruct (H ltac:(split; [by vm_compute|]; split;
                     [eexists; split; by vm_compute|];
                     do 3 eexists; repeat split; by vm_compute) "5" ltac:(by vm_compute))
    as (Hh & [ctl Hs] & Hw).
  split; [exact Hh|]. split; [|exact Hw].
  eexists. split.
  - rewrite Hs. do 2 f_equal. revert Hs. vm_compute. congruence.
  - split; by vm_compute.
Defined.

Example partial_setup_blocks_play :
  ∃ p', turn Sample.libs Sample.inOrder Sample.inOrder Sample.oneOfTwo 1
          Sample.play true
        = Ret (p', [WriteResponse 1 (Response.mk 400 "Bad Request" {[ "CSeq" := "5" ]} [])],
               Return) ∧
        handleRequest Sample.libs Sample.inOrder Sample.oneOfTwo 1 Sample.play
        = Ret (Sample.oneOfTwo, (None, Some (errorf "not all tracks have been setup"))).
Proof. eexists. split; by vm_compute. Qed.

(** ** The path bound by a request *)




(** ** CSeq and OPTIONS *)




(** ** TEARDOWN *)

(** C6, as the code has it: in every state of a client of a reachable
    program, a TEARDOWN that carries CSeq and whose URL parses makes the turn
    write nothing and close the client (out of [clients], socket closed); a
    TEARDOWN without CSeq, or whose URL does not parse, is answered 400 before
    the same close. *)
Theorem teardown_closes_silently L rangeT rangeC p c cl req writeOk :
  reachable L p → enumerates rangeC → p_mem p !! c = Some cl →
  Request.Method req = "TEARDOWN" →
  ∃ p', close rangeC p c = Ret p' ∧ (c ∉ p_clients p') ∧
        rconnClosed <$> p_mem p' !! c = Some true ∧
    (is_Some (Request.Headers req !! "CSeq") →
     is_Some (url_Parse L (Request.Url req)) →
       turn L rangeT rangeC p c req writeOk = Ret (p', [], Return)) ∧
    (Request.Headers req !! "CSeq" = None ∨ url_Parse L (Request.Url req) = None →
       turn L rangeT rangeC p c req writeOk
         = Ret (p', [WriteResponse c (response400 req)], Return)).
Proof.
  intros Hre Hr Hc Hm. apply reachable_Inv in Hre.
  destruct (close_closes rangeC p c cl Hr Hre Hc) as (p' & Hcl & _ & Hout & Hclosed).
  exists p'. split; [done|]. split; [done|]. split; [done|]. split.
  - intros [cseq Hs] [ur Hur]. unfold turn, serve.
    rewrite (handle_TEARDOWN L rangeT p c cl req cseq ur) by done. by rewrite Hcl.
  - intros Hbad.
    assert (∃ msg, handleRequest L rangeT p c req = fails p msg) as [msg Hh].
    { destruct (Request.Headers req !! "CSeq") as [cseq|] eqn:Hs.
      - destruct Hbad as [?|Hn]; [done|]. eexists. by eapply handle_no_url.
      - eexists. by eapply handle_no_cseq. }
    destruct (turn_generic L rangeT rangeC p c cl req msg writeOk Hr Hre Hc Hh)
      as (p2 & Ht & Hcl2 & _). congruence.
Qed.

Lemma teardown_closes_silently_witness :
  ∃ p', turn Sample.libs Sample.inOrder Sample.inOrder Sample.started 0
          (Sample.request "TEARDOWN" "rtsp://localhost:8554/cam" [("CSeq", "9")] [])
          true = Ret (p', [], Return) ∧ 0 ∉ p_clients p'.
Proof.
  destruct (teardown_closes_silently Sample.libs Sample.inOrder Sample.inOrder
              Sample.started 0 newClientValue
              (Sample.request "TEARDOWN" "rtsp://localhost:8554/cam" [("CSeq", "9")] [])
              true reachable_started inOrder_enumerates)
    as (p' & _ & Hout & _ & Ht & _); [by vm_compute | done |].
  exists p'. split; [|exact Hout]. apply Ht; by vm_compute; eauto.
Defined.

(** C6 as stated fails: a TEARDOWN without CSeq, in state STARTING, has a
    400 response written before the connection closes. *)
Lemma teardown_without_cseq_answered :
  state (Sample.clientAt Sample.started 0) = "STARTING" ∧
  ∃ p', turn Sample.libs Sample.inOrder Sample.inOrder Sample.started 0
          (Sample.request "TEARDOWN" "rtsp://localhost:8554/cam" [] []) true
        = Ret (p', [WriteResponse 0 (Response.mk 400 "Bad Request" ∅ [])], Return).
Proof. split; [done|]. eexists. by vm_compute. Qed.

(** ** The transport token of a publisher *)

(** C7 on the code: after ANNOUNCE, the SETUP
    [RTP/AVP;unicast;client_port=5000-5001;mode=record] is refused with the
    error that names RTP/AVP as a valid protocol; the same request with
    RTP/AVP/UDP succeeds, appends the UDP track and moves to PRE_RECORD; and a
    reader's SETUP with RTP/AVP succeeds. *)
Theorem publisher_setup_rtp_avp_rejected :
  handleRequest Sample.libs Sample.inOrder Sample.announced 0
    (Sample.setup Sample.camUrl "RTP/AVP;unicast;client_port=5000-5001;mode=record")
  = Ret (Sample.announced,
         (None, Some (errorf "transport header does not contain a valid protocol (RTP/AVP or RTP/AVP/TCP) (RTP/AVP;unicast;client_port=5000-5001;mode=record)"))) ∧
  (∃ p',
     handleRequest Sample.libs Sample.inOrder Sample.announced 0
       (Sample.setup Sample.camUrl
          "RTP/AVP/UDP;unicast;client_port=5000-5001;mode=record")
     = Ret (p', (Some (response200 (sessionHeaders "3"
              "RTP/AVP;unicast;client_port=5000-5001;server_port=8000-8001;ssrc=1234ABCD")
              []), None)) ∧
     state (Sample.clientAt p' 0) = "PRE_RECORD" ∧
     streamTracks (Sample.clientAt p' 0) = [{| rtpPort := 5000; rtcpPort := 5001 |}]) ∧
  (∃ p',
     handleRequest Sample.libs Sample.inOrder Sample.second 1
       (Sample.setup Sample.camUrl "RTP/AVP;unicast;client_port=6000-6001")
     = Ret (p', (Some (response200 (sessionHeaders "3"
              "RTP/AVP;unicast;client_port=6000-6001;server_port=8000-8001;ssrc=1234ABCD")
              []), None)) ∧
     state (Sample.clientAt p' 1) = "PRE_PLAY").
Proof.
  split; [by vm_compute|]. split; eexists; by vm_compute.
Qed.

(** ** The interleaved option of a publisher *)




(** The value [2-4] on the second track, where [2-3] is expected. *)
Example second_track_2_4_rejected :
  handleRequest Sample.libs Sample.inOrder Sample.firstTrack 0
    (Sample.setup Sample.camUrl "RTP/AVP/TCP;unicast;mode=record;interleaved=2-4")
  = Ret (Sample.firstTrack,
         (None, Some (errorf "wrong interleaved value, expected '2-3', got '2-4'"))).
Proof. by vm_compute. Qed.

(** ** Errors leave the program as it was *)

(** C10: when [handleRequest] returns an error other than [errPlay],
    [errRecord] and [errTeardown], the program it returns is the program it
    was given: every field of the client and of every other client, the
    publishers map and the clients set are as before the request. *)
Theorem error_atomicity L range p c req p' res e :
  handleRequest L range p c req = Ret (p', (res, Some e)) →
  e ≠ errPlay → e ≠ errRecord → e ≠ errTeardown →
  p' = p.
Proof. intros H _ _ _. by apply handleRequest_error in H as [-> _]. Qed.

Lemma error_atomicity_witness :
  handleRequest Sample.libs Sample.inOrder Sample.started 0 (Sample.request "SETUP" "rtsp://localhost:8554/cam" [] [])
    = Ret (Sample.started, (None, Some (errorf "cseq missing"))) ∧
  Sample.started = Sample.started.
Proof.
  assert (H : handleRequest Sample.libs Sample.inOrder Sample.started 0
                (Sample.request "SETUP" "rtsp://localhost:8554/cam" [] [])
              = Ret (Sample.started, (None, Some (errorf "cseq missing")))) by (by vm_compute).
  split; [exact H|].
  apply (error_atomicity Sample.libs Sample.inOrder Sample.started 0 _ Sample.started None _ H); discriminate.
Defined.

(** * Further properties of the code *)

(** ** The path and the transport header *)

Lemma index_cutAtSlash s : String.index 0 "/" (cutAtSlash s) = None.
Proof.
  induction s as [|a s IH]; [done|]. cbn [cutAtSlash].
  destruct (Ascii.eqb_spec a "/") as [->|Hne]; [done|].
  cbn [String.index String.prefix].
  destruct (ascii_dec "/" a) as [Heq|_]; [congruence|]. by rewrite IH.
Qed.

(** X1: whatever the path component of the URL, the path the closure of
    lines 309-323 returns contains no ['/']: [strings.Index] of it is [-1]. *)
Theorem requestPath_has_no_slash (urPath : string) :
  strings_Index (requestPath urPath) "/" = (-1)%Z.
Proof.
  unfold requestPath. cbn zeta.
  pose proof (cut_index (if (1 <? len urPath)%nat then slice_from 1 urPath else urPath)) as H.
  cbn zeta in H. rewrite H. unfold strings_Index. by rewrite index_cutAtSlash.
Qed.

Lemma prefix_split pre : ∀ t,
  String.prefix pre t = true → t = pre +:+ slice_from (len pre) t.
Proof.
  induction pre as [|a pre IH]; intros t Hp.
  - unfold slice_from, len. cbn. rewrite Nat.sub_0_r. by rewrite substring_all.
  - destruct t as [|b t]; [done|]. cbn [String.prefix] in Hp.
    destruct (ascii_dec a b) as [->|]; [|done].
    rewrite append_cons. f_equal. rewrite (IH t Hp) at 1. done.
Qed.

Lemma firstWithPrefix_sound pre l :
  firstWithPrefix pre l = "" ∨
  ∃ t, t ∈ l ∧ t = pre +:+ firstWithPrefix pre l.
Proof.
  induction l as [|t l IH]; [by left|]. cbn [firstWithPrefix].
  destruct (strings_HasPrefix t pre) eqn:Ht.
  - right. exists t. split; [left|]. by apply prefix_split.
  - destruct IH as [?|(t' & ? & ?)]; [by left|right]. exists t'. split; [by right|done].
Qed.

Lemma getKeyValue_token range th key :
  enumerates range →
  (getKeyValue range th key ≠ "" →
     key +:+ "=" +:+ getKeyValue range th key ∈ th) ∧
  ((∀ v, key +:+ "=" +:+ v ∉ th) → getKeyValue range th key = "").
Proof.
  intros Hr. unfold getKeyValue.
  destruct (firstWithPrefix_sound (key +:+ "=") (range th)) as [He|(t & Hin & Ht)].
  - rewrite He. split; [done|]. done.
  - apply (enumerates_elem range) in Hin; [|done]. rewrite append_assoc in Ht.
    split.
    + intros _. by rewrite <- Ht.
    + intros Hno. exfalso. apply (Hno (firstWithPrefix (key +:+ "=") (range th))).
      by rewrite <- Ht.
Qed.

(** X2: whatever the order of the loop of line 51, a value [getKeyValue]
    returns that is not empty is the value of a token [key=value] of the
    header, and a header without a token [key=...] gives the empty string. *)
Theorem getKeyValue_sound range th key :
  enumerates range →
  (getKeyValue range th key ≠ "" →
     key +:+ "=" +:+ getKeyValue range th key ∈ th) ∧
  ((∀ v, key +:+ "=" +:+ v ∉ th) → getKeyValue range th key = "").
Proof. apply getKeyValue_token. Qed.

Lemma getKeyValue_sound_witness :
  "interleaved" +:+ "=" +:+
    getKeyValue Sample.inOrder
      (newTransportHeader "RTP/AVP/TCP;unicast;interleaved=0-1") "interleaved"
  ∈ newTransportHeader "RTP/AVP/TCP;unicast;interleaved=0-1".
Proof.
  apply (getKeyValue_sound Sample.inOrder
           (newTransportHeader "RTP/AVP/TCP;unicast;interleaved=0-1") "interleaved"
           inOrder_enumerates).
  by vm_compute.
Defined.

Lemma split_nonempty s sep : strings_Split s sep ≠ [].
Proof.
  induction s as [|a s IH]; [done|]. cbn [strings_Split].
  destruct (Ascii.eqb a sep); [done|]. by destruct (strings_Split s sep).
Qed.

Lemma split_parts s sep : ∀ x, x ∈ strings_Split s sep → hasByte sep x = false.
Proof.
  induction s as [|a s IH]; intros x Hx.
  - apply list_elem_of_singleton in Hx as ->. done.
  - cbn [strings_Split] in Hx. destruct (Ascii.eqb_spec a sep) as [->|Hne].
    + apply elem_of_cons in Hx as [->|Hx]; [done|]. by apply IH.
    + destruct (strings_Split s sep) as [|y r] eqn:Hs; [by destruct (split_nonempty s sep)|].
      apply elem_of_cons in Hx as [->|Hx].
      * cbn. rewrite (proj2 (Ascii.eqb_neq a sep) Hne). apply IH. by left.
      * apply IH. by right.
Qed.

Lemma parseDigits_mono s : ∀ acc n,
  (0 ≤ acc)%Z → parseDigits s acc = Some n → (acc ≤ n)%Z.
Proof.
  induction s as [|a s IH]; intros acc n Hacc H; cbn in H.
  - simplify_eq. lia.
  - destruct (digitValue a) as [d|] eqn:Hd; [|done].
    assert (0 ≤ d)%Z by (unfold digitValue in Hd; case_match; simplify_eq; lia).
    apply IH in H; lia.
Qed.

(** A string without ['-'] parses to a number that is not negative. *)
Lemma ParseInt_unsigned s n :
  hasByte "-" s = false → strconv_ParseInt s = Some n → (0 ≤ n < 2 ^ 63)%Z.
Proof.
  intros Hs H. unfold strconv_ParseInt in H.
  assert (∀ d, d ≠ "" → match d with
            | "" => None
            | _ => match parseDigits d 0 with
                   | Some n => if (n <? 2 ^ 63)%Z then Some n else None
                   | None => None
                   end end = Some n → (0 ≤ n < 2 ^ 63)%Z) as Hpos.
  { intros d Hd Hm. destruct d; [done|].
    destruct (parseDigits _ 0) as [m|] eqn:Hp; [|done].
    destruct (Z.ltb_spec m (2 ^ 63)); [|done]. simplify_eq.
    apply parseDigits_mono in Hp; lia. }
  destruct s as [|a s]; [done|].
  destruct (ascii_dec a "-") as [->|Hm]; [done|].
  destruct (ascii_dec a "+") as [->|Hp].
  - destruct s; [done|]. by apply (Hpos (String a s)).
  - apply (Hpos (String a s)); [done|]. revert H.
    destruct a as [[] [] [] [] [] [] [] []]; try done.
Qed.

Lemma getClientPorts_bounds range th :
  (0 ≤ (getClientPorts range th).1 < 2 ^ 63)%Z ∧
  (0 ≤ (getClientPorts range th).2 < 2 ^ 63)%Z.
Proof.
  unfold getClientPorts.
  destruct (_ =? "") eqn:He; [cbn; lia|].
  destruct (strings_Split _ "-") as [|s1 [|s2 [|s3 r]]] eqn:Hs; try (cbn; lia).
  assert (hasByte "-" s1 = false ∧ hasByte "-" s2 = false) as [H1 H2].
  { split; eapply split_parts; rewrite Hs; set_solver. }
  destruct (strconv_ParseInt s1) as [p1|] eqn:Hp1; [|cbn; lia].
  destruct (strconv_ParseInt s2) as [p2|] eqn:Hp2; [|cbn; lia].
  cbn [fst snd]. split; [by apply (ParseInt_unsigned s1) | by apply (ParseInt_unsigned s2)].
Qed.

(** X3: whatever the header and the order of the loop, the two ports
    [getClientPorts] returns are between [0] and the greatest [int]: the
    value of [client_port] is split at every ['-'], so no part has a sign. *)
Theorem getClientPorts_never_negative range th :
  (0 ≤ (getClientPorts range th).1 < 2 ^ 63)%Z ∧
  (0 ≤ (getClientPorts range th).2 < 2 ^ 63)%Z.
Proof. apply getClientPorts_bounds. Qed.

Lemma digitValue_char d : (d < 10)%N → digitValue (pretty_N_char d) = Some (Z.of_N d).
Proof.
  intros Hd.
  assert (d = 0 ∨ d = 1 ∨ d = 2 ∨ d = 3 ∨ d = 4 ∨ d = 5 ∨ d = 6 ∨ d = 7 ∨ d = 8 ∨ d = 9)%N
    as Hc by lia.
  repeat destruct Hc as [->|Hc]; try done. by subst.
Qed.

Lemma parseDigits_pretty x : ∀ s,
  parseDigits (pretty_N_go x s) 0 = parseDigits s (Z.of_N x).
Proof.
  induction (N.lt_wf_0 x) as [x _ IH]; intros s.
  assert (x = 0 ∨ 0 < x)%N as [->|Hx] by lia; [by rewrite pretty_N_go_0|].
  rewrite pretty_N_go_step by done. rewrite IH by (by apply N.div_lt).
  cbn [parseDigits]. rewrite digitValue_char by (by apply N.mod_lt).
  f_equal. rewrite (N.div_mod x 10) at 3 by done. lia.
Qed.

Lemma hasByte_pretty a x : ∀ s,
  (∀ d, pretty_N_char d ≠ a) → hasByte a (pretty_N_go x s) = hasByte a s.
Proof.
  induction (N.lt_wf_0 x) as [x _ IH]; intros s Ha.
  assert (x = 0 ∨ 0 < x)%N as [->|Hx] by lia; [by rewrite pretty_N_go_0|].
  rewrite pretty_N_go_step by done. rewrite IH by (done || by apply N.div_lt).
  cbn [hasByte]. by rewrite (proj2 (Ascii.eqb_neq _ _) (Ha _)).
Qed.

Lemma not_a_digit a : digitValue a = None → ∀ d, pretty_N_char d ≠ a.
Proof.
  intros Ha d <-. revert Ha. unfold pretty_N_char. by repeat case_match.
Qed.

Lemma hasByte_pretty_Z a z :
  (0 ≤ z)%Z → digitValue a = None → hasByte a (pretty z) = false.
Proof.
  intros Hz Ha. destruct z as [|x|x]; [| |lia].
  - change (pretty 0%Z) with "0". cbn [hasByte].
    destruct (Ascii.eqb_spec "0"%char a) as [<-|]; [by vm_compute in Ha | done].
  - unfold pretty, pretty_Z, pretty, pretty_positive, pretty, pretty_N.
    rewrite decide_False by done. rewrite hasByte_pretty; [done|]. by apply not_a_digit.
Qed.

Lemma pretty_N_go_head x s :
  (0 < x)%N → ∃ d s', pretty_N_go x s = String (pretty_N_char d) s'.
Proof.
  revert s. induction (N.lt_wf_0 x) as [x _ IH]; intros s Hx.
  rewrite pretty_N_go_step by done.
  destruct (N.eq_0_gt_0_cases (x `div` 10)) as [->|Hd].
  - rewrite pretty_N_go_0. eauto.
  - apply IH; [by apply N.div_lt | done].
Qed.

(** [strconv.ParseInt] reads back what [%d] prints. *)
Lemma ParseInt_pretty z :
  (0 ≤ z < 2 ^ 63)%Z → strconv_ParseInt (pretty z) = Some z.
Proof.
  intros Hz. destruct z as [|x|x]; [done| |lia].
  unfold pretty, pretty_Z, pretty, pretty_positive, pretty, pretty_N.
  rewrite decide_False by done.
  destruct (pretty_N_go_head (N.pos x) "") as (d & s' & Hs); [lia|].
  pose proof (parseDigits_pretty (N.pos x) "") as Hp. rewrite Hs in *.
  unfold strconv_ParseInt.
  assert (pretty_N_char d ≠ "+"%char ∧ pretty_N_char d ≠ "-"%char) as [H1 H2]
    by (split; by apply not_a_digit).
  destruct (pretty_N_char d) as [[] [] [] [] [] [] [] []] eqn:Hd; try done.
  all: rewrite Hp; cbn [parseDigits]; by destruct (Z.ltb_spec (Z.of_N (N.pos x)) (2 ^ 63)); [|lia].
Qed.

Lemma split_whole s sep : hasByte sep s = false → strings_Split s sep = [s].
Proof.
  induction s as [|a s IH]; [done|]. cbn. intros [Ha Hs]%orb_false_iff.
  rewrite Ha. by rewrite IH.
Qed.

Lemma split_append s1 sep s2 :
  hasByte sep s1 = false →
  strings_Split (s1 +:+ String sep s2) sep = s1 :: strings_Split s2 sep.
Proof.
  induction s1 as [|a s1 IH].
  - intros _. change ("" +:+ String sep s2) with (String sep s2).
    cbn [strings_Split]. by rewrite Ascii.eqb_refl.
  - cbn [hasByte]. intros [Ha Hs]%orb_false_iff. rewrite append_cons.
    cbn [strings_Split]. rewrite Ha. by rewrite IH.
Qed.

Lemma split_sprintf a b :
  (0 ≤ a)%Z → (0 ≤ b)%Z → strings_Split (sprintf_d_d a b) "-" = [pretty a; pretty b].
Proof.
  intros Ha Hb. unfold sprintf_d_d.
  change ("-" +:+ pretty b) with (String "-" (pretty b)).
  rewrite split_append by (by apply hasByte_pretty_Z).
  by rewrite split_whole by (by apply hasByte_pretty_Z).
Qed.

Lemma pretty_nonempty (z : Z) : pretty z ≠ "".
Proof.
  destruct z as [|x|x]; [done| |done].
  unfold pretty, pretty_Z, pretty, pretty_positive, pretty, pretty_N.
  rewrite decide_False by done.
  destruct (pretty_N_go_head (N.pos x) "") as (d & s' & ->); [lia|done].
Qed.

Lemma getClientPorts_proposed range th (a b : Z) :
  enumerates range →
  proposals th "client_port" = ["client_port=" +:+ sprintf_d_d a b] →
  (0 ≤ a < 2 ^ 63)%Z → (0 ≤ b < 2 ^ 63)%Z →
  getClientPorts range th = (a, b).
Proof.
  intros Hr Hp Ha Hb. unfold getClientPorts.
  rewrite (getKeyValue_proposed range th "client_port" (sprintf_d_d a b)) by done.
  rewrite split_sprintf by lia.
  rewrite !ParseInt_pretty by done.
  destruct (String.eqb_spec (sprintf_d_d a b) "") as [He|_]; [|done].
  exfalso. unfold sprintf_d_d in He.
  destruct (pretty a) eqn:Hpa; [by destruct (pretty_nonempty a)|done].
Qed.

(** X4: when the one token [client_port=...] of the header is the decimal
    text of two numbers [a] and [b] between [0] and the greatest [int],
    joined by ['-'], [getClientPorts] returns [(a, b)]. *)
Theorem getClientPorts_reads_ports range th (a b : Z) :
  enumerates range →
  proposals th "client_port" = ["client_port=" +:+ sprintf_d_d a b] →
  (0 ≤ a < 2 ^ 63)%Z → (0 ≤ b < 2 ^ 63)%Z →
  getClientPorts range th = (a, b).
Proof. apply getClientPorts_proposed. Qed.

Lemma getClientPorts_reads_ports_witness :
  getClientPorts Sample.inOrder
    (newTransportHeader "RTP/AVP;unicast;client_port=5000-5001")
  = (5000%Z, 5001%Z).
Proof.
  apply (getClientPorts_reads_ports Sample.inOrder
           (newTransportHeader "RTP/AVP;unicast;client_port=5000-5001") 5000 5001
           inOrder_enumerates); [by vm_compute | lia | lia].
Defined.

Lemma split_one sep v : ∀ s, strings_Split v sep = [s] → v = s.
Proof.
  induction v as [|c v IH]; intros s; [by intros [= <-]|]. cbn [strings_Split].
  destruct (Ascii.eqb c sep).
  - intros [= _ Hs]. by destruct (split_nonempty v sep).
  - destruct (strings_Split v sep) as [|x r] eqn:Hv; [by destruct (split_nonempty v sep)|].
    intros [= <- ->]. f_equal. by apply IH.
Qed.

Lemma split_two sep val : ∀ s1 s2,
  strings_Split val sep = [s1; s2] → val = s1 +:+ String sep s2.
Proof.
  induction val as [|a v IH]; intros s1 s2; [done|]. cbn [strings_Split].
  destruct (Ascii.eqb_spec a sep) as [->|Hne].
  - intros [= <- Hs]. apply split_one in Hs as ->. done.
  - destruct (strings_Split v sep) as [|x r] eqn:Hv; [done|].
    intros [= <- ->]. rewrite append_cons. f_equal. by apply IH.
Qed.

(** X5: ports other than [(0, 0)] come from a token [client_port=s1-s2] of
    the header whose two parts [strconv.ParseInt] reads as the two ports; a
    header without such a token, or with a value of another shape, gives
    [(0, 0)]. *)
Theorem getClientPorts_sound range th (a b : Z) :
  enumerates range →
  getClientPorts range th = (a, b) →
  (a, b) = (0, 0)%Z ∨
  ∃ s1 s2, "client_port=" +:+ s1 +:+ "-" +:+ s2 ∈ th ∧
           strconv_ParseInt s1 = Some a ∧ strconv_ParseInt s2 = Some b.
Proof.
  intros Hr. unfold getClientPorts.
  destruct (String.eqb_spec (getKeyValue range th "client_port") "") as [He|He];
    [intros [= <- <-]; by left|].
  destruct (strings_Split _ "-") as [|s1 [|s2 [|s3 r]]] eqn:Hs;
    try (intros [= <- <-]; by left).
  destruct (strconv_ParseInt s1) as [p1|] eqn:Hp1; [|intros [= <- <-]; by left].
  destruct (strconv_ParseInt s2) as [p2|] eqn:Hp2; [|intros [= <- <-]; by left].
  intros [= <- <-]. right. exists s1, s2. split; [|done].
  apply split_two in Hs.
  destruct (getKeyValue_token range th "client_port" Hr) as [Hin _].
  specialize (Hin He). rewrite Hs in Hin. exact Hin.
Qed.

Lemma getClientPorts_sound_witness :
  (5000, 5001)%Z = (0, 0)%Z ∨
  ∃ s1 s2,
    "client_port=" +:+ s1 +:+ "-" +:+ s2
      ∈ newTransportHeader "RTP/AVP;unicast;client_port=5000-5001" ∧
    strconv_ParseInt s1 = Some 5000%Z ∧ strconv_ParseInt s2 = Some 5001%Z.
Proof.
  apply (getClientPorts_sound Sample.inOrder
           (newTransportHeader "RTP/AVP;unicast;client_port=5000-5001") 5000 5001
           inOrder_enumerates).
  by vm_compute.
Defined.

Lemma split_join ts :
  ts ≠ [] → Forall (λ t, hasByte ";" t = false) ts →
  strings_Split (strings_Join ts ";") ";" = ts.
Proof.
  intros Hne Hall. unfold strings_Join.
  induction Hall as [|t ts Ht Hall IH]; [done|]. clear Hne.
  destruct ts as [|t' ts]; [by apply split_whole|].
  cbn [String.concat]. change (";" +:+ ?s) with (String ";" s).
  rewrite split_append by done. f_equal. by apply IH.
Qed.

(** X6: the header made of tokens without [';'] joined by [';'] is read as
    the set of these tokens, so neither their order nor a repetition
    matters: two lists of tokens that are permutations of each other give
    the same header. *)
Theorem transport_header_of_joined_tokens ts ts' :
  ts ≠ [] → Forall (λ t, hasByte ";" t = false) ts → ts' ≡ₚ ts →
  newTransportHeader (strings_Join ts ";") = list_to_set ts ∧
  newTransportHeader (strings_Join ts' ";") = newTransportHeader (strings_Join ts ";").
Proof.
  intros Hne Hall Hperm.
  assert (ts' ≠ []) as Hne' by (intros ->; by apply Permutation_nil_l in Hperm).
  assert (Forall (λ t, hasByte ";" t = false) ts') as Hall' by (by rewrite Hperm).
  unfold newTransportHeader. rewrite !split_join by done.
  split; [done|]. by rewrite Hperm.
Qed.

Lemma transport_header_of_joined_tokens_witness :
  newTransportHeader (strings_Join ["RTP/AVP"; "unicast"; "mode=record"] ";")
  = list_to_set ["RTP/AVP"; "unicast"; "mode=record"] ∧
  newTransportHeader (strings_Join ["mode=record"; "RTP/AVP"; "unicast"] ";")
  = newTransportHeader (strings_Join ["RTP/AVP"; "unicast"; "mode=record"] ";").
Proof.
  apply (transport_header_of_joined_tokens
           ["RTP/AVP"; "unicast"; "mode=record"] ["mode=record"; "RTP/AVP"; "unicast"]).
  - done.
  - repeat constructor.
  - apply (Permutation_cons_append ["RTP/AVP"; "unicast"] "mode=record").
Defined.

(** The header of an empty string is not empty: it has the empty token. *)
Example transport_header_of_nothing : newTransportHeader "" = {[ "" ]}.
Proof. by vm_compute. Qed.

(** ** The moves of a client *)

Lemma otherProtocol_false cl proto :
  otherProtocol cl proto = false → streamTracks cl = [] ∨ streamProtocol cl = proto.
Proof.
  unfold otherProtocol. intros [H|H]%andb_false_iff.
  - left. destruct (streamTracks cl); [done|]. cbn in H. done.
  - right. apply negb_false_iff, bool_decide_eq_true in H. done.
Qed.

Lemma udp_track range th a b :
  getClientPorts range th = (a, b) → (a =? 0)%Z = false → (b =? 0)%Z = false →
  trackFor _STREAM_PROTOCOL_UDP {| rtpPort := a; rtcpPort := b |}.
Proof.
  intros Hg Ha Hb.
  pose proof (getClientPorts_bounds range th) as [H1 H2].
  rewrite Hg in H1, H2. cbn in *. lia.
Qed.

Lemma handleRequest_move L range p c cl req p' r :
  p_mem p !! c = Some cl →
  handleRequest L range p c req = Ret (p', r) → move p c cl p'.
Proof.
  intros Hc. unfold_handler. rewrite Hc. intros H.
  repeat case_match; simplify_eq; eqb_hyps; try apply move_none.
  all: try (eapply move_announce; done).
  all: try (eapply move_pause; done).
  all: repeat match goal with
       | H : (length _ <=? length _)%nat = false |- _ => apply Nat.leb_gt in H
       | H : otherProtocol _ _ = false |- _ => apply otherProtocol_false in H
       end.
  all: match goal with
       | |- move _ _ _ (store _ _ (appendTrack _ "PRE_PLAY" _ _ _)) =>
           match goal with
           | Hp : p_publishers _ !! _ = Some ?n, Hm : p_mem _ !! ?n = Some ?c0,
             Hs : streamSdpParsed ?c0 = Some ?m |- _ =>
               eapply (move_setup_play _ _ _ _ _ _ m); [| |by exists n, c0|done|done|]
           end
       | |- move _ _ ?x (store _ _ (appendTrack _ "PRE_RECORD" _ _ _)) =>
           match goal with
           | Hs : streamSdpParsed x = Some ?m |- _ =>
               eapply (move_setup_record _ _ _ _ _ m); [|done|done|done|]
           end
       end.
  all: try (by eapply udp_track).
  all: try done.
  all: repeat match goal with H : _ ∨ _ |- _ => destruct H end; eqb_hyps; auto.
Qed.

Lemma handleRequest_play L range p c cl req p' res :
  p_mem p !! c = Some cl →
  handleRequest L range p c req = Ret (p', (res, Some errPlay)) →
  state cl = "PRE_PLAY" ∧
  ∃ m, streamOn p (path cl) m ∧ length (streamTracks cl) = length (Medias m).
Proof.
  intros Hc. unfold_handler. rewrite Hc. intros H.
  repeat case_match; simplify_eq; eqb_hyps.
  split; [done|]. eexists. split; [by eexists _, _|]. by apply Nat.eqb_eq.
Qed.

Lemma handleRequest_record L range p c cl req p' res :
  p_mem p !! c = Some cl →
  handleRequest L range p c req = Ret (p', (res, Some errRecord)) →
  state cl = "PRE_RECORD" ∧
  ∃ m, streamSdpParsed cl = Some m ∧ length (streamTracks cl) = length (Medias m).
Proof.
  intros Hc. unfold_handler. rewrite Hc. intros H.
  repeat case_match; simplify_eq; eqb_hyps.
  split; [done|]. eexists. split; [done|]. by apply Nat.eqb_eq.
Qed.

Lemma serve_move L range p c cl req writeOk p' evs ctl :
  p_mem p !! c = Some cl →
  serve L range p c req writeOk = Ret (p', evs, ctl) → move p c cl p'.
Proof.
  intros Hc. unfold serve, enterStream.
  destruct (handleRequest L range p c req) as [[p1 [res err]]|] eqn:Hh; [|done].
  destruct err as [e|].
  - destruct (handleRequest_error _ _ _ _ _ _ _ _ Hh) as [-> _]. rewrite Hc.
    destruct e.
    + intros [= <- _ _]. apply move_none.
    + destruct (handleRequest_play _ _ _ _ _ _ _ _ Hc Hh) as (Hst & m & Hon & Hlen).
      repeat case_match; intros; simplify_eq; try apply move_none.
      all: by eapply move_play.
    + destruct (handleRequest_record _ _ _ _ _ _ _ _ Hc Hh) as (Hst & m & Hon & Hlen).
      repeat case_match; intros; simplify_eq; try apply move_none.
      all: by eapply move_record.
    + intros [= <- _ _]. apply move_none.
    + intros [= <- _ _]. apply move_none.
  - apply (handleRequest_move _ _ _ _ cl) in Hh; [|done].
    repeat case_match; intros; simplify_eq; done.
Qed.

(** X7: a turn of [run] is one of the seven moves of [move] (nothing,
    ANNOUNCE, the SETUP of a reader, the SETUP of a publisher, PLAY, PAUSE,
    RECORD), each under the conditions the handler checks, followed by the
    close of the client when [run] returns. *)
Theorem turn_is_a_move L rangeT rangeC p c cl req writeOk p' evs ctl :
  p_mem p !! c = Some cl →
  turn L rangeT rangeC p c req writeOk = Ret (p', evs, ctl) →
  ∃ p1, move p c cl p1 ∧
        (ctl = Return → close rangeC p1 c = Ret p') ∧
        (ctl ≠ Return → p' = p1).
Proof.
  intros Hc. unfold turn.
  destruct (serve L rangeT p c req writeOk) as [[[p1 evs1] ctl1]|] eqn:Hs; [|done].
  pose proof (serve_move _ _ _ _ _ _ _ _ _ _ Hc Hs) as Hm.
  destruct ctl1; intros H; simplify_eq; try (exists p'; by repeat split).
  destruct (close rangeC p1 c) as [p2|] eqn:Hcl; [|done]. simplify_eq.
  exists p1. by repeat split.
Qed.

Lemma turn_is_a_move_witness :
  ∃ p1, move Sample.started 0 (Sample.clientAt Sample.started 0) p1 ∧
        (Continue = Return → close Sample.inOrder p1 0 = Ret Sample.announced) ∧
        (Continue ≠ Return → Sample.announced = p1).
Proof.
  apply (turn_is_a_move Sample.libs Sample.inOrder Sample.inOrder Sample.started 0
           (Sample.clientAt Sample.started 0)
           (Sample.announce Sample.camUrl Sample.oneMedia) true Sample.announced
           [WriteResponse 0 (response200 {[ "CSeq" := "2" ]} [])] Continue);
    by vm_compute.
Defined.

(** ** The tracks of the reachable programs *)

Lemma Streams_initial key rtp rtcp : Streams (initial key rtp rtcp).
Proof. split; cbn; intros *; try rewrite lookup_empty; done. Qed.

Lemma streamOn_store p c cl cl' pth m :
  p_mem p !! c = Some cl → streamSdpParsed cl' = streamSdpParsed cl →
  streamOn p pth m → streamOn (store p c cl') pth m.
Proof.
  intros Hc Hs (pub & pcl & Hp & Hm & Hsdp). destruct (decide (pub = c)) as [->|Hne].
  - exists c, cl'. cbn. rewrite lookup_insert_eq. simplify_eq. split; [done|].
    split; [done|]. congruence.
  - exists pub, pcl. cbn. by rewrite lookup_insert_ne.
Qed.

Lemma streamOn_fresh p c cl' pth m :
  p_mem p !! c = None → streamOn p pth m → streamOn (store p c cl') pth m.
Proof.
  intros Hc (pub & pcl & Hp & Hm & Hsdp). exists pub, pcl. cbn.
  rewrite lookup_insert_ne; [done|]. congruence.
Qed.

Lemma streamOn_announce p c cl cl' pth k m :
  p_mem p !! c = Some cl → streamSdpParsed cl = None →
  p_publishers p !! k = None →
  streamOn p pth m →
  streamOn (setPublishers (store p c cl') (<[k := c]> (p_publishers p))) pth m.
Proof.
  intros Hc Hs Hk (pub & pcl & Hp & Hm & Hsdp). exists pub, pcl. cbn.
  rewrite lookup_insert_ne by congruence.
  rewrite lookup_insert_ne by congruence. done.
Qed.

Lemma not_reading st : st = "STARTING" ∨ publishing st → ¬ reading st.
Proof.
  unfold publishing, reading. intros [->|[->|[->| ->]]] [H|H]; discriminate.
Qed.

Lemma not_publishing' st : st = "STARTING" ∨ reading st → ¬ publishing st.
Proof.
  unfold publishing, reading. intros [->|[->| ->]] [H|[H|H]]; discriminate.
Qed.

Lemma Streams_newClient p : Streams p → Streams (newClient p).1.
Proof.
  intros [Hst Hs Hp Hr Ht Ho]. pose proof (newClient_fresh p) as Hf. cbn in Hf.
  assert (∀ x xl, p_mem (newClient p).1 !! x = Some xl →
            xl = newClientValue ∧ x = fresh (dom (p_mem p)) ∨ p_mem p !! x = Some xl) as Hcase.
  { intros x xl. cbn. destruct (decide (x = fresh (dom (p_mem p)))) as [->|].
    - rewrite lookup_insert_eq. intros [= <-]. by left.
    - rewrite lookup_insert_ne by done. by right. }
  split.
  - intros x xl [[-> _]|Hx]%Hcase; [by left | eauto].
  - intros x xl [[-> _]|Hx]%Hcase; [done | eauto].
  - intros x xl [[-> _]|Hx]%Hcase; [|eauto].
    intros Hb. exfalso. revert Hb. apply not_publishing'. by left.
  - intros x xl Hin [[-> _]|Hx]%Hcase Hrd.
    + exfalso. revert Hrd. apply not_reading. by left.
    + assert (x ∈ p_clients p) as Hin'.
      { cbn in Hin. apply elem_of_union in Hin as [->%elem_of_singleton|]; [|done].
        congruence. }
      destruct (Hr x xl Hin' Hx Hrd) as (m & Hon & ?). exists m. split; [|done].
      destruct Hon as (pub & pcl & ? & ? & ?). exists pub, pcl. cbn.
      rewrite lookup_insert_ne; [done|]. congruence.
  - intros x xl tr [[-> _]|Hx]%Hcase; [by intros ?%elem_of_nil | eauto].
  - intros x xl Hin [[-> _]|Hx]%Hcase; [done|]. apply (Ho x); [|done].
    cbn in Hin. apply elem_of_union in Hin as [->%elem_of_singleton|]; [|done].
    congruence.
Qed.

(** A client's object changes and keeps its session description. *)
Lemma Streams_store p c cl cl' :
  Streams p → p_mem p !! c = Some cl →
  streamSdpParsed cl' = streamSdpParsed cl →
  rconnClosed cl' = rconnClosed cl →
  state cl' ≠ "STARTING" →
  (publishing (state cl') ∧
     (∃ m, streamSdpParsed cl' = Some m ∧
        (length (streamTracks cl') ≤ length (Medias m))%nat ∧
        (state cl' = "ANNOUNCE" → streamTracks cl' = []) ∧
        (state cl' = "PRE_RECORD" → streamTracks cl' ≠ []) ∧
        (state cl' = "RECORD" → length (streamTracks cl') = length (Medias m)))
   ∨ reading (state cl') ∧
     (c ∈ p_clients p →
      ∃ m, streamOn p (path cl') m ∧ streamTracks cl' ≠ [] ∧
        (length (streamTracks cl') ≤ length (Medias m))%nat ∧
        (state cl' = "PLAY" → length (streamTracks cl') = length (Medias m)))) →
  (∀ tr, tr ∈ streamTracks cl' → trackFor (streamProtocol cl') tr) →
  Streams (store p c cl').
Proof.
  intros [Hst Hs Hp Hr Ht Ho] Hc Hsdp Hclosed Hne Hrole Htr.
  assert (∀ x xl, p_mem (store p c cl') !! x = Some xl →
            x = c ∧ xl = cl' ∨ x ≠ c ∧ p_mem p !! x = Some xl) as Hcase.
  { intros x xl. cbn. destruct (decide (x = c)) as [->|].
    - rewrite lookup_insert_eq. intros [= <-]. by left.
    - rewrite lookup_insert_ne by done. by right. }
  split.
  - intros x xl [[-> ->]|[_ Hx]]%Hcase; [|eauto].
    destruct Hrole as [[? _]|[? _]]; auto.
  - intros x xl [[-> ->]|[_ Hx]]%Hcase; [done|eauto].
  - intros x xl [[-> ->]|[_ Hx]]%Hcase; [|eauto].
    intros Hb. destruct Hrole as [[_ ?]|[Hrd _]]; [done|].
    exfalso. revert Hb. apply not_publishing'. by right.
  - intros x xl Hin [[-> ->]|[_ Hx]]%Hcase Hrd.
    + destruct Hrole as [[Hb _]|[_ Hm]].
      * exfalso. revert Hrd. apply not_reading. by right.
      * destruct (Hm Hin) as (m & Hon & ?). exists m. split; [|done].
        by eapply streamOn_store.
    + destruct (Hr x xl Hin Hx Hrd) as (m & Hon & ?). exists m. split; [|done].
      by eapply streamOn_store.
  - intros x xl tr [[-> ->]|[_ Hx]]%Hcase; eauto.
  - intros x xl Hin [[-> ->]|[_ Hx]]%Hcase; [|eauto]. rewrite Hclosed. eauto.
Qed.

Lemma Streams_move p c cl p' :
  Streams p → p_mem p !! c = Some cl → move p c cl p' → Streams p'.
Proof.
  intros HS Hc Hm. pose proof HS as [Hst Hs Hp Hr Ht Ho].
  destruct Hm as [|pth text m Hstate Hfree
                  |pth proto tr m Hstate Hpath Hon Hlen Hproto Htr
                  |proto tr m Hstate Hsdp Hlen Hproto Htr
                  |m Hstate Hon Hlen
                  |Hstate
                  |m Hstate Hsdp Hlen]; [done|..].
  - (* ANNOUNCE *)
    destruct (Hs c cl Hc Hstate) as (Hpa & Htr & Hsdp & Htext).
    split; cbn.
    + intros x xl. destruct (decide (x = c)) as [->|].
      * rewrite lookup_insert_eq. intros [= <-]. cbn. right. left. by left.
      * rewrite lookup_insert_ne by done. eauto.
    + intros x xl. destruct (decide (x = c)) as [->|].
      * rewrite lookup_insert_eq. intros [= <-]. done.
      * rewrite lookup_insert_ne by done. eauto.
    + intros x xl. destruct (decide (x = c)) as [->|].
      * rewrite lookup_insert_eq. intros [= <-] _. cbn. exists m.
        rewrite Htr. cbn. repeat split; try done; lia.
      * rewrite lookup_insert_ne by done. eauto.
    + intros x xl Hin. destruct (decide (x = c)) as [->|].
      * rewrite lookup_insert_eq. intros [= <-] Hrd. exfalso. revert Hrd.
        apply not_reading. right. by left.
      * rewrite lookup_insert_ne by done. intros Hx Hrd.
        destruct (Hr x xl Hin Hx Hrd) as (m' & Hon & ?). exists m'. split; [|done].
        by eapply streamOn_announce.
    + intros x xl t. destruct (decide (x = c)) as [->|].
      * rewrite lookup_insert_eq. intros [= <-]. cbn. eauto.
      * rewrite lookup_insert_ne by done. eauto.
    + intros x xl Hin. destruct (decide (x = c)) as [->|].
      * rewrite lookup_insert_eq. intros [= <-]. cbn. eauto.
      * rewrite lookup_insert_ne by done. eauto.
  - (* SETUP of a reader *)
    apply (Streams_store p c cl); try done.
    + right. split; [by left|]. intros _. exists m. cbn. rewrite length_app. cbn.
      split; [done|]. split; [by destruct (streamTracks cl)|]. split; [lia|done].
    + cbn. intros t [Hin| ->%list_elem_of_singleton]%elem_of_app; [|done].
      destruct Hproto as [Hnil|Heq]; [|rewrite <- Heq; eauto]. rewrite Hnil in Hin.
      by apply elem_of_nil in Hin.
  - (* SETUP of a publisher *)
    assert (publishing (state cl)) as Hpub by (unfold publishing; tauto).
    apply (Streams_store p c cl); try done.
    + left. split; [right; by left|]. exists m. cbn. rewrite length_app. cbn.
      split; [done|]. split; [lia|]. split; [done|].
      split; [by destruct (streamTracks cl)|done].
    + cbn. intros t [Hin| ->%list_elem_of_singleton]%elem_of_app; [|done].
      destruct Hproto as [Hnil|Heq]; [|rewrite <- Heq; eauto]. rewrite Hnil in Hin.
      by apply elem_of_nil in Hin.
  - (* PLAY *)
    apply (Streams_store p c cl); try done; [|cbn; eauto].
    right. split; [by right|]. intros Hin. exists m. cbn.
    assert (reading (state cl)) as Hrd by (by left).
    destruct (Hr c cl Hin Hc Hrd) as (_ & _ & Hne & _).
    split; [done|]. split; [done|]. split; [lia|done].
  - (* PAUSE *)
    apply (Streams_store p c cl); try done; [|cbn; eauto].
    right. split; [by left|]. intros Hin. cbn.
    assert (reading (state cl)) as Hrd by (by right).
    destruct (Hr c cl Hin Hc Hrd) as (m & Hon & Hne & Hle & _). exists m. done.
  - (* RECORD *)
    apply (Streams_store p c cl); try done; [|cbn; eauto].
    left. split; [right; by right|]. exists m. cbn.
    split; [done|]. split; [lia|]. split; [done|]. split; [|done].
    intros _. assert (publishing (state cl)) as Hpub by (right; by left).
    destruct (Hp c cl Hc Hpub) as (m' & _ & _ & _ & Hne & _). auto.
Qed.

Lemma closedBy_object D q q' x xl' :
  closedBy D q q' → p_mem q' !! x = Some xl' →
  ∃ xl, p_mem q !! x = Some xl ∧ (xl' = xl ∨ xl' = withClosed xl) ∧
        (x ∉ D → xl' = xl).
Proof.
  intros [_ Hi Ho _ _ _ _] Hx. destruct (decide (x ∈ D)) as [Hd|Hd].
  - rewrite Hi in Hx by done. destruct (p_mem q !! x) as [xl|]; [|done].
    cbn in Hx. simplify_eq. exists xl. split; [done|]. split; [by right|done].
  - rewrite Ho in Hx by done. exists xl'. split; [done|]. split; [by left|done].
Qed.

Lemma Streams_closedBy p p' D :
  Streams p →
  closedBy D (setPublishers p (p_publishers p')) p' →
  (p_publishers p' = p_publishers p ∨
   ∃ pth, p_publishers p' = delete pth (p_publishers p) ∧
          ∀ x, x ∈ p_clients p → pathIs p x pth → x ∈ D) →
  Streams p'.
Proof.
  intros [Hst Hs Hp Hr Ht Ho] Hby Hpub.
  split.
  - intros x xl' Hx. destruct (closedBy_object _ _ _ _ _ Hby Hx) as (xl & Hxl & [->| ->] & _);
      cbn in Hxl; cbn; eauto.
  - intros x xl' Hx. destruct (closedBy_object _ _ _ _ _ Hby Hx) as (xl & Hxl & [->| ->] & _);
      cbn in Hxl; cbn; eauto.
  - intros x xl' Hx. destruct (closedBy_object _ _ _ _ _ Hby Hx) as (xl & Hxl & [->| ->] & _);
      cbn in Hxl; cbn; eauto.
  - intros x xl' Hin Hx Hrd.
    destruct (closedBy_object _ _ _ _ _ Hby Hx) as (xl & Hxl & _ & Hout).
    pose proof Hby as [Hcs _ _ _ _ _ _]. cbn in Hcs, Hxl. rewrite Hcs in Hin.
    apply elem_of_difference in Hin as [Hin HnD]. rewrite (Hout HnD) in *.
    destruct (Hr x xl Hin Hxl Hrd) as (m & (pub & pcl & Hpp & Hpm & Hsdp) & Hrest).
    exists m. split; [|done].
    destruct (closedBy_lookup_rev _ _ _ _ _ Hby Hpm) as (pcl' & Hpm' & _ & _ & Hsdp').
    exists pub, pcl'. split; [|split; [done|congruence]].
    destruct Hpub as [->|(pth & -> & HD)]; [done|].
    rewrite lookup_delete_ne; [done|]. intros Heq. apply HnD, HD; [done|].
    unfold pathIs. rewrite Hxl. cbn. by rewrite Heq.
  - intros x xl' tr Hx. destruct (closedBy_object _ _ _ _ _ Hby Hx) as (xl & Hxl & [->| ->] & _);
      cbn in Hxl; cbn; eauto.
  - intros x xl' Hin Hx.
    destruct (closedBy_object _ _ _ _ _ Hby Hx) as (xl & Hxl & _ & Hout).
    pose proof Hby as [Hcs _ _ _ _ _ _]. cbn in Hcs, Hxl. rewrite Hcs in Hin.
    apply elem_of_difference in Hin as [Hin HnD]. rewrite (Hout HnD). eauto.
Qed.

Lemma Streams_close range p c p' :
  enumerates range → Inv p → Streams p → is_Some (p_mem p !! c) →
  close range p c = Ret p' → Streams p'.
Proof.
  intros Hr HI HS [cl Hc] Hcl. destruct (decide (c ∈ p_clients p)) as [Hin|Hin].
  - destruct (close_total range p c cl Hr (inv_clients _ HI) Hc Hin)
      as (p2 & D & Hf & Hby & HcD & Hcase).
    unfold close in Hcl. rewrite (Hf 0) in Hcl. simplify_eq.
    eapply Streams_closedBy; [done..|].
    destruct Hcase as [(_ & Hp & HD)|(_ & Hp & _)]; [right|by left].
    exists (path cl). split; [done|]. intros x Hx Hpath.
    destruct (decide (x = c)) as [->|]; [set_solver|]. apply elem_of_union. right.
    by apply HD.
  - unfold close in Hcl. rewrite closeFuel_absent in Hcl by done. by simplify_eq.
Qed.

Lemma Streams_turn L rangeT rangeC p c req writeOk p' evs ctl :
  enumerates rangeC → Inv p → Streams p →
  turn L rangeT rangeC p c req writeOk = Ret (p', evs, ctl) → Streams p'.
Proof.
  intros Hr HI HS. unfold turn.
  destruct (serve L rangeT p c req writeOk) as [[[p1 evs1] ctl1]|] eqn:Hs; [|done].
  assert (Streams p1 ∧ (is_Some (p_mem p !! c) → is_Some (p_mem p1 !! c))) as [HS1 Hc1].
  { destruct (p_mem p !! c) as [cl|] eqn:Hc.
    - pose proof (serve_move _ _ _ _ _ _ _ _ _ _ Hc Hs) as Hm.
      split; [by eapply Streams_move|]. intros _.
      destruct Hm; cbn; rewrite ?lookup_insert_eq; eauto.
    - split; [|by intros [? ?]]. revert Hs. unfold serve, handleRequest. by rewrite Hc. }
  pose proof (Inv_effect _ _ _ HI (serve_effect _ _ _ _ _ _ _ _ _ Hs)) as HI1.
  destruct ctl1; intros H; simplify_eq; try done.
  destruct (close rangeC p1 c) as [p2|] eqn:Hcl; [|done]. simplify_eq.
  destruct (p_mem p !! c) as [cl|] eqn:Hc.
  - eapply Streams_close; [done..|by apply Hc1|done].
  - revert Hs. unfold serve, handleRequest. by rewrite Hc.
Qed.

Lemma Streams_step L p p' : Inv p → Streams p → step L p p' → Streams p'.
Proof.
  intros HI HS Hs. destruct Hs.
  - by apply Streams_newClient.
  - eapply Streams_turn; [| | |eassumption]; assumption.
  - eapply Streams_close; [| | | |eassumption]; assumption.
Qed.

Lemma reachable_Streams L p : reachable L p → Streams p.
Proof.
  intros (key & rtp & rtcp & Hrtc).
  cut (Inv p ∧ Streams p); [tauto|].
  eapply (rtc_ind_r (λ q, Inv q ∧ Streams q));
    [split; [apply Inv_initial | apply Streams_initial] | | exact Hrtc].
  intros y z _ Hs [HI HS]. split; [by eapply step_Inv | by eapply Streams_step].
Qed.

(** X8: in a reachable program a client of [clients] in state PRE_PLAY or
    PLAY has a publisher on its path, at least one track and at most as many
    tracks as the publisher announced medias; in state PLAY it has as many. *)
Theorem live_reader_has_its_stream L p c cl :
  reachable L p → c ∈ p_clients p → p_mem p !! c = Some cl →
  reading (state cl) →
  ∃ m, streamOn p (path cl) m ∧ streamTracks cl ≠ [] ∧
       (length (streamTracks cl) ≤ length (Medias m))%nat ∧
       (state cl = "PLAY" → length (streamTracks cl) = length (Medias m)).
Proof. intros Hre. apply (st_reader _ (reachable_Streams _ _ Hre)). Qed.

Lemma reachable_playing : reachable Sample.libs Stream.playing.
Proof.
  apply reachable_after; [apply reachable_twoOfTwo|]. do 2 eexists. by vm_compute.
Qed.

Lemma live_reader_has_its_stream_witness :
  ∃ m, streamOn Stream.playing (path (Sample.clientAt Stream.playing 1)) m ∧
       streamTracks (Sample.clientAt Stream.playing 1) ≠ [] ∧
       (length (streamTracks (Sample.clientAt Stream.playing 1)) ≤ length (Medias m))%nat ∧
       (state (Sample.clientAt Stream.playing 1) = "PLAY" →
        length (streamTracks (Sample.clientAt Stream.playing 1)) = length (Medias m)).
Proof.
  apply (live_reader_has_its_stream Sample.libs Stream.playing 1
           (Sample.clientAt Stream.playing 1) reachable_playing).
  - by vm_compute.
  - by vm_compute.
  - right. by vm_compute.
Defined.

(** X9: in a reachable program a client in a publishing state has a session
    description and at most as many tracks as it announced medias: none in
    state ANNOUNCE, at least one in state PRE_RECORD, all of them in state
    RECORD. *)
Theorem publisher_tracks_within_medias L p c cl :
  reachable L p → p_mem p !! c = Some cl → publishing (state cl) →
  ∃ m, streamSdpParsed cl = Some m ∧
       (length (streamTracks cl) ≤ length (Medias m))%nat ∧
       (state cl = "ANNOUNCE" → streamTracks cl = []) ∧
       (state cl = "PRE_RECORD" → streamTracks cl ≠ []) ∧
       (state cl = "RECORD" → length (streamTracks cl) = length (Medias m)).
Proof. intros Hre. apply (st_publisher _ (reachable_Streams _ _ Hre)). Qed.

Lemma reachable_tracked : reachable Sample.libs Stream.tracked.
Proof.
  apply reachable_after; [apply reachable_announced|]. do 2 eexists. by vm_compute.
Qed.

Lemma reachable_recording : reachable Sample.libs Stream.recording.
Proof.
  apply reachable_after; [apply reachable_tracked|]. do 2 eexists. by vm_compute.
Qed.

Lemma publisher_tracks_within_medias_witness :
  ∃ m, streamSdpParsed (Sample.clientAt Stream.recording 0) = Some m ∧
       (length (streamTracks (Sample.clientAt Stream.recording 0)) ≤ length (Medias m))%nat ∧
       (state (Sample.clientAt Stream.recording 0) = "ANNOUNCE" →
        streamTracks (Sample.clientAt Stream.recording 0) = []) ∧
       (state (Sample.clientAt Stream.recording 0) = "PRE_RECORD" →
        streamTracks (Sample.clientAt Stream.recording 0) ≠ []) ∧
       (state (Sample.clientAt Stream.recording 0) = "RECORD" →
        length (streamTracks (Sample.clientAt Stream.recording 0)) = length (Medias m)).
Proof.
  apply (publisher_tracks_within_medias Sample.libs Stream.recording 0
           (Sample.clientAt Stream.recording 0) reachable_recording).
  - by vm_compute.
  - right. right. by vm_compute.
Defined.

(** X10: in a reachable program the tracks of a client are all of the
    protocol of the client: over UDP both ports of a track are set, between
    [1] and the greatest [int], and over TCP both are [0]. *)
Theorem tracks_share_one_protocol L p c cl tr :
  reachable L p → p_mem p !! c = Some cl → tr ∈ streamTracks cl →
  match streamProtocol cl with
  | _STREAM_PROTOCOL_UDP => (0 < rtpPort tr < 2 ^ 63)%Z ∧ (0 < rtcpPort tr < 2 ^ 63)%Z
  | _STREAM_PROTOCOL_TCP => rtpPort tr = 0%Z ∧ rtcpPort tr = 0%Z
  end.
Proof. intros Hre. apply (st_tracks _ (reachable_Streams _ _ Hre)). Qed.

Lemma tracks_share_one_protocol_witness :
  match streamProtocol (Sample.clientAt Sample.oneOfTwo 1) with
  | _STREAM_PROTOCOL_UDP => (0 < 6000 < 2 ^ 63)%Z ∧ (0 < 6001 < 2 ^ 63)%Z
  | _STREAM_PROTOCOL_TCP => 6000%Z = 0%Z ∧ 6001%Z = 0%Z
  end.
Proof.
  apply (tracks_share_one_protocol Sample.libs Sample.oneOfTwo 1
           (Sample.clientAt Sample.oneOfTwo 1) {| rtpPort := 6000; rtcpPort := 6001 |}
           reachable_oneOfTwo).
  - by vm_compute.
  - assert (streamTracks (Sample.clientAt Sample.oneOfTwo 1)
            = [{| rtpPort := 6000; rtcpPort := 6001 |}]) as -> by (by vm_compute).
    apply list_elem_of_here.
Defined.

(** X11: in a reachable program the state of a client is one of STARTING,
    ANNOUNCE, PRE_RECORD, RECORD, PRE_PLAY and PLAY, and a client in state
    STARTING has no path, no track and no session description: what it asked
    before changed nothing of it. *)
Theorem client_states L p c cl :
  reachable L p → p_mem p !! c = Some cl →
  (state cl = "STARTING" ∨ publishing (state cl) ∨ reading (state cl)) ∧
  (state cl = "STARTING" →
     path cl = "" ∧ streamTracks cl = [] ∧ streamSdpParsed cl = None ∧
     streamSdpText cl = []).
Proof.
  intros Hre Hc. pose proof (reachable_Streams _ _ Hre) as HS. split.
  - by apply (st_states _ HS c).
  - by apply (st_starting _ HS c).
Qed.

Lemma client_states_witness :
  (state (Sample.clientAt Sample.second 1) = "STARTING" ∨
   publishing (state (Sample.clientAt Sample.second 1)) ∨
   reading (state (Sample.clientAt Sample.second 1))) ∧
  (state (Sample.clientAt Sample.second 1) = "STARTING" →
     path (Sample.clientAt Sample.second 1) = "" ∧
     streamTracks (Sample.clientAt Sample.second 1) = [] ∧
     streamSdpParsed (Sample.clientAt Sample.second 1) = None ∧
     streamSdpText (Sample.clientAt Sample.second 1) = []).
Proof.
  apply (client_states Sample.libs Sample.second 1 (Sample.clientAt Sample.second 1)
           reachable_second).
  by vm_compute.
Defined.

(** X12: in a reachable program [clients] holds the clients whose socket the
    server has not closed: a client is in [clients] exactly when its socket
    is open. *)
Theorem clients_are_the_open_sockets L p c cl :
  reachable L p → p_mem p !! c = Some cl →
  c ∈ p_clients p ↔ rconnClosed cl = false.
Proof.
  intros Hre Hc. split.
  - intros Hin. by apply (st_open _ (reachable_Streams _ _ Hre) c).
  - intros Hopen. destruct (decide (c ∈ p_clients p)) as [|Hout]; [done|].
    pose proof (inv_closed _ (reachable_Inv _ _ Hre) c cl Hc Hout). congruence.
Qed.

Lemma clients_are_the_open_sockets_witness :
  1 ∈ p_clients Sample.second ↔ rconnClosed (Sample.clientAt Sample.second 1) = false.
Proof.
  apply (clients_are_the_open_sockets Sample.libs Sample.second 1
           (Sample.clientAt Sample.second 1) reachable_second).
  by vm_compute.
Defined.

(** ** The frames of a publisher *)

Lemma frameTurn_channel cl ch payload :
  (0 ≤ ch ≤ int_max)%Z →
  ((ch < 2 * Z.of_nat (length (streamTracks cl)))%Z →
     ∃ i f, frameTurn cl (ReadFrame ch payload) = ForwardTrack (path cl) i f payload ∧
            (0 ≤ i < Z.of_nat (length (streamTracks cl)))%Z ∧
            trackToInterleavedChannel i f = ch) ∧
  ((2 * Z.of_nat (length (streamTracks cl)) ≤ ch)%Z →
     frameTurn cl (ReadFrame ch payload) = FrameReturn).
Proof.
  intros Hch. unfold frameTurn.
  destruct (trackToChannel_channelToTrack ch Hch) as [Hi Henc].
  destruct (interleavedChannelToTrack ch) as [i f] eqn:Hd. cbn [fst snd] in *.
  assert (ch = 2 * i ∨ ch = 2 * i + 1)%Z as Hpar.
  { rewrite trackTo_spec in Henc by done. case_decide; lia. }
  split.
  - intros Hlt. exists i, f.
    destruct (Z.leb_spec (Z.of_nat (length (streamTracks cl))) i); [lia|].
    split; [done|]. split; [lia|done].
  - intros Hge. destruct (Z.leb_spec (Z.of_nat (length (streamTracks cl))) i); [done|lia].
Qed.

(** A channel below zero passes the check of line 251, which bounds the
    track from above only. *)
Remark frameTurn_negative_channel cl payload :
  frameTurn cl (ReadFrame (-2) payload)
  = ForwardTrack (path cl) (-1) _TRACK_FLOW_RTP payload.
Proof.
  unfold frameTurn. change (interleavedChannelToTrack (-2)) with ((-1)%Z, _TRACK_FLOW_RTP).
  cbv beta iota.
  destruct (Z.leb_spec (Z.of_nat (length (streamTracks cl))) (-1)); [lia|done].
Qed.

(** X13: for a publisher in state RECORD of a reachable program that
    announced [n] medias, the loop of lines 238-259 hands a frame on the
    channel [ch], [0 <= ch], to [forwardTrack] when [ch < 2n], with the path
    of the publisher, the payload and the track and flow that
    [trackToInterleavedChannel] maps to [ch], the track below [n]; on a
    channel from [2n] on, and on a read error, [run] returns. *)
Theorem recording_frames_forwarded L p c cl m ch payload :
  reachable L p → p_mem p !! c = Some cl → state cl = "RECORD" →
  streamSdpParsed cl = Some m → (0 ≤ ch ≤ int_max)%Z →
  ((ch < 2 * Z.of_nat (length (Medias m)))%Z →
     ∃ i f, frameTurn cl (ReadFrame ch payload) = ForwardTrack (path cl) i f payload ∧
            (0 ≤ i < Z.of_nat (length (Medias m)))%Z ∧
            trackToInterleavedChannel i f = ch) ∧
  ((2 * Z.of_nat (length (Medias m)) ≤ ch)%Z →
     frameTurn cl (ReadFrame ch payload) = FrameReturn) ∧
  frameTurn cl ReadError = FrameReturn.
Proof.
  intros Hre Hc Hst Hm Hch.
  destruct (st_publisher _ (reachable_Streams _ _ Hre) c cl Hc) as (m' & Hm' & _ & _ & _ & Hlen).
  { right. by right. }
  simplify_eq. rewrite <- (Hlen Hst).
  destruct (frameTurn_channel cl ch payload Hch) as [? ?]. done.
Qed.

Lemma recording_frames_forwarded_witness :
  frameTurn (Sample.clientAt Stream.recording 0) (ReadFrame 1 [])
  = ForwardTrack "cam" 0 _TRACK_FLOW_RTCP [] ∧
  frameTurn (Sample.clientAt Stream.recording 0) (ReadFrame 2 []) = FrameReturn.
Proof.
  destruct (recording_frames_forwarded Sample.libs Stream.recording 0
              (Sample.clientAt Stream.recording 0) (Stream.mediasOf Stream.recording 0)
              1 [] reachable_recording) as (_ & _ & _);
    [by vm_compute| by vm_compute | by vm_compute | by vm_compute |].
  destruct (recording_frames_forwarded Sample.libs Stream.recording 0
              (Sample.clientAt Stream.recording 0) (Stream.mediasOf Stream.recording 0)
              2 [] reachable_recording) as (_ & Hret & _);
    [by vm_compute| by vm_compute | by vm_compute | by vm_compute |].
  split; [by vm_compute|]. apply Hret. by vm_compute.
Defined.

(** ** DESCRIBE, PAUSE and RECORD *)

Lemma handle_DESCRIBE L range p c cl req cseq ur :
  p_mem p !! c = Some cl → Request.Headers req !! "CSeq" = Some cseq →
  url_Parse L (Request.Url req) = Some ur → Request.Method req = "DESCRIBE" →
  handleRequest L range p c req = caseDescribe p cl req cseq (requestPath (Path ur)).
Proof. intros Hc Hcseq Hur Hm. unfold handleRequest. by rewrite Hc, Hcseq, Hur, Hm. Qed.

Lemma handle_PAUSE L range p c cl req cseq ur :
  p_mem p !! c = Some cl → Request.Headers req !! "CSeq" = Some cseq →
  url_Parse L (Request.Url req) = Some ur → Request.Method req = "PAUSE" →
  handleRequest L range p c req = casePause p c cl cseq (requestPath (Path ur)).
Proof. intros Hc Hcseq Hur Hm. unfold handleRequest. by rewrite Hc, Hcseq, Hur, Hm. Qed.

Lemma handle_RECORD L range p c cl req cseq ur :
  p_mem p !! c = Some cl → Request.Headers req !! "CSeq" = Some cseq →
  url_Parse L (Request.Url req) = Some ur → Request.Method req = "RECORD" →
  handleRequest L range p c req = caseRecord p cl cseq (requestPath (Path ur)).
Proof. intros Hc Hcseq Hur Hm. unfold handleRequest. by rewrite Hc, Hcseq, Hur, Hm. Qed.

(** X14: a DESCRIBE with CSeq and a URL that parses, from a client of a
    reachable program: in state STARTING and on a path that has a publisher
    it is answered 200 with Content-Base the URL of the request, Content-Type
    application/sdp and, as body, the session description of the publisher,
    and the loop goes on if the write succeeds; in another state, or on a
    path without publisher, it is a generic error. The program is the same
    after it. *)
Theorem describe_contract L range p c cl req cseq ur :
  reachable L p → p_mem p !! c = Some cl →
  Request.Headers req !! "CSeq" = Some cseq →
  url_Parse L (Request.Url req) = Some ur →
  Request.Method req = "DESCRIBE" →
  (state cl = "STARTING" →
   ∀ pub, p_publishers p !! requestPath (Path ur) = Some pub →
     ∃ pcl, p_mem p !! pub = Some pcl ∧
       handleRequest L range p c req
       = Ret (p, (Some (describeReply req cseq (streamSdpText pcl)), None)) ∧
       ∀ writeOk, serve L range p c req writeOk
         = Ret (p, [WriteResponse c (describeReply req cseq (streamSdpText pcl))],
                if writeOk then Continue else Return)) ∧
  (state cl ≠ "STARTING" ∨ p_publishers p !! requestPath (Path ur) = None →
   ∃ msg, handleRequest L range p c req = Ret (p, (None, Some (errorf msg)))).
Proof.
  intros Hre Hc Hcseq Hur Hm. apply reachable_Inv in Hre as HI.
  rewrite (handle_DESCRIBE L range p c cl req cseq ur) by done.
  unfold serve. rewrite (handle_DESCRIBE L range p c cl req cseq ur) by done.
  unfold caseDescribe, fails. split.
  - intros Hst pub Hpub. rewrite Hst, Hpub. cbn [String.eqb negb].
    destruct (inv_publishers _ HI _ _ Hpub) as (pcl & Hpcl & _).
    exists pcl. rewrite Hpcl. split; [done|]. split; [done|]. intros w. done.
  - intros [Hst|Hnone].
    + apply String.eqb_neq in Hst. rewrite Hst. cbn. by eexists.
    + rewrite Hnone. destruct (negb _); by eexists.
Qed.

Lemma describe_contract_witness :
  ∃ pcl, p_mem Sample.second !! 0 = Some pcl ∧
    handleRequest Sample.libs Sample.inOrder Sample.second 1 Stream.describe
    = Ret (Sample.second,
           (Some (describeReply Stream.describe "2" (streamSdpText pcl)), None)) ∧
    ∀ writeOk, serve Sample.libs Sample.inOrder Sample.second 1 Stream.describe writeOk
      = Ret (Sample.second,
             [WriteResponse 1 (describeReply Stream.describe "2" (streamSdpText pcl))],
             if writeOk then Continue else Return).
Proof.
  destruct (describe_contract Sample.libs Sample.inOrder Sample.second 1
              (Sample.clientAt Sample.second 1) Stream.describe "2" Stream.camPath
              reachable_second) as [Hok _]; [by vm_compute..|].
  apply (Hok ltac:(by vm_compute) 0). by vm_compute.
Defined.

(** X15: after an ANNOUNCE that succeeded, a DESCRIBE on a URL of the same
    path, from a client in state STARTING, is answered with the very body of
    the ANNOUNCE. *)
Theorem describe_returns_the_announced_sdp
    L range p c req ur p' res d dcl dreq dcseq dur :
  Request.Method req = "ANNOUNCE" →
  url_Parse L (Request.Url req) = Some ur →
  handleRequest L range p c req = Ret (p', (Some res, None)) →
  p_mem p' !! d = Some dcl → state dcl = "STARTING" →
  Request.Method dreq = "DESCRIBE" →
  Request.Headers dreq !! "CSeq" = Some dcseq →
  url_Parse L (Request.Url dreq) = Some dur →
  requestPath (Path dur) = requestPath (Path ur) →
  handleRequest L range p' d dreq
  = Ret (p', (Some (describeReply dreq dcseq (Request.Content req)), None)).
Proof.
  intros Hm Hur Hh Hd Hst Hdm Hdcseq Hdur Hpath.
  assert (∃ cl', p' = setPublishers (store p c cl')
                        (<[requestPath (Path ur) := c]> (p_publishers p)) ∧
                 streamSdpText cl' = Request.Content req) as (cl' & Hp' & Htext).
  { revert Hh. unfold handleRequest.
    destruct (p_mem p !! c) as [cl|] eqn:Hc; [|done].
    destruct (Request.Headers req !! "CSeq") as [cseq|]; [|done].
    rewrite Hur, Hm. cbn [String.eqb Ascii.eqb Bool.eqb]. unfold caseAnnounce, fails.
    intros Hh. repeat case_match; simplify_eq. by eexists. }
  rewrite (handle_DESCRIBE L range p' d dcl dreq dcseq dur) by done.
  unfold caseDescribe. rewrite Hst, Hpath. cbn [String.eqb negb]. subst p'.
  cbn [p_publishers p_mem setPublishers store setMem]. rewrite !lookup_insert_eq.
  by rewrite Htext.
Qed.

Lemma describe_returns_the_announced_sdp_witness :
  handleRequest Sample.libs Sample.inOrder Stream.pairAnnounced 1 Stream.describe
  = Ret (Stream.pairAnnounced,
         (Some (describeReply Stream.describe "2"
                  (Request.Content (Sample.announce Sample.camUrl Sample.oneMedia))),
          None)).
Proof.
  apply (describe_returns_the_announced_sdp Sample.libs Sample.inOrder Stream.pair 0
           (Sample.announce Sample.camUrl Sample.oneMedia) Stream.camPath
           Stream.pairAnnounced (response200 {[ "CSeq" := "2" ]} []) 1
           (Sample.clientAt Stream.pairAnnounced 1) Stream.describe "2" Stream.camPath);
    by vm_compute.
Defined.

(** X16: a PAUSE with CSeq and a URL that parses. From a client in state
    PLAY, on the path of the client, the state of the client becomes
    PRE_PLAY, every other field of the client and of the program staying as
    it was, the answer written is 200 OK with the CSeq of the request and the
    Session [12345678], and the loop goes on if the write succeeds. In any
    other state or on another path the request is a generic error: the
    program is unchanged, the response written is 400 Bad Request with the
    CSeq, and [run] returns. *)
Theorem pause_contract L range p c cl req cseq ur :
  p_mem p !! c = Some cl →
  Request.Headers req !! "CSeq" = Some cseq →
  url_Parse L (Request.Url req) = Some ur →
  Request.Method req = "PAUSE" →
  (state cl = "PLAY" ∧ requestPath (Path ur) = path cl →
   ∀ writeOk, serve L range p c req writeOk
     = Ret ({| p_mem :=
                 <[c := {| state := "PRE_PLAY"; path := path cl;
                           streamSdpText := streamSdpText cl;
                           streamSdpParsed := streamSdpParsed cl;
                           streamProtocol := streamProtocol cl;
                           streamTracks := streamTracks cl;
                           rconnClosed := rconnClosed cl |}]> (p_mem p);
               p_clients := p_clients p;
               p_publishers := p_publishers p;
               p_publishKey := p_publishKey p;
               p_rtpPort := p_rtpPort p;
               p_rtcpPort := p_rtcpPort p |},
            [WriteResponse c
               (Response.mk 200 "OK" {[ "CSeq" := cseq; "Session" := "12345678" ]} [])],
            if writeOk then Continue else Return)) ∧
  (¬ (state cl = "PLAY" ∧ requestPath (Path ur) = path cl) →
   (∃ msg, handleRequest L range p c req = Ret (p, (None, Some (errorf msg)))) ∧
   ∀ writeOk, serve L range p c req writeOk
     = Ret (p, [WriteResponse c (Response.mk 400 "Bad Request" {[ "CSeq" := cseq ]} [])],
            Return)).
Proof.
  intros Hc Hcseq Hur Hm. split.
  - intros [Hst Hp] w. unfold serve.
    rewrite (handle_PAUSE L range p c cl req cseq ur) by done.
    unfold casePause. rewrite Hst, Hp, !String.eqb_refl. done.
  - intros Hno.
    assert (∃ msg, handleRequest L range p c req = fails p msg) as [msg Hf].
    { rewrite (handle_PAUSE L range p c cl req cseq ur) by done. unfold casePause.
      destruct (String.eqb_spec (state cl) "PLAY") as [Hst|Hst]; [|by eexists].
      destruct (String.eqb_spec (requestPath (Path ur)) (path cl)) as [Hp|Hp];
        [tauto|by eexists]. }
    split; [by exists msg|]. intros w.
    rewrite (serve_generic _ _ _ _ _ msg) by done. unfold response400. by rewrite Hcseq.
Qed.

Lemma pause_contract_witness :
  ∃ p1, serve Sample.libs Sample.inOrder Stream.playing 1 Stream.pause true
        = Ret (p1,
               [WriteResponse 1
                  (Response.mk 200 "OK" {[ "CSeq" := "6"; "Session" := "12345678" ]} [])],
               Continue) ∧
        state <$> p_mem Stream.playing !! 1 = Some "PLAY" ∧
        state <$> p_mem p1 !! 1 = Some "PRE_PLAY".
Proof.
  destruct (pause_contract Sample.libs Sample.inOrder Stream.playing 1
              (Sample.clientAt Stream.playing 1) Stream.pause "6" Stream.camPath)
    as [Hok _]; [by vm_compute..|].
  eexists. split.
  - apply (Hok ltac:(split; by vm_compute) true).
  - split; by vm_compute.
Defined.

Lemma store_same p c cl : p_mem p !! c = Some cl → store p c cl = p.
Proof.
  intros Hc. destruct p as [mem cs ps k r1 r2]. unfold store, setMem. cbn in *.
  f_equal. by apply insert_id.
Qed.

Lemma store_store p c cl1 cl2 : store (store p c cl1) c cl2 = store p c cl2.
Proof. unfold store, setMem. cbn. f_equal. apply insert_insert_eq. Qed.

(** X17: when a PLAY has set the state of a client to PLAY and the loop goes
    on, a PAUSE on the path of the client gives back the program as it was
    before the PLAY. *)
Theorem pause_undoes_play L range p c cl play pause cseq ur p1 evs :
  p_mem p !! c = Some cl →
  serve L range p c play true = Ret (p1, evs, Continue) →
  SetState c "PLAY" ∈ evs →
  Request.Method pause = "PAUSE" →
  Request.Headers pause !! "CSeq" = Some cseq →
  url_Parse L (Request.Url pause) = Some ur →
  requestPath (Path ur) = path cl →
  serve L range p1 c pause true = Ret (p, [WriteResponse c (sessionReply cseq)], Continue).
Proof.
  intros Hc Hs Hev Hm Hcseq Hur Hpath.
  assert (state cl = "PRE_PLAY" ∧ p1 = store p c (withState cl "PLAY")) as [Hst ->].
  { revert Hs. unfold serve, enterStream.
    destruct (handleRequest L range p c play) as [[p2 [res err]]|] eqn:Hh; [|done].
    destruct err as [e|].
    - destruct (handleRequest_error _ _ _ _ _ _ _ _ Hh) as [-> _].
      destruct (handleRequest_sentinel _ _ _ _ _ _ _ _ _ Hh Hc) as [Hplay Hrec].
      rewrite Hc. destruct e, res; cbn [negb]; intros; simplify_eq; cbn in Hev;
        repeat (apply elem_of_cons in Hev as [Hev|Hev]; simplify_eq);
        try (by apply elem_of_nil in Hev); auto.
    - destruct res; intros; simplify_eq.
      repeat (apply elem_of_cons in Hev as [Hev|Hev]; simplify_eq);
        by apply elem_of_nil in Hev. }
  unfold serve.
  rewrite (handle_PAUSE L range _ c (withState cl "PLAY") pause cseq ur);
    [|by cbn; rewrite lookup_insert_eq|done..].
  unfold casePause. cbn [state withState path]. rewrite Hpath, !String.eqb_refl.
  cbn [negb]. rewrite store_store.
  replace (withState (withState cl "PLAY") "PRE_PLAY") with cl
    by (destruct cl; cbn in *; by subst).
  by rewrite store_same.
Qed.

Lemma pause_undoes_play_witness :
  serve Sample.libs Sample.inOrder Stream.playing 1 Stream.pause true
  = Ret (Sample.twoOfTwo, [WriteResponse 1 (sessionReply "6")], Continue).
Proof.
  apply (pause_undoes_play Sample.libs Sample.inOrder Sample.twoOfTwo 1
           (Sample.clientAt Sample.twoOfTwo 1) Sample.play Stream.pause "6"
           Stream.camPath Stream.playing
           [WriteResponse 1 (sessionReply "5"); SetState 1 "PLAY"]).
  - by vm_compute.
  - by vm_compute.
  - apply list_elem_of_further, list_elem_of_here.
  - by vm_compute.
  - by vm_compute.
  - by vm_compute.
  - by vm_compute.
Defined.

(** X18: a RECORD with CSeq and a URL that parses, from a client of a
    reachable program. When the client is in state PRE_RECORD, the path is
    its path and it has as many tracks as it announced medias, the answer is
    200 OK with the CSeq of the request and the Session [12345678]; the turn
    writes it and then sets the state of the client to RECORD, every other
    field of the client and of the program staying as it was, and goes on
    with the frames if the protocol is TCP and with the next request if not;
    if the write fails the state is not set and [run] returns. Otherwise the
    request is a generic error: the turn writes 400 Bad Request with the CSeq
    and closes the client. *)
Theorem record_contract L rangeT rangeC p c cl req cseq ur :
  reachable L p → enumerates rangeC → p_mem p !! c = Some cl →
  Request.Headers req !! "CSeq" = Some cseq →
  url_Parse L (Request.Url req) = Some ur →
  Request.Method req = "RECORD" →
  (recordReady cl (requestPath (Path ur)) →
     handleRequest L rangeT p c req
     = Ret (p, (Some (Response.mk 200 "OK"
                        {[ "CSeq" := cseq; "Session" := "12345678" ]} []),
                Some errRecord)) ∧
     serve L rangeT p c req true
       = Ret ({| p_mem :=
                   <[c := {| state := "RECORD"; path := path cl;
                             streamSdpText := streamSdpText cl;
                             streamSdpParsed := streamSdpParsed cl;
                             streamProtocol := streamProtocol cl;
                             streamTracks := streamTracks cl;
                             rconnClosed := rconnClosed cl |}]> (p_mem p);
                 p_clients := p_clients p;
                 p_publishers := p_publishers p;
                 p_publishKey := p_publishKey p;
                 p_rtpPort := p_rtpPort p;
                 p_rtcpPort := p_rtcpPort p |},
              [WriteResponse c
                 (Response.mk 200 "OK" {[ "CSeq" := cseq; "Session" := "12345678" ]} []);
               SetState c "RECORD"],
              match streamProtocol cl with
              | _STREAM_PROTOCOL_TCP => FrameLoop
              | _STREAM_PROTOCOL_UDP => Continue
              end) ∧
     serve L rangeT p c req false
       = Ret (p, [WriteResponse c
                    (Response.mk 200 "OK"
                       {[ "CSeq" := cseq; "Session" := "12345678" ]} [])], Return)) ∧
  (¬ recordReady cl (requestPath (Path ur)) →
     (∃ msg, handleRequest L rangeT p c req = Ret (p, (None, Some (errorf msg)))) ∧
     ∀ writeOk, ∃ p',
       turn L rangeT rangeC p c req writeOk
       = Ret (p', [WriteResponse c
                     (Response.mk 400 "Bad Request" {[ "CSeq" := cseq ]} [])], Return) ∧
       (c ∉ p_clients p') ∧
       rconnClosed <$> p_mem p' !! c = Some true).
Proof.
  intros Hre Hr Hc Hcseq Hur Hm. apply reachable_Inv in Hre as HI.
  pose proof (handle_RECORD L rangeT p c cl req cseq ur Hc Hcseq Hur Hm) as Hh.
  unfold caseRecord in Hh. split.
  - intros (Hst & Hp & m & Hsdp & Hlen).
    rewrite Hst, Hp, !String.eqb_refl, Hsdp, Hlen, Nat.eqb_refl in Hh. cbn [negb] in Hh.
    split; [done|]. unfold serve, enterStream. rewrite Hh, Hc.
    split; [|done]. cbn [negb].
    replace (match streamProtocol cl with
             | _STREAM_PROTOCOL_UDP => Continue
             | _STREAM_PROTOCOL_TCP => FrameLoop
             end)
      with (if bool_decide (streamProtocol cl = _STREAM_PROTOCOL_TCP)
            then FrameLoop else Continue); [done|].
    by destruct (streamProtocol cl).
  - intros Hno.
    assert (∃ msg, handleRequest L rangeT p c req = fails p msg) as [msg Hf].
    { rewrite Hh. destruct (String.eqb_spec (state cl) "PRE_RECORD") as [Hst|Hst]; [|by eexists].
      destruct (String.eqb_spec (requestPath (Path ur)) (path cl)) as [Hp|Hp]; [|by eexists].
      cbn [negb]. destruct (inv_publishing _ HI c cl Hc) as [[m Hsdp] _].
      { right. by left. }
      rewrite Hsdp.
      destruct (Nat.eqb_spec (length (streamTracks cl)) (length (Medias m))) as [Hl|Hl];
        [|by eexists].
      exfalso. apply Hno. unfold recordReady. eauto 10. }
    split; [by exists msg|]. intros w.
    destruct (turn_generic L rangeT rangeC p c cl req msg w Hr HI Hc Hf)
      as (p' & Ht & _ & ? & ?).
    exists p'. split; [|done]. rewrite Ht. unfold response400. by rewrite Hcseq.
Qed.

Lemma record_contract_witness :
  ∃ p1, serve Sample.libs Sample.inOrder Stream.tracked 0 Stream.record true
        = Ret (p1,
               [WriteResponse 0
                  (Response.mk 200 "OK" {[ "CSeq" := "4"; "Session" := "12345678" ]} []);
                SetState 0 "RECORD"], FrameLoop) ∧
        state <$> p_mem Stream.tracked !! 0 = Some "PRE_RECORD" ∧
        state <$> p_mem p1 !! 0 = Some "RECORD".
Proof.
  destruct (record_contract Sample.libs Sample.inOrder Sample.inOrder Stream.tracked 0
              (Sample.clientAt Stream.tracked 0) Stream.record "4" Stream.camPath
              reachable_tracked inOrder_enumerates) as [Hok _]; [by vm_compute..|].
  destruct Hok as (_ & Hs & _).
  { split; [by vm_compute|]. split; [by vm_compute|].
    exists (Stream.mediasOf Stream.tracked 0). split; by vm_compute. }
  eexists. split.
  - exact Hs.
  - split; by vm_compute.
Defined.

(** ** SETUP *)

Lemma udpTransport_text p a b :
  udpTransport p a b =
    "RTP/AVP;unicast;client_port=" +:+ sprintf_d_d a b +:+ ";server_port="
    +:+ sprintf_d_d (p_rtpPort p) (p_rtcpPort p) +:+ ";ssrc=1234ABCD".
Proof.
  unfold udpTransport, strings_Join. cbn [String.concat]. by rewrite !append_assoc.
Qed.

Lemma handle_SETUP_unicast L range p c cl req cseq ur ts :
  p_mem p !! c = Some cl → Request.Headers req !! "CSeq" = Some cseq →
  url_Parse L (Request.Url req) = Some ur → Request.Method req = "SETUP" →
  Request.Headers req !! "Transport" = Some ts →
  "unicast" ∈ newTransportHeader ts →
  handleRequest L range p c req =
    if (state cl =? "STARTING") || (state cl =? "PRE_PLAY") then
      caseSetupPlay range p c cl cseq (requestPath (Path ur)) ts (newTransportHeader ts)
    else if (state cl =? "ANNOUNCE") || (state cl =? "PRE_RECORD") then
      caseSetupRecord range p c cl cseq (requestPath (Path ur)) ts (newTransportHeader ts)
    else fails p ("client is in state '" +:+ state cl +:+ "'").
Proof.
  intros Hc Hcseq Hur Hm Ht Hu.
  rewrite (handle_SETUP L range p c cl req cseq ur) by done.
  unfold caseSetup. rewrite Ht. by rewrite (bool_decide_eq_true_2 _ Hu).
Qed.

Lemma setupPlayLocked_ok p c cl pth proto tr m :
  streamOn p pth m →
  streamTracks cl = [] ∨ streamProtocol cl = proto →
  (length (streamTracks cl) < length (Medias m))%nat →
  setupPlayLocked p c cl pth proto tr
  = Ret (store p c (appendTrack cl "PRE_PLAY" pth proto tr), None).
Proof.
  intros (pub & pcl & Hpub & Hpcl & Hsdp) Hproto Hlen. unfold setupPlayLocked.
  rewrite Hpub, Hpcl, Hsdp.
  replace (otherProtocol cl proto) with false.
  2:{ unfold otherProtocol. destruct Hproto as [->| ->]; [done|].
      rewrite bool_decide_eq_true_2 by done. by rewrite andb_false_r. }
  by destruct (Nat.leb_spec (length (Medias m)) (length (streamTracks cl))); [lia|].
Qed.

Lemma otherProtocol_true cl proto :
  otherProtocol cl proto = true →
  ¬ (streamTracks cl = [] ∨ streamProtocol cl = proto).
Proof.
  unfold otherProtocol. intros [Hl Hp]%andb_true_iff [Hn|Hn].
  - by rewrite Hn in Hl.
  - by rewrite bool_decide_eq_true_2 in Hp.
Qed.

Lemma otherProtocol_none cl proto :
  otherProtocol cl proto = false →
  streamTracks cl = [] ∨ streamProtocol cl = proto.
Proof.
  unfold otherProtocol. intros [Hl|Hp]%andb_false_iff.
  - left. destruct (streamTracks cl); [done|]. by cbn in Hl.
  - right. apply negb_false_iff in Hp. by apply bool_decide_eq_true_1 in Hp.
Qed.

Lemma same_path_check cl pth :
  negb (path cl =? "") && negb (pth =? path cl) = false ↔
  (path cl = "" ∨ pth = path cl).
Proof.
  destruct (String.eqb_spec (path cl) ""), (String.eqb_spec pth (path cl));
    cbn; split; intros H; try done; auto; by destruct H.
Qed.

Lemma setupPlayLocked_cases p c cl pth proto tr :
  Inv p →
  ((streamTracks cl = [] ∨ streamProtocol cl = proto) ∧
   (∃ m, streamOn p pth m ∧ (length (streamTracks cl) < length (Medias m))%nat) ∧
   setupPlayLocked p c cl pth proto tr
   = Ret (store p c (appendTrack cl "PRE_PLAY" pth proto tr), None))
  ∨ (¬ ((streamTracks cl = [] ∨ streamProtocol cl = proto) ∧
        ∃ m, streamOn p pth m ∧ (length (streamTracks cl) < length (Medias m))%nat) ∧
     ∃ msg, setupPlayLocked p c cl pth proto tr = Ret (p, Some (errorf msg))).
Proof.
  intros HI. unfold setupPlayLocked.
  destruct (p_publishers p !! pth) as [pub|] eqn:Hpub.
  2:{ right. split; [|by eexists]. intros (_ & m & (? & ? & ? & _) & _). congruence. }
  destruct (otherProtocol cl proto) eqn:Ho.
  { right. split; [|by eexists]. intros [? _]. by eapply otherProtocol_true. }
  destruct (inv_publishers _ HI _ _ Hpub) as (pcl & Hpcl & _ & [m Hsdp] & _).
  rewrite Hpcl, Hsdp.
  destruct (Nat.leb_spec (length (Medias m)) (length (streamTracks cl))) as [Hl|Hl].
  - right. split; [|by eexists]. intros (_ & m' & (? & ? & ? & ? & ?) & ?).
    simplify_eq. lia.
  - left. split; [by apply otherProtocol_none|]. split; [|done].
    exists m. split; [|done]. by exists pub, pcl.
Qed.

Lemma setupRecordUdpLocked_cases p c cl tr :
  is_Some (streamSdpParsed cl) →
  ((streamTracks cl = [] ∨ streamProtocol cl = _STREAM_PROTOCOL_UDP) ∧
   (∃ m, streamSdpParsed cl = Some m ∧
         (length (streamTracks cl) < length (Medias m))%nat) ∧
   setupRecordUdpLocked p c cl tr
   = Ret (store p c (appendTrack cl "PRE_RECORD" (path cl) _STREAM_PROTOCOL_UDP tr),
          None))
  ∨ (¬ ((streamTracks cl = [] ∨ streamProtocol cl = _STREAM_PROTOCOL_UDP) ∧
        ∃ m, streamSdpParsed cl = Some m ∧
             (length (streamTracks cl) < length (Medias m))%nat) ∧
     ∃ msg, setupRecordUdpLocked p c cl tr = Ret (p, Some (errorf msg))).
Proof.
  intros [m Hsdp]. unfold setupRecordUdpLocked.
  destruct (otherProtocol cl _STREAM_PROTOCOL_UDP) eqn:Ho.
  { right. split; [|by eexists]. intros [? _]. by eapply otherProtocol_true. }
  rewrite Hsdp.
  destruct (Nat.leb_spec (length (Medias m)) (length (streamTracks cl))) as [Hl|Hl].
  - right. split; [|by eexists]. intros (_ & m' & ? & ?). simplify_eq. lia.
  - left. split; [by apply otherProtocol_none|]. split; [|done]. by exists m.
Qed.

(** X19: the SETUP of a reader over UDP. Take a SETUP with CSeq, a URL that
    parses and a transport header with [unicast], [RTP/AVP] and one token
    [client_port=a-b] with both ports set, from a client in state STARTING
    or PRE_PLAY. When the client has no path yet or asks for its path, its
    tracks if any are over UDP, and the path has a publisher that announced
    more medias than the client has tracks, the client takes the path, the
    state PRE_PLAY and the protocol UDP and gets one more track with the
    ports [a] and [b], nothing else changes, and the answer is 200 OK with
    CSeq, Session and the transport
    [RTP/AVP;unicast;client_port=a-b;server_port=...;ssrc=1234ABCD], the
    server ports being those of the program. When one of these conditions
    fails, in a reachable program, the request is a generic error and
    nothing changes. *)
Theorem reader_setup_udp L range p c cl req cseq ur ts (a b : Z) :
  enumerates range → p_mem p !! c = Some cl →
  Request.Method req = "SETUP" →
  Request.Headers req !! "CSeq" = Some cseq →
  url_Parse L (Request.Url req) = Some ur →
  Request.Headers req !! "Transport" = Some ts →
  "unicast" ∈ newTransportHeader ts → "RTP/AVP" ∈ newTransportHeader ts →
  proposals (newTransportHeader ts) "client_port" = ["client_port=" +:+ sprintf_d_d a b] →
  (0 < a < 2 ^ 63)%Z → (0 < b < 2 ^ 63)%Z →
  state cl = "STARTING" ∨ state cl = "PRE_PLAY" →
  (readerReady p cl (requestPath (Path ur)) _STREAM_PROTOCOL_UDP →
   handleRequest L range p c req
   = Ret ({| p_mem :=
               <[c := {| state := "PRE_PLAY"; path := requestPath (Path ur);
                         streamSdpText := streamSdpText cl;
                         streamSdpParsed := streamSdpParsed cl;
                         streamProtocol := _STREAM_PROTOCOL_UDP;
                         streamTracks :=
                           streamTracks cl ++ [{| rtpPort := a; rtcpPort := b |}];
                         rconnClosed := rconnClosed cl |}]> (p_mem p);
             p_clients := p_clients p;
             p_publishers := p_publishers p;
             p_publishKey := p_publishKey p;
             p_rtpPort := p_rtpPort p;
             p_rtcpPort := p_rtcpPort p |},
          (Some (Response.mk 200 "OK"
             {[ "CSeq" := cseq;
                "Transport" :=
                  "RTP/AVP;unicast;client_port=" +:+ sprintf_d_d a b
                  +:+ ";server_port=" +:+ sprintf_d_d (p_rtpPort p) (p_rtcpPort p)
                  +:+ ";ssrc=1234ABCD";
                "Session" := "12345678" ]} []), None))) ∧
  (reachable L p →
   ¬ readerReady p cl (requestPath (Path ur)) _STREAM_PROTOCOL_UDP →
   ∃ msg, handleRequest L range p c req = Ret (p, (None, Some (errorf msg)))).
Proof.
  intros Hr Hc Hm Hcseq Hur Ht Hu Hudp Hports Ha Hb Hst.
  rewrite (handle_SETUP_unicast L range p c cl req cseq ur ts) by done.
  replace ((state cl =? "STARTING") || (state cl =? "PRE_PLAY")) with true
    by (by destruct Hst as [-> | ->]).
  unfold caseSetupPlay. rewrite (bool_decide_eq_true_2 _ Hudp).
  rewrite (getClientPorts_proposed _ _ a b) by (done || lia).
  replace ((a =? 0)%Z || (b =? 0)%Z) with false
    by (symmetry; apply orb_false_iff; split; apply Z.eqb_neq; lia).
  split.
  - intros (Hpath & Hproto & m & Hon & Hlen).
    rewrite (proj2 (same_path_check cl _)) by done.
    rewrite (setupPlayLocked_ok _ _ _ _ _ _ m) by done.
    unfold response200, sessionHeaders. by rewrite udpTransport_text.
  - intros Hre Hno. apply reachable_Inv in Hre as HI.
    destruct (negb (path cl =? "") && negb (requestPath (Path ur) =? path cl)) eqn:Hp;
      [by eexists|].
    apply same_path_check in Hp.
    destruct (setupPlayLocked_cases p c cl (requestPath (Path ur)) _STREAM_PROTOCOL_UDP
                {| rtpPort := a; rtcpPort := b |} HI)
      as [(? & ? & _)|(_ & msg & ->)]; [|by eexists].
    exfalso. apply Hno. by split.
Qed.

Lemma reader_setup_udp_witness :
  ∃ p1, handleRequest Sample.libs Sample.inOrder Stream.joined 1 Stream.udpSetup
        = Ret (p1,
               (Some (Response.mk 200 "OK"
                  {[ "CSeq" := "3";
                     "Transport" :=
                       "RTP/AVP;unicast;client_port=6000-6001;server_port=8000-8001;ssrc=1234ABCD";
                     "Session" := "12345678" ]} []), None)) ∧
        p_mem Stream.joined !! 1 = Some newClientValue ∧
        p_mem p1 !! 1
        = Some {| state := "PRE_PLAY"; path := "cam"; streamSdpText := [];
                  streamSdpParsed := None; streamProtocol := _STREAM_PROTOCOL_UDP;
                  streamTracks := [{| rtpPort := 6000; rtcpPort := 6001 |}];
                  rconnClosed := false |}.
Proof.
  destruct (reader_setup_udp Sample.libs Sample.inOrder Stream.joined 1
              (Sample.clientAt Stream.joined 1) Stream.udpSetup "3" Stream.camPath
              "RTP/AVP;unicast;client_port=6000-6001" 6000 6001 inOrder_enumerates)
    as [Hok _].
  - by vm_compute.
  - by vm_compute.
  - by vm_compute.
  - by vm_compute.
  - by vm_compute.
  - by vm_compute.
  - by vm_compute.
  - by vm_compute.
  - lia.
  - lia.
  - left. by vm_compute.
  - eexists. split.
    + rewrite Hok; [by vm_compute|].
      split; [left; by vm_compute|]. split; [left; by vm_compute|].
      exists (Stream.mediasOf Stream.joined 0). split; [|vm_compute; lia].
      exists 0, (Sample.clientAt Stream.joined 0). repeat split; by vm_compute.
    + split; by vm_compute.
Defined.

(** X20: the SETUP of a reader over TCP. Take a SETUP with CSeq, a URL that
    parses and a transport header with [unicast] and [RTP/AVP/TCP] and
    without [RTP/AVP], from a client in state STARTING or PRE_PLAY. When the
    client has no path yet or asks for its path, its tracks if any are over
    TCP, and the path has a publisher that announced more medias than the
    client has tracks, the client takes the path, the state PRE_PLAY and the
    protocol TCP and gets one more track, without ports, nothing else
    changes, and whatever [interleaved] the request proposes the answer is
    200 OK with CSeq, Session and the transport
    [RTP/AVP/TCP;unicast;interleaved=2k-(2k+1)], [k] being the number of
    tracks the client had. When one of these conditions fails, in a
    reachable program, the request is a generic error and nothing changes. *)
Theorem reader_setup_tcp L range p c cl req cseq ur ts :
  p_mem p !! c = Some cl →
  Request.Method req = "SETUP" →
  Request.Headers req !! "CSeq" = Some cseq →
  url_Parse L (Request.Url req) = Some ur →
  Request.Headers req !! "Transport" = Some ts →
  "unicast" ∈ newTransportHeader ts →
  "RTP/AVP" ∉ newTransportHeader ts → "RTP/AVP/TCP" ∈ newTransportHeader ts →
  state cl = "STARTING" ∨ state cl = "PRE_PLAY" →
  (readerReady p cl (requestPath (Path ur)) _STREAM_PROTOCOL_TCP →
   handleRequest L range p c req
   = Ret ({| p_mem :=
               <[c := {| state := "PRE_PLAY"; path := requestPath (Path ur);
                         streamSdpText := streamSdpText cl;
                         streamSdpParsed := streamSdpParsed cl;
                         streamProtocol := _STREAM_PROTOCOL_TCP;
                         streamTracks :=
                           streamTracks cl ++ [{| rtpPort := 0; rtcpPort := 0 |}];
                         rconnClosed := rconnClosed cl |}]> (p_mem p);
             p_clients := p_clients p;
             p_publishers := p_publishers p;
             p_publishKey := p_publishKey p;
             p_rtpPort := p_rtpPort p;
             p_rtcpPort := p_rtcpPort p |},
          (Some (Response.mk 200 "OK"
             {[ "CSeq" := cseq;
                "Transport" :=
                  "RTP/AVP/TCP;unicast;interleaved="
                  +:+ sprintf_d_d (2 * Z.of_nat (length (streamTracks cl)))
                                  (2 * Z.of_nat (length (streamTracks cl)) + 1);
                "Session" := "12345678" ]} []), None))) ∧
  (reachable L p →
   ¬ readerReady p cl (requestPath (Path ur)) _STREAM_PROTOCOL_TCP →
   ∃ msg, handleRequest L range p c req = Ret (p, (None, Some (errorf msg)))).
Proof.
  intros Hc Hm Hcseq Hur Ht Hu Hudp Htcp Hst.
  rewrite (handle_SETUP_unicast L range p c cl req cseq ur ts) by done.
  replace ((state cl =? "STARTING") || (state cl =? "PRE_PLAY")) with true
    by (by destruct Hst as [-> | ->]).
  unfold caseSetupPlay.
  rewrite (bool_decide_eq_false_2 _ Hudp), (bool_decide_eq_true_2 _ Htcp).
  split.
  - intros (Hpath & Hproto & m & Hon & Hlen).
    rewrite (proj2 (same_path_check cl _)) by done.
    rewrite (setupPlayLocked_ok _ _ _ _ _ _ m) by done.
    cbn [p_mem store setMem]. rewrite lookup_insert_eq.
    cbn [streamTracks appendTrack]. rewrite length_app. cbn [length].
    unfold response200, sessionHeaders, tcpTransport, strings_Join.
    cbn [String.concat].
    replace ((Z.of_nat (length (streamTracks cl) + 1) - 1) * 2)%Z
      with (2 * Z.of_nat (length (streamTracks cl)))%Z by lia.
    done.
  - intros Hre Hno. apply reachable_Inv in Hre as HI.
    destruct (negb (path cl =? "") && negb (requestPath (Path ur) =? path cl)) eqn:Hp;
      [by eexists|].
    apply same_path_check in Hp.
    destruct (setupPlayLocked_cases p c cl (requestPath (Path ur)) _STREAM_PROTOCOL_TCP
                {| rtpPort := 0; rtcpPort := 0 |} HI)
      as [(? & ? & _)|(_ & msg & ->)]; [|by eexists].
    exfalso. apply Hno. by split.
Qed.

Lemma reader_setup_tcp_witness :
  ∃ p1, handleRequest Sample.libs Sample.inOrder Sample.second 1 Stream.tcpSetup
        = Ret (p1,
               (Some (Response.mk 200 "OK"
                  {[ "CSeq" := "3";
                     "Transport" := "RTP/AVP/TCP;unicast;interleaved=0-1";
                     "Session" := "12345678" ]} []), None)) ∧
        p_mem Sample.second !! 1 = Some newClientValue ∧
        p_mem p1 !! 1
        = Some {| state := "PRE_PLAY"; path := "cam"; streamSdpText := [];
                  streamSdpParsed := None; streamProtocol := _STREAM_PROTOCOL_TCP;
                  streamTracks := [{| rtpPort := 0; rtcpPort := 0 |}];
                  rconnClosed := false |}.
Proof.
  destruct (reader_setup_tcp Sample.libs Sample.inOrder Sample.second 1
              (Sample.clientAt Sample.second 1) Stream.tcpSetup "3" Stream.camPath
              "RTP/AVP/TCP;unicast;interleaved=0-1")
    as [Hok _].
  - by vm_compute.
  - by vm_compute.
  - by vm_compute.
  - by vm_compute.
  - by vm_compute.
  - by vm_compute.
  - by vm_compute.
  - by vm_compute.
  - left. by vm_compute.
  - eexists. split.
    + rewrite Hok; [by vm_compute|].
      split; [left; by vm_compute|]. split; [left; by vm_compute|].
      exists (Stream.mediasOf Sample.second 0). split; [|vm_compute; lia].
      exists 0, (Sample.clientAt Sample.second 0). repeat split; by vm_compute.
    + split; by vm_compute.
Defined.

Lemma setupRecordUdpLocked_ok p c cl tr m :
  streamSdpParsed cl = Some m →
  streamTracks cl = [] ∨ streamProtocol cl = _STREAM_PROTOCOL_UDP →
  (length (streamTracks cl) < length (Medias m))%nat →
  setupRecordUdpLocked p c cl tr
  = Ret (store p c (appendTrack cl "PRE_RECORD" (path cl) _STREAM_PROTOCOL_UDP tr), None).
Proof.
  intros Hsdp Hproto Hlen. unfold setupRecordUdpLocked. rewrite Hsdp.
  replace (otherProtocol cl _STREAM_PROTOCOL_UDP) with false.
  2:{ unfold otherProtocol. destruct Hproto as [->| ->]; [done|].
      rewrite bool_decide_eq_true_2 by done. by rewrite andb_false_r. }
  by destruct (Nat.leb_spec (length (Medias m)) (length (streamTracks cl))); [lia|].
Qed.

(** X21: the SETUP of a publisher over UDP. Take a SETUP with CSeq, a URL
    that parses and a transport header with [unicast], [mode=record],
    [RTP/AVP/UDP] and one token [client_port=a-b] with both ports set, from a
    client in state ANNOUNCE or PRE_RECORD. When the path of the request is
    the path of the client, its tracks if any are over UDP, and it announced
    more medias than it has tracks, the client takes the state PRE_RECORD and
    the protocol UDP and gets one more track with the ports [a] and [b],
    nothing else changes, and the answer is 200 OK with CSeq, Session and
    the transport
    [RTP/AVP;unicast;client_port=a-b;server_port=...;ssrc=1234ABCD], which
    names the protocol [RTP/AVP]. When one of these conditions fails, in a
    reachable program, the request is a generic error and nothing
    changes. *)
Theorem publisher_setup_udp L range p c cl req cseq ur ts (a b : Z) :
  enumerates range → p_mem p !! c = Some cl →
  Request.Method req = "SETUP" →
  Request.Headers req !! "CSeq" = Some cseq →
  url_Parse L (Request.Url req) = Some ur →
  Request.Headers req !! "Transport" = Some ts →
  "unicast" ∈ newTransportHeader ts → "mode=record" ∈ newTransportHeader ts →
  "RTP/AVP/UDP" ∈ newTransportHeader ts →
  proposals (newTransportHeader ts) "client_port" = ["client_port=" +:+ sprintf_d_d a b] →
  (0 < a < 2 ^ 63)%Z → (0 < b < 2 ^ 63)%Z →
  state cl = "ANNOUNCE" ∨ state cl = "PRE_RECORD" →
  (publisherReady cl (requestPath (Path ur)) _STREAM_PROTOCOL_UDP →
   handleRequest L range p c req
   = Ret ({| p_mem :=
               <[c := {| state := "PRE_RECORD"; path := path cl;
                         streamSdpText := streamSdpText cl;
                         streamSdpParsed := streamSdpParsed cl;
                         streamProtocol := _STREAM_PROTOCOL_UDP;
                         streamTracks :=
                           streamTracks cl ++ [{| rtpPort := a; rtcpPort := b |}];
                         rconnClosed := rconnClosed cl |}]> (p_mem p);
             p_clients := p_clients p;
             p_publishers := p_publishers p;
             p_publishKey := p_publishKey p;
             p_rtpPort := p_rtpPort p;
             p_rtcpPort := p_rtcpPort p |},
          (Some (Response.mk 200 "OK"
             {[ "CSeq" := cseq;
                "Transport" :=
                  "RTP/AVP;unicast;client_port=" +:+ sprintf_d_d a b
                  +:+ ";server_port=" +:+ sprintf_d_d (p_rtpPort p) (p_rtcpPort p)
                  +:+ ";ssrc=1234ABCD";
                "Session" := "12345678" ]} []), None))) ∧
  (reachable L p →
   ¬ publisherReady cl (requestPath (Path ur)) _STREAM_PROTOCOL_UDP →
   ∃ msg, handleRequest L range p c req = Ret (p, (None, Some (errorf msg)))).
Proof.
  intros Hr Hc Hm Hcseq Hur Ht Hu Hrec Hudp Hports Ha Hb Hst.
  rewrite (handle_SETUP_unicast L range p c cl req cseq ur ts) by done.
  replace ((state cl =? "STARTING") || (state cl =? "PRE_PLAY")) with false
    by (by destruct Hst as [-> | ->]).
  replace ((state cl =? "ANNOUNCE") || (state cl =? "PRE_RECORD")) with true
    by (by destruct Hst as [-> | ->]).
  unfold caseSetupRecord.
  rewrite (bool_decide_eq_true_2 _ Hrec), (bool_decide_eq_true_2 _ Hudp). cbn [negb].
  split.
  - intros (Hpath & Hproto & m & Hsdp & Hlen).
    rewrite Hpath, String.eqb_refl. cbn [negb].
    rewrite (getClientPorts_proposed _ _ a b) by (done || lia).
    replace ((a =? 0)%Z || (b =? 0)%Z) with false
      by (symmetry; apply orb_false_iff; split; apply Z.eqb_neq; lia).
    rewrite (setupRecordUdpLocked_ok _ _ _ _ m) by done.
    unfold response200, sessionHeaders. by rewrite udpTransport_text.
  - intros Hre Hno. apply reachable_Inv in Hre as HI.
    destruct (String.eqb_spec (requestPath (Path ur)) (path cl)) as [Hp|Hp];
      [|by eexists]. cbn [negb].
    rewrite (getClientPorts_proposed _ _ a b) by (done || lia).
    replace ((a =? 0)%Z || (b =? 0)%Z) with false
      by (symmetry; apply orb_false_iff; split; apply Z.eqb_neq; lia).
    destruct (setupRecordUdpLocked_cases p c cl {| rtpPort := a; rtcpPort := b |})
      as [(? & ? & _)|(_ & msg & ->)]; [|exfalso; apply Hno; by split|by eexists].
    apply (inv_publishing _ HI c cl Hc). destruct Hst as [?|?]; [by left|right; by left].
Qed.

Lemma publisher_setup_udp_witness :
  ∃ p1, handleRequest Sample.libs Sample.inOrder Sample.announced 0 Stream.udpRecordSetup
        = Ret (p1,
               (Some (Response.mk 200 "OK"
                  {[ "CSeq" := "3";
                     "Transport" :=
                       "RTP/AVP;unicast;client_port=5000-5001;server_port=8000-8001;ssrc=1234ABCD";
                     "Session" := "12345678" ]} []), None)) ∧
        state <$> p_mem Sample.announced !! 0 = Some "ANNOUNCE" ∧
        streamTracks <$> p_mem Sample.announced !! 0 = Some [] ∧
        state <$> p_mem p1 !! 0 = Some "PRE_RECORD" ∧
        streamProtocol <$> p_mem p1 !! 0 = Some _STREAM_PROTOCOL_UDP ∧
        streamTracks <$> p_mem p1 !! 0 = Some [{| rtpPort := 5000; rtcpPort := 5001 |}].
Proof.
  destruct (publisher_setup_udp Sample.libs Sample.inOrder Sample.announced 0
              (Sample.clientAt Sample.announced 0) Stream.udpRecordSetup "3" Stream.camPath
              "RTP/AVP/UDP;unicast;mode=record;client_port=5000-5001" 5000 5001
              inOrder_enumerates)
    as [Hok _].
  - by vm_compute.
  - by vm_compute.
  - by vm_compute.
  - by vm_compute.
  - by vm_compute.
  - by vm_compute.
  - by vm_compute.
  - by vm_compute.
  - by vm_compute.
  - lia.
  - lia.
  - left. by vm_compute.
  - eexists. split.
    + rewrite Hok; [by vm_compute|].
      split; [by vm_compute|]. split; [left; by vm_compute|].
      exists (Stream.mediasOf Sample.announced 0). split; [by vm_compute|vm_compute; lia].
    + repeat split; by vm_compute.
Defined.

(** X22: what a SETUP that succeeds had: a Transport header with the token
    [unicast], and either a client in state STARTING or PRE_PLAY and the
    token [RTP/AVP] or [RTP/AVP/TCP], or a client in state ANNOUNCE or
    PRE_RECORD and the token [mode=record] with [RTP/AVP/UDP] or
    [RTP/AVP/TCP]. *)
Theorem setup_requirements L range p c cl req p' res :
  p_mem p !! c = Some cl →
  Request.Method req = "SETUP" →
  handleRequest L range p c req = Ret (p', (Some res, None)) →
  ∃ ts, Request.Headers req !! "Transport" = Some ts ∧
    "unicast" ∈ newTransportHeader ts ∧
    ((state cl = "STARTING" ∨ state cl = "PRE_PLAY") ∧
       ("RTP/AVP" ∈ newTransportHeader ts ∨ "RTP/AVP/TCP" ∈ newTransportHeader ts)
     ∨ (state cl = "ANNOUNCE" ∨ state cl = "PRE_RECORD") ∧
       "mode=record" ∈ newTransportHeader ts ∧
       ("RTP/AVP/UDP" ∈ newTransportHeader ts ∨ "RTP/AVP/TCP" ∈ newTransportHeader ts)).
Proof.
  intros Hc Hm. unfold handleRequest. rewrite Hc.
  destruct (Request.Headers req !! "CSeq") as [cseq|]; [|done].
  destruct (url_Parse L (Request.Url req)) as [ur|]; [|done].
  rewrite Hm. cbn [String.eqb Ascii.eqb Bool.eqb]. unfold caseSetup, fails.
  destruct (Request.Headers req !! "Transport") as [ts|]; [|done].
  intros H. exists ts. split; [done|].
  case_bool_decide as Hu; [|done]. split; [done|]. cbn [negb] in H.
  destruct ((state cl =? "STARTING") || (state cl =? "PRE_PLAY")) eqn:Hplay.
  - left. split; [apply orb_true_iff in Hplay as [?|?]; eqb_hyps; auto|].
    revert H. unfold caseSetupPlay, fails.
    case_bool_decide; [auto|]. case_bool_decide; [auto|done].
  - destruct ((state cl =? "ANNOUNCE") || (state cl =? "PRE_RECORD")) eqn:Hrec; [|done].
    right. split; [apply orb_true_iff in Hrec as [?|?]; eqb_hyps; auto|].
    revert H. unfold caseSetupRecord, fails.
    case_bool_decide; [|done]. cbn [negb]. intros H'. split; [done|]. revert H'.
    destruct (negb (requestPath (Path ur) =? path cl)); [done|].
    case_bool_decide; [auto|]. case_bool_decide; [auto|done].
Qed.

Lemma setup_requirements_witness :
  ∃ ts, Request.Headers Stream.udpSetup !! "Transport" = Some ts ∧
    "unicast" ∈ newTransportHeader ts ∧
    ((state (Sample.clientAt Stream.joined 1) = "STARTING" ∨
      state (Sample.clientAt Stream.joined 1) = "PRE_PLAY") ∧
       ("RTP/AVP" ∈ newTransportHeader ts ∨ "RTP/AVP/TCP" ∈ newTransportHeader ts)
     ∨ (state (Sample.clientAt Stream.joined 1) = "ANNOUNCE" ∨
        state (Sample.clientAt Stream.joined 1) = "PRE_RECORD") ∧
       "mode=record" ∈ newTransportHeader ts ∧
       ("RTP/AVP/UDP" ∈ newTransportHeader ts ∨ "RTP/AVP/TCP" ∈ newTransportHeader ts)).
Proof.
  apply (setup_requirements Sample.libs Sample.inOrder Stream.joined 1
           (Sample.clientAt Stream.joined 1) Stream.udpSetup Sample.oneOfTwo
           (response200
              (sessionHeaders "3" (udpTransport Sample.oneOfTwo 6000 6001)) []));
    by vm_compute.
Defined.

(** ** ANNOUNCE and the publishing key *)

(** X23: what an ANNOUNCE that succeeds had and did. The request had CSeq, a
    URL that parses, the Content-Type [application/sdp] and a body the SDP
    decoder accepts; the client was in state STARTING and the path had no
    publisher; the answer is 200 with CSeq alone; and the program after it
    has the client as the publisher of the path, in state ANNOUNCE, with the
    path, the body and the decoded description stored in its object and the
    rest of it unchanged. *)
Theorem announce_requirements L range p c cl req p' res :
  p_mem p !! c = Some cl →
  Request.Method req = "ANNOUNCE" →
  handleRequest L range p c req = Ret (p', (Some res, None)) →
  ∃ cseq ur m,
    Request.Headers req !! "CSeq" = Some cseq ∧
    url_Parse L (Request.Url req) = Some ur ∧
    state cl = "STARTING" ∧
    Request.Headers req !! "Content-Type" = Some "application/sdp" ∧
    decodeSdp L (Request.Content req) = inr m ∧
    p_publishers p !! requestPath (Path ur) = None ∧
    res = Response.mk 200 "OK" {[ "CSeq" := cseq ]} [] ∧
    p' = setPublishers
           (store p c
              {| state := "ANNOUNCE"; path := requestPath (Path ur);
                 streamSdpText := Request.Content req;
                 streamSdpParsed := Some m; streamProtocol := streamProtocol cl;
                 streamTracks := streamTracks cl; rconnClosed := rconnClosed cl |})
           (<[requestPath (Path ur) := c]> (p_publishers p)).
Proof.
  intros Hc Hm. unfold handleRequest. rewrite Hc.
  destruct (Request.Headers req !! "CSeq") as [cseq|]; [|done].
  destruct (url_Parse L (Request.Url req)) as [ur|]; [|done].
  rewrite Hm. cbn [String.eqb Ascii.eqb Bool.eqb]. unfold caseAnnounce, fails.
  intros H. repeat case_match; simplify_eq; eqb_hyps. subst.
  exists cseq, ur. eexists. repeat split; done.
Qed.

Lemma announce_requirements_witness :
  ∃ cseq ur m,
    Request.Headers (Sample.announce Sample.camUrl Sample.oneMedia) !! "CSeq" = Some cseq ∧
    url_Parse Sample.libs (Request.Url (Sample.announce Sample.camUrl Sample.oneMedia))
      = Some ur ∧
    state (Sample.clientAt Sample.started 0) = "STARTING" ∧
    Request.Headers (Sample.announce Sample.camUrl Sample.oneMedia) !! "Content-Type"
      = Some "application/sdp" ∧
    decodeSdp Sample.libs (Request.Content (Sample.announce Sample.camUrl Sample.oneMedia))
      = inr m ∧
    p_publishers Sample.started !! requestPath (Path ur) = None ∧
    response200 {[ "CSeq" := "2" ]} [] = Response.mk 200 "OK" {[ "CSeq" := cseq ]} [] ∧
    Sample.announced
    = setPublishers
        (store Sample.started 0
           {| state := "ANNOUNCE"; path := requestPath (Path ur);
              streamSdpText := Request.Content (Sample.announce Sample.camUrl Sample.oneMedia);
              streamSdpParsed := Some m;
              streamProtocol := streamProtocol (Sample.clientAt Sample.started 0);
              streamTracks := streamTracks (Sample.clientAt Sample.started 0);
              rconnClosed := rconnClosed (Sample.clientAt Sample.started 0) |})
        (<[requestPath (Path ur) := 0]> (p_publishers Sample.started)).
Proof.
  apply (announce_requirements Sample.libs Sample.inOrder Sample.started 0
           (Sample.clientAt Sample.started 0)
           (Sample.announce Sample.camUrl Sample.oneMedia) Sample.announced
           (response200 {[ "CSeq" := "2" ]} [])); by vm_compute.
Defined.





(** ** What a request leaves alone *)

(** X25: a call of [handleRequest] by the client [c] leaves the set
    [clients], the key and the ports as they are, changes the object of no
    other client, does not close the socket of [c], and leaves [publishers]
    as it is or adds [c] on a path that had no publisher: it never removes
    or replaces a publisher. *)
Theorem request_changes_its_client_only L range p c req p' r :
  handleRequest L range p c req = Ret (p', r) →
  p_clients p' = p_clients p ∧
  p_publishKey p' = p_publishKey p ∧
  p_rtpPort p' = p_rtpPort p ∧ p_rtcpPort p' = p_rtcpPort p ∧
  (∀ x, x ≠ c → p_mem p' !! x = p_mem p !! x) ∧
  (rconnClosed <$> p_mem p' !! c = rconnClosed <$> p_mem p !! c) ∧
  (p_publishers p' = p_publishers p ∨
   ∃ pth, p_publishers p !! pth = None ∧ p_publishers p' = <[pth := c]> (p_publishers p)).
Proof.
  intros Hh. destruct (p_mem p !! c) as [cl|] eqn:Hc.
  2:{ revert Hh. unfold handleRequest. by rewrite Hc. }
  destruct (handleRequest_move _ _ _ _ _ _ _ _ Hc Hh); cbn.
  all: rewrite ?lookup_insert_eq, ?Hc; cbn.
  all: repeat split; try done.
  all: try (intros x Hx; by rewrite lookup_insert_ne).
  all: first [by left | right; by eauto].
Qed.

Lemma request_changes_its_client_only_witness :
  p_clients Sample.announced = p_clients Sample.started ∧
  p_publishKey Sample.announced = p_publishKey Sample.started ∧
  p_rtpPort Sample.announced = p_rtpPort Sample.started ∧
  p_rtcpPort Sample.announced = p_rtcpPort Sample.started ∧
  (∀ x, x ≠ 0 → p_mem Sample.announced !! x = p_mem Sample.started !! x) ∧
  (rconnClosed <$> p_mem Sample.announced !! 0 = rconnClosed <$> p_mem Sample.started !! 0) ∧
  (p_publishers Sample.announced = p_publishers Sample.started ∨
   ∃ pth, p_publishers Sample.started !! pth = None ∧
          p_publishers Sample.announced = <[pth := 0]> (p_publishers Sample.started)).
Proof.
  apply (request_changes_its_client_only Sample.libs Sample.inOrder Sample.started 0
           (Sample.announce Sample.camUrl Sample.oneMedia) Sample.announced
           (Some (response200 {[ "CSeq" := "2" ]} []), None)).
  by vm_compute.
Defined.

Lemma handleRequest_response L range p c req p' res err :
  handleRequest L range p c req = Ret (p', (Some res, err)) →
  Response.StatusCode res = 200%Z ∧
  Response.Headers res !! "CSeq" = Request.Headers req !! "CSeq".
Proof.
  unfold_handler. intros H.
  repeat case_match; simplify_eq; cbn; split; try done.
  all: unfold sessionHeaders; by rewrite lookup_insert_eq.
Qed.

Lemma handleRequest_cseq L range p c req p' res e :
  handleRequest L range p c req = Ret (p', (res, Some e)) →
  (∀ msg, e ≠ errorf msg) → is_Some (Request.Headers req !! "CSeq").
Proof.
  unfold_handler. intros H He.
  repeat case_match; simplify_eq; eauto; by edestruct He.
Qed.

(** X26: every response a turn writes is written to the client of the turn
    and has the CSeq header of the request, or none when the request has
    none; its status is 200, or it is 400 or 401 and then [run] returns and
    the handler has changed nothing. *)
Theorem responses_echo_cseq L range p c req writeOk p' evs ctl x r :
  serve L range p c req writeOk = Ret (p', evs, ctl) →
  WriteResponse x r ∈ evs →
  x = c ∧
  Response.Headers r !! "CSeq" = Request.Headers req !! "CSeq" ∧
  (Response.StatusCode r = 200%Z ∨
   (Response.StatusCode r = 400%Z ∨ Response.StatusCode r = 401%Z) ∧
   ctl = Return ∧ p' = p).
Proof.
  unfold serve, enterStream.
  destruct (handleRequest L range p c req) as [[p1 [res err]]|] eqn:Hh; [|done].
  destruct err as [e|].
  - destruct (handleRequest_error _ _ _ _ _ _ _ _ Hh) as [-> _].
    assert (∀ r, res = Some r →
              Response.StatusCode r = 200%Z ∧
              Response.Headers r !! "CSeq" = Request.Headers req !! "CSeq") as Hres.
    { intros r0 ->. by eapply handleRequest_response. }
    assert (e = errWrongKey → is_Some (Request.Headers req !! "CSeq")) as Hkey.
    { intros ->. by eapply handleRequest_cseq. }
    intros Hs Hin. destruct e.
    + simplify_eq. by apply elem_of_nil in Hin.
    + destruct res as [r0|]; [|done]. destruct (Hres r0 eq_refl) as [? ?].
      repeat case_match; simplify_eq;
        repeat (apply elem_of_cons in Hin as [Hin|Hin]; simplify_eq); auto;
        by apply elem_of_nil in Hin.
    + destruct res as [r0|]; [|done]. destruct (Hres r0 eq_refl) as [? ?].
      repeat case_match; simplify_eq;
        repeat (apply elem_of_cons in Hin as [Hin|Hin]; simplify_eq); auto;
        by apply elem_of_nil in Hin.
    + simplify_eq. apply list_elem_of_singleton in Hin. simplify_eq.
      destruct (Hkey eq_refl) as [cseq Hc]. unfold response401. rewrite Hc.
      cbn [Response.Headers Response.StatusCode default].
      rewrite lookup_singleton_eq. auto 10.
    + simplify_eq. apply list_elem_of_singleton in Hin. simplify_eq.
      unfold response400. destruct (Request.Headers req !! "CSeq");
        cbn [Response.Headers Response.StatusCode];
        rewrite ?lookup_singleton_eq, ?lookup_empty; auto 10.
  - destruct res as [r0|]; [|done]. intros [= <- <- <-] Hin.
    apply list_elem_of_singleton in Hin. simplify_eq.
    destruct (handleRequest_response _ _ _ _ _ _ _ _ Hh) as [? ?]. auto.
Qed.

Lemma responses_echo_cseq_witness :
  1 = 1 ∧
  Response.Headers (response400 Stream.noCSeq) !! "CSeq"
    = Request.Headers Stream.noCSeq !! "CSeq" ∧
  (Response.StatusCode (response400 Stream.noCSeq) = 200%Z ∨
   (Response.StatusCode (response400 Stream.noCSeq) = 400%Z ∨
    Response.StatusCode (response400 Stream.noCSeq) = 401%Z) ∧
   Return = Return ∧ Sample.second = Sample.second).
Proof.
  apply (responses_echo_cseq Sample.libs Sample.inOrder Sample.second 1 Stream.noCSeq
           true Sample.second [WriteResponse 1 (response400 Stream.noCSeq)] Return 1
           (response400 Stream.noCSeq)).
  - by vm_compute.
  - apply list_elem_of_here.
Defined.

Lemma serve_failed_write L range p c req p1 evs ctl :
  serve L range p c req false = Ret (p1, evs, ctl) →
  ctl = Return ∧ ∀ x st, SetState x st ∉ evs.
Proof.
  unfold serve, enterStream. intros H.
  repeat case_match; simplify_eq; split; try done.
  all: intros x st Hin; repeat (apply elem_of_cons in Hin as [Hin|Hin]; simplify_eq);
    by apply elem_of_nil in Hin.
Qed.

(** X27: when the response cannot be written, whatever the request, the turn
    of a client of a reachable program ends with [run] returning: no state
    is set after the write, the client is out of [clients] and its socket is
    closed. *)
Theorem failed_write_ends_the_connection L rangeT rangeC p c cl req :
  reachable L p → enumerates rangeC → p_mem p !! c = Some cl →
  ∃ p' evs, turn L rangeT rangeC p c req false = Ret (p', evs, Return) ∧
    (∀ x st, SetState x st ∉ evs) ∧
    (c ∉ p_clients p') ∧ rconnClosed <$> p_mem p' !! c = Some true.
Proof.
  intros Hre Hr Hc. apply reachable_Inv in Hre as HI.
  destruct (turn_returns L rangeT rangeC p c req false Hr HI) as (p' & evs & ctl & Ht);
    [eauto|].
  pose proof Ht as Ht'. unfold turn in Ht'.
  destruct (serve L rangeT p c req false) as [[[p1 evs1] ctl1]|] eqn:Hs; [|done].
  destruct (serve_failed_write _ _ _ _ _ _ _ _ Hs) as [-> Hev].
  pose proof (Inv_effect _ _ _ HI (serve_effect _ _ _ _ _ _ _ _ _ Hs)) as HI1.
  assert (is_Some (p_mem p1 !! c)) as [cl1 Hc1].
  { destruct (serve_effect _ _ _ _ _ _ _ _ _ Hs); cbn; rewrite ?lookup_insert_eq; eauto. }
  destruct (close_closes rangeC p1 c cl1 Hr HI1 Hc1) as (p2 & Hcl & _ & Hout & Hclosed).
  rewrite Hcl in Ht'. simplify_eq. exists p', evs. done.
Qed.

Lemma failed_write_ends_the_connection_witness :
  ∃ p' evs,
    turn Sample.libs Sample.inOrder Sample.inOrder Sample.twoOfTwo 1 Sample.play false
    = Ret (p', evs, Return) ∧
    (∀ x st, SetState x st ∉ evs) ∧
    (1 ∉ p_clients p') ∧ rconnClosed <$> p_mem p' !! 1 = Some true.
Proof.
  apply (failed_write_ends_the_connection Sample.libs Sample.inOrder Sample.inOrder
           Sample.twoOfTwo 1 (Sample.clientAt Sample.twoOfTwo 1) Sample.play
           reachable_twoOfTwo inOrder_enumerates).
  by vm_compute.
Defined.

(** ** The close of a client and the others *)

Lemma program_eq (p q : program) :
  p_mem p = p_mem q → p_clients p = p_clients q → p_publishers p = p_publishers q →
  p_publishKey p = p_publishKey q → p_rtpPort p = p_rtpPort q →
  p_rtcpPort p = p_rtcpPort q → p = q.
Proof. destruct p, q. cbn. congruence. Qed.

Lemma closedBy_unique D q q1 q2 : closedBy D q q1 → closedBy D q q2 → q1 = q2.
Proof.
  intros [Hc1 Hi1 Ho1 Hp1 Hk1 Hr1 Hs1] [Hc2 Hi2 Ho2 Hp2 Hk2 Hr2 Hs2].
  apply program_eq; try congruence.
  apply map_eq. intros x. destruct (decide (x ∈ D)).
  - by rewrite Hi1, Hi2.
  - by rewrite Ho1, Ho2.
Qed.

(** X28: the program after [close] does not depend on the order in which the
    loop of line 124 goes over [clients]: on a reachable program two orders
    give the same result. *)
Theorem close_order_independent L range1 range2 p c :
  reachable L p → enumerates range1 → enumerates range2 →
  is_Some (p_mem p !! c) →
  close range1 p c = close range2 p c.
Proof.
  intros Hre Hr1 Hr2 [cl Hc]. apply reachable_Inv in Hre as HI.
  destruct (decide (c ∈ p_clients p)) as [Hin|Hin].
  2:{ unfold close. by rewrite !closeFuel_absent. }
  destruct (close_total range1 p c cl Hr1 (inv_clients _ HI) Hc Hin)
    as (p1 & D1 & Hf1 & Hby1 & _ & Hcase1).
  destruct (close_total range2 p c cl Hr2 (inv_clients _ HI) Hc Hin)
    as (p2 & D2 & Hf2 & Hby2 & _ & Hcase2).
  unfold close. rewrite (Hf1 0), (Hf2 0). f_equal.
  assert (p_publishers p1 = p_publishers p2 ∧ D1 = D2) as [Hpub ->].
  { destruct Hcase1 as [(Hp1 & -> & HD1)|(Hn1 & -> & ->)];
      destruct Hcase2 as [(Hp2 & -> & HD2)|(Hn2 & -> & ->)]; try done.
    split; [done|]. apply set_eq. intros x. by rewrite HD1, HD2. }
  rewrite Hpub in Hby1. by eapply closedBy_unique.
Qed.

Lemma backwards_enumerates `{Countable K} : enumerates (Stream.backwards (K:=K)).
Proof. intros X. apply reverse_Permutation. Qed.

Lemma close_order_independent_witness :
  close Sample.inOrder Sample.twoOfTwo 0 = close Stream.backwards Sample.twoOfTwo 0.
Proof.
  apply (close_order_independent Sample.libs Sample.inOrder Stream.backwards
           Sample.twoOfTwo 0 reachable_twoOfTwo inOrder_enumerates backwards_enumerates).
  exists (Sample.clientAt Sample.twoOfTwo 0). by vm_compute.
Defined.

(** X29: what the close of a client of a reachable program leaves alone.
    The key and the ports stay; the object of a client stays as it is or has
    its socket closed, nothing else of it changes; the publisher of every
    path other than the path of the closed client stays; a client whose path
    is another one keeps its object and stays in [clients]; and when the
    closed client is not the publisher of a path that is not empty, nothing
    changes but itself. *)
Theorem close_spares_the_other_paths L range p c cl p' :
  reachable L p → enumerates range → p_mem p !! c = Some cl →
  close range p c = Ret p' →
  p_publishKey p' = p_publishKey p ∧ p_rtpPort p' = p_rtpPort p ∧
  p_rtcpPort p' = p_rtcpPort p ∧
  (∀ x xl', p_mem p' !! x = Some xl' →
     ∃ xl, p_mem p !! x = Some xl ∧ (xl' = xl ∨ xl' = withClosed xl)) ∧
  (∀ k, k ≠ path cl → p_publishers p' !! k = p_publishers p !! k) ∧
  (∀ x xl, x ≠ c → p_mem p !! x = Some xl → path xl ≠ path cl →
     p_mem p' !! x = Some xl ∧ (x ∈ p_clients p → x ∈ p_clients p')) ∧
  (¬ isPublisher p c cl →
     p_publishers p' = p_publishers p ∧
     ∀ x, x ≠ c → p_mem p' !! x = p_mem p !! x ∧ (x ∈ p_clients p → x ∈ p_clients p')).
Proof.
  intros Hre Hr Hc Hcl. apply reachable_Inv in Hre as HI.
  destruct (decide (c ∈ p_clients p)) as [Hin|Hin].
  2:{ unfold close in Hcl. rewrite closeFuel_absent in Hcl by done. simplify_eq.
      repeat split; eauto. }
  destruct (close_total range p c cl Hr (inv_clients _ HI) Hc Hin)
    as (p2 & D & Hf & Hby & HcD & Hcase).
  unfold close in Hcl. rewrite (Hf 0) in Hcl. simplify_eq.
  pose proof Hby as [Hcs Hi Ho _ Hk Hr1 Hr2]. cbn in Hcs, Hi, Ho, Hk, Hr1, Hr2.
  split; [done|]. split; [done|]. split; [done|]. split; [|split; [|split]].
  - intros x xl' Hx. destruct (closedBy_object _ _ _ _ _ Hby Hx) as (xl & ? & ? & _).
    eauto.
  - intros k Hk'. destruct Hcase as [(_ & -> & _)|(_ & -> & _)]; [|done].
    by rewrite lookup_delete_ne.
  - intros x xl Hx Hxl Hpath.
    assert (x ∉ {[c]} ∪ D) as HnD.
    { intros [?%elem_of_singleton|HD]%elem_of_union; [done|].
      destruct Hcase as [(_ & _ & HD')|(_ & _ & ->)]; [|set_solver].
      apply HD' in HD as (_ & _ & Hp). unfold pathIs in Hp. rewrite Hxl in Hp.
      cbn in Hp. congruence. }
    rewrite Ho by done. split; [done|]. rewrite Hcs. set_solver.
  - intros Hno. destruct Hcase as [(? & _)|(_ & -> & ->)]; [done|]. split; [done|].
    intros x Hx. rewrite Ho by set_solver. split; [done|]. rewrite Hcs. set_solver.
Qed.

Lemma close_spares_the_other_paths_witness :
  p_publishers (Stream.closed Sample.twoOfTwo 1) = p_publishers Sample.twoOfTwo ∧
  ∀ x, x ≠ 1 →
    p_mem (Stream.closed Sample.twoOfTwo 1) !! x = p_mem Sample.twoOfTwo !! x ∧
    (x ∈ p_clients Sample.twoOfTwo → x ∈ p_clients (Stream.closed Sample.twoOfTwo 1)).
Proof.
  destruct (close_spares_the_other_paths Sample.libs Sample.inOrder Sample.twoOfTwo 1
              (Sample.clientAt Sample.twoOfTwo 1) (Stream.closed Sample.twoOfTwo 1)
              reachable_twoOfTwo inOrder_enumerates) as (_ & _ & _ & _ & _ & _ & Hreader);
    [by vm_compute..|].
  apply Hreader. intros [_ Hpub]. revert Hpub. by vm_compute.
Defined.
